(** * GLaDOS terminal: response orchestrator and PCM playback decode

    A shallow embedding of [GladosService] (the model-fallback, retry and
    streaming logic of the service class) and of the decode step of
    [playAudio] in [App.tsx], together with the properties the
    specification states about them.

    The hosted generation service, the clock, the timer, the console and
    the consumer of the streaming generator are the environment: the
    service code is embedded as a tree of requests to that environment
    ([prog]), and every statement is made for an arbitrary environment
    (an arbitrary world type and handler).

    Modelling notes.
    - A thrown value is an object read through [status], [code] and
      [message], the message being a string when present.
    - A response stream is finite: the chunks it delivers and the way it
      ends. Calls on the service object are sequential.
    - [setTimeout] is a request carrying its delay; wall-clock time is the
      environment's business.
    - JavaScript numbers that hold integers are [Z]; strings are sequences
      of code units below 256.
    - [Int16Array] is read little-endian; a normalized sample is kept as
      the exact rational it denotes. *)

From Stdlib Require Import ZArith NArith QArith List String Ascii Bool Lia.
Import ListNotations.

Local Open Scope string_scope.
Local Open Scope Z_scope.

(** ** JavaScript string helpers

    Strings are sequences of code units; the model keeps the code units
    0..255 (Rocq's [ascii]), read as Latin-1. *)

Module Js.

(** White space and line terminators of [String.prototype.trim] that are
    below 256: TAB, LF, VT, FF, CR, SP and NBSP. *)
Definition is_space (c : ascii) : bool :=
  let n := N_of_ascii c in
  existsb (N.eqb n) [9; 10; 11; 12; 13; 32; 160]%N.

Fixpoint trimStart (s : string) : string :=
  match s with
  | EmptyString => EmptyString
  | String c t => if is_space c then trimStart t else s
  end.

Fixpoint trimEnd (s : string) : string :=
  match s with
  | EmptyString => EmptyString
  | String c t =>
      match trimEnd t with
      | EmptyString => if is_space c then EmptyString else String c EmptyString
      | t' => String c t'
      end
  end.

Definition trim (s : string) : string := trimEnd (trimStart s).

(** [hay.includes(needle)] *)
Fixpoint includes (hay needle : string) : bool :=
  String.prefix needle hay
  || match hay with
     | EmptyString => false
     | String _ t => includes t needle
     end.

(** Truthiness of a [string | undefined] value. *)
Definition truthy (v : option string) : bool :=
  match v with
  | Some s => negb (s =? EmptyString)%string
  | None => false
  end.

End Js.

(** ** The values exchanged with the hosted service *)

(** A thrown value, as far as the code inspects it: [error.status],
    [error.code] and [error.message]. *)
Record JsError : Type := mkError {
  status : option string;
  code : option Z;
  message : option string
}.

(** [error.status === "RESOURCE_EXHAUSTED" || error.code === 429 ||
     error.message?.includes("quota")] *)
Definition isQuotaError (error : JsError) : bool :=
  match status error with
  | Some s => (s =? "RESOURCE_EXHAUSTED")%string
  | None => false
  end
  || match code error with
     | Some c => c =? 429
     | None => false
     end
  || match message error with
     | Some m => Js.includes m "quota"
     | None => false
     end.

Record InlineData : Type := mkInlineData { data : option string }.
Record Part : Type := mkPart { inlineData : option InlineData }.
Record Content : Type := mkContent { parts : option (list Part) }.
Record Candidate : Type := mkCandidate { content : option Content }.

(** The response of [generateContent]: its [text] accessor and its
    [candidates]. *)
Record GenerateContentResponse : Type := mkResponse {
  resp_text : option string;
  candidates : option (list Candidate)
}.

(** One chunk of [generateContentStream], as far as it is read:
    [chunk.text]. *)
Record Chunk : Type := mkChunk { chunk_text : option string }.

(** The response stream: finite and consumed once, so it is the chunks it
    delivers together with the way it ends (completion, or a throw). *)
Record ResponseStream : Type := mkStream {
  chunks : list Chunk;
  failure : option JsError
}.

(** The two request configurations the service uses. *)
Inductive GenConfig : Type :=
| PersonaConfig   (* systemInstruction, temperature 0.7, topP 0.8, topK 40 *)
| SpeechConfig.   (* responseModalities [AUDIO], prebuilt voice 'Kore' *)

(** What [chat] resolves to. *)
Record ChatResult : Type := mkChat {
  text : string;
  audioBase64 : option string
}.

(** What [chatStream] yields. *)
Record StreamEvent : Type := mkEvent {
  ev_text : option string;
  ev_audioBase64 : option string;
  done : option bool
}.

(** [console.warn] and [console.error]; a call is recorded with the fixed
    leading text of its message. *)
Inductive LogLevel : Type := Warn | Error.

(** ** Requests to the environment *)

Inductive eff : Type -> Type :=
| DateNow : eff Z
| GenerateContent (model : option string) (contents : string)
    (config : GenConfig) : eff (JsError + GenerateContentResponse)
| GenerateContentStream (model : option string) (contents : string)
    (config : GenConfig) : eff (JsError + ResponseStream)
| SetTimeout (delay : Z) : eff unit
| Console (level : LogLevel) (label : string) : eff unit
| Yield (ev : StreamEvent) : eff unit.

(** A program is a finite tree of requests. *)
Inductive prog (R : Type) : Type :=
| Ret (r : R)
| Vis (X : Type) (e : eff X) (k : X -> prog R).

Arguments Ret {R} r.
Arguments Vis {R X} e k.

Fixpoint pbind {A B : Type} (p : prog A) (k : A -> prog B) : prog B :=
  match p with
  | Ret a => k a
  | Vis e f => Vis e (fun x => pbind (f x) k)
  end.

(** ** The service object and its monad *)

Record GladosService : Type := mkService {
  textModels : list string;
  currentTextModelIndex : Z;
  lastModelCheck : Z;
  CHECK_INTERVAL : Z
}.

Definition set_currentTextModelIndex (v : Z) (s : GladosService) :=
  mkService (textModels s) v (lastModelCheck s) (CHECK_INTERVAL s).

Definition set_lastModelCheck (v : Z) (s : GladosService) :=
  mkService (textModels s) (currentTextModelIndex s) v (CHECK_INTERVAL s).

(** How an [async] method ends. *)
Inductive outcome (R : Type) : Type :=
| Returned (r : R)
| Thrown (error : JsError).

Arguments Returned {R} r.
Arguments Thrown {R} error.

(** A method: it reads and writes the fields of [this], talks to the
    environment, and returns or throws. A write made before a throw
    stays. *)
Definition M (R : Type) : Type :=
  GladosService -> prog (outcome R * GladosService).

Definition ret {R : Type} (r : R) : M R := fun s => Ret (Returned r, s).

Definition throw {R : Type} (error : JsError) : M R :=
  fun s => Ret (Thrown error, s).

Definition bind {A B : Type} (m : M A) (k : A -> M B) : M B :=
  fun s =>
    pbind (m s) (fun r =>
      match r with
      | (Returned a, s') => k a s'
      | (Thrown error, s') => Ret (Thrown error, s')
      end).

(** [try { body } catch (error) { handler }] *)
Definition try_catch {A : Type} (body : M A) (handler : JsError -> M A) : M A :=
  fun s =>
    pbind (body s) (fun r =>
      match r with
      | (Returned a, s') => Ret (Returned a, s')
      | (Thrown error, s') => handler error s'
      end).

Definition perform {X : Type} (e : eff X) : M X :=
  fun s => Vis e (fun x => Ret (Returned x, s)).

(** [await] of a service call: the rejection is thrown. *)
Definition await {X : Type} (e : eff (JsError + X)) : M X :=
  bind (perform e) (fun r =>
    match r with
    | inl error => throw error
    | inr x => ret x
    end).

Definition gets {A : Type} (f : GladosService -> A) : M A :=
  fun s => Ret (Returned (f s), s).

Definition modify (f : GladosService -> GladosService) : M unit :=
  fun s => Ret (Returned tt, f s).

Declare Scope glados_scope.
Delimit Scope glados_scope with glados.
Notation "x <- m ;; k" := (bind m (fun x => k))
  (at level 61, m at next level, right associativity) : glados_scope.
Notation "m ;; k" := (bind m (fun _ => k))
  (at level 61, right associativity) : glados_scope.
Local Open Scope glados_scope.

(** ** GladosService *)

Definition REFUSAL : string :=
  "I'm afraid I can't do that. Mostly because I don't want to.".

Definition GENERIC_ERROR_TEXT : string :=
  "An error occurred in my central processing unit. I'd say I'm sorry, but we both know that would be a lie. A very big, fat, orphan-sized lie.".

Definition QUOTA_ERROR_TEXT : string :=
  "Facility-wide resource allocation has been prioritized for more important matters than your incessant chatter. All available processing units are currently occupied.".

Definition TTS_MODEL : string := "gemini-2.5-flash-preview-tts".

Definition tts_prompt (t : string) : string :=
  "Say in a monotone, clinical voice with a distinct autotuned melodic quality. Speak very quickly and efficiently: " ++ t.

(** The object a fresh [new GladosService()] holds. *)
Definition new_GladosService : GladosService :=
  {| textModels := ["gemini-3-flash-preview"; "gemini-2.5-flash"];
     currentTextModelIndex := 0;
     lastModelCheck := 0;
     CHECK_INTERVAL := 60000 |}.

Definition length_of (s : GladosService) : Z := Z.of_nat (List.length (textModels s)).

(** [this.textModels[i]]: [undefined] outside the array. *)
Definition model_at (s : GladosService) (i : Z) : option string :=
  if i <? 0 then None else nth_error (textModels s) (Z.to_nat i).

(** [withRetry(fn, retries, delay)]; the recursion is on [retries]. *)
Fixpoint withRetry {T : Type} (fn : M T) (retries : nat) (delay : Z) : M T :=
  try_catch fn (fun error =>
    match retries with
    | S retries' =>
        if isQuotaError error then
          perform (Console Warn "Quota exceeded. Retrying") ;;
          perform (SetTimeout delay) ;;
          withRetry fn retries' (delay * 2)
        else throw error
    | O => throw error
    end).

(** [candidates?.[0]?.content?.parts?.find(p => p.inlineData)?.inlineData?.data] *)
Definition first_inline_data (r : GenerateContentResponse) : option string :=
  match candidates r with
  | Some (c :: _) =>
      match content c with
      | Some ct =>
          match parts ct with
          | Some ps =>
              match find (fun p => match inlineData p with
                                   | Some _ => true
                                   | None => false
                                   end) ps with
              | Some p =>
                  match inlineData p with
                  | Some d => data d
                  | None => None
                  end
              | None => None
              end
          | None => None
          end
      | None => None
      end
  | _ => None
  end.

Definition generateAudio (t : string) : M (option string) :=
  try_catch
    (audioResponse <-
       withRetry
         (await (GenerateContent (Some TTS_MODEL) (tts_prompt t) SpeechConfig))
         1 500 ;;
     ret (first_inline_data audioResponse))
    (fun error =>
       perform (Console Error "TTS Generation failed:") ;;
       ret None).

(** The cool-down check in front of the loop. [&&] reads the clock only
    when the index is positive. *)
Definition promote_check : M unit :=
  idx <- gets currentTextModelIndex ;;
  if 0 <? idx then
    now <- perform DateNow ;;
    last <- gets lastModelCheck ;;
    interval <- gets CHECK_INTERVAL ;;
    if now - last >? interval
    then modify (set_currentTextModelIndex 0)
    else ret tt
  else ret tt.

(** One pass through the body of the [for] loop at index [i]:
    [Some t] is [return t], [None] goes on to [i + 1]. *)
Definition attempt (i : Z) (message : string) : M (option string) :=
  model <- gets (fun s => model_at s i) ;;
  try_catch
    (response <- await (GenerateContent model message PersonaConfig) ;;
     let t := option_map Js.trim (resp_text response) in
     if Js.truthy t then
       modify (set_currentTextModelIndex i) ;;
       now <- perform DateNow ;;
       modify (set_lastModelCheck now) ;;
       ret t
     else ret None)
    (fun error =>
       len <- gets length_of ;;
       if isQuotaError error && (i <? len - 1) then
         modify (set_currentTextModelIndex (i + 1)) ;;
         ret None
       else if i <? len - 1 then
         modify (set_currentTextModelIndex (i + 1)) ;;
         ret None
       else throw error).

(** [for (let i = ...; i < this.textModels.length; i++)], with [n] the
    number of iterations left, [length - i]. *)
Fixpoint for_models (n : nat) (i : Z) (message : string) : M string :=
  match n with
  | O => ret REFUSAL
  | S n' =>
      r <- attempt i message ;;
      match r with
      | Some t => ret t
      | None => for_models n' (i + 1) message
      end
  end.

Definition generateTextWithFallback (message : string) : M string :=
  promote_check ;;
  i <- gets currentTextModelIndex ;;
  len <- gets length_of ;;
  for_models (Z.to_nat (len - i)) i message.

Definition chat (message : string) : M ChatResult :=
  try_catch
    (gladosText <- generateTextWithFallback message ;;
     audio <- try_catch (generateAudio gladosText)
                (fun audioError =>
                   perform (Console Warn "TTS Generation failed after retries, falling back to text-only:") ;;
                   ret None) ;;
     ret {| text := gladosText; audioBase64 := audio |})
    (fun error =>
       perform (Console Error "GLaDOS Error:") ;;
       let errorText :=
         if isQuotaError error then QUOTA_ERROR_TEXT else GENERIC_ERROR_TEXT in
       ret {| text := errorText; audioBase64 := None |}).

(** [for await (const chunk of responseStream)] *)
Fixpoint for_await (cs : list Chunk) (ending : option JsError)
    (fullText : string) : M string :=
  match cs with
  | [] =>
      match ending with
      | None => ret fullText
      | Some error => throw error
      end
  | chunk :: rest =>
      let textChunk := chunk_text chunk in
      if Js.truthy textChunk then
        let fullText' := fullText ++ match textChunk with
                                     | Some t => t
                                     | None => EmptyString
                                     end in
        perform (Yield {| ev_text := Some fullText';
                          ev_audioBase64 := None;
                          done := None |}) ;;
        for_await rest ending fullText'
      else for_await rest ending fullText
  end.

(** The [try] block of [chatStream]. *)
Definition stream_body (message : string) : M unit :=
  model <- gets (fun s => model_at s (currentTextModelIndex s)) ;;
  responseStream <- await (GenerateContentStream model message PersonaConfig) ;;
  fullText <- for_await (chunks responseStream) (failure responseStream) EmptyString ;;
  audio <- try_catch (generateAudio fullText)
             (fun audioError =>
                perform (Console Warn "TTS Generation failed:") ;;
                ret None) ;;
  perform (Yield {| ev_text := Some fullText;
                    ev_audioBase64 := audio;
                    done := Some true |}).

(** [{ ...result, done: true }] *)
Definition terminal_of (result : ChatResult) : StreamEvent :=
  {| ev_text := Some (text result);
     ev_audioBase64 := audioBase64 result;
     done := Some true |}.

Definition chatStream (message : string) : M unit :=
  try_catch (stream_body message)
    (fun error =>
       perform (Console Error "GLaDOS Stream Error:") ;;
       result <- chat message ;;
       perform (Yield (terminal_of result))).

(** ** Running a program against an environment *)

(** The environment answers each request from its own state. *)
Definition handler (W : Type) : Type := forall X : Type, eff X -> W -> X * W.

(** One request together with the answer it got. *)
Inductive entry : Type :=
| Entry (X : Type) (e : eff X) (x : X).

Arguments Entry {X} e x.

Fixpoint run {W R : Type} (h : handler W) (p : prog R) (w : W)
  : R * W * list entry :=
  match p with
  | Ret r => (r, w, [])
  | Vis e k =>
      let (x, w1) := h _ e w in
      let '(r, w2, tr) := run h (k x) w1 in
      (r, w2, Entry e x :: tr)
  end.

(** A method call on object [s] in world [w]: how it ended, the object
    afterwards, the world afterwards, and what was requested on the way. *)
Definition call {W R : Type} (h : handler W) (m : M R) (s : GladosService)
    (w : W) : outcome R * GladosService * W * list entry :=
  run h (m s) w.

Definition outcome_of {W R : Type}
    (r : outcome R * GladosService * W * list entry) : outcome R :=
  fst (fst (fst r)).

Definition service_of {W R : Type}
    (r : outcome R * GladosService * W * list entry) : GladosService :=
  snd (fst (fst r)).

Definition world_of {W R : Type}
    (r : outcome R * GladosService * W * list entry) : W :=
  snd (fst r).

Definition trace_of {W R : Type}
    (r : outcome R * GladosService * W * list entry) : list entry :=
  snd r.

(** *** Reading a trace *)

(** The text-generation attempts: the model asked and the answer. *)
Definition text_attempt (en : entry)
  : option (option string * (JsError + GenerateContentResponse)) :=
  match en with
  | Entry e x =>
      match e in eff X return X -> _ with
      | GenerateContent model _ PersonaConfig => fun a => Some (model, a)
      | _ => fun _ => None
      end x
  end.

Definition yielded (en : entry) : option StreamEvent :=
  match en with
  | Entry e _ =>
      match e with
      | Yield ev => Some ev
      | _ => None
      end
  end.

Fixpoint collect {A B : Type} (f : A -> option B) (l : list A) : list B :=
  match l with
  | [] => []
  | a :: t =>
      match f a with
      | Some b => b :: collect f t
      | None => collect f t
      end
  end.

Definition text_attempts (tr : list entry) := collect text_attempt tr.
Definition emitted (tr : list entry) := collect yielded tr.

(** An attempt that was rejected with a quota-class error. *)
Definition quota_failure {A : Type} (a : JsError + A) : Prop :=
  exists error, a = inl error /\ isQuotaError error = true.

(** An attempt that resolved with no usable text. *)
Definition blank_reply (a : JsError + GenerateContentResponse) : Prop :=
  exists r, a = inr r /\ Js.truthy (option_map Js.trim (resp_text r)) = false.

(** The invariant of the data model: the index points into the list. *)
Definition valid_index (s : GladosService) : Prop :=
  0 <= currentTextModelIndex s <= length_of s - 1.

(** *** The public operations, for sequences of calls *)

Inductive operation : Type :=
| OpChat (message : string)
| OpChatStream (message : string)
| OpGenerateAudio (t : string).

Definition perform_operation {W : Type} (h : handler W) (op : operation)
    (s : GladosService) (w : W) : GladosService * W :=
  match op with
  | OpChat message =>
      let r := call h (chat message) s w in (service_of r, world_of r)
  | OpChatStream message =>
      let r := call h (chatStream message) s w in (service_of r, world_of r)
  | OpGenerateAudio t =>
      let r := call h (generateAudio t) s w in (service_of r, world_of r)
  end.

Fixpoint session {W : Type} (h : handler W) (ops : list operation)
    (s : GladosService) (w : W) : GladosService * W :=
  match ops with
  | [] => (s, w)
  | op :: rest =>
      let (s1, w1) := perform_operation h op s w in
      session h rest s1 w1
  end.

(** *** A scripted environment, for concrete runs

    The clock shows [clock]; every generation request takes the next
    scripted reply; a timer advances the clock by its delay. *)

Record Script : Type := mkScript {
  clock : Z;
  replies : list (JsError + GenerateContentResponse);
  streams : list (JsError + ResponseStream)
}.

Definition service_down : JsError :=
  {| status := None; code := Some 503; message := Some "unavailable" |}.

Definition scripted : handler Script :=
  fun X e =>
    match e in eff X return Script -> X * Script with
    | DateNow => fun w => (clock w, w)
    | GenerateContent _ _ _ => fun w =>
        match replies w with
        | r :: rest => (r, mkScript (clock w) rest (streams w))
        | [] => (inl service_down, w)
        end
    | GenerateContentStream _ _ _ => fun w =>
        match streams w with
        | r :: rest => (r, mkScript (clock w) (replies w) rest)
        | [] => (inl service_down, w)
        end
    | SetTimeout delay => fun w =>
        (tt, mkScript (clock w + delay) (replies w) (streams w))
    | Console _ _ => fun w => (tt, w)
    | Yield _ => fun w => (tt, w)
    end.

Definition quota_error : JsError :=
  {| status := Some "RESOURCE_EXHAUSTED";
     code := Some 429;
     message := Some "You exceeded your current quota" |}.

Definition text_reply (t : string) : JsError + GenerateContentResponse :=
  inr {| resp_text := Some t; candidates := None |}.

Definition audio_reply (d : string) : JsError + GenerateContentResponse :=
  inr {| resp_text := None;
         candidates :=
           Some [ {| content :=
                       Some {| parts :=
                                 Some [ {| inlineData :=
                                             Some {| data := Some d |} |} ] |} |} ] |}.

(** ** The decode step of [playAudio] *)

Module Playback.

(** *** [window.atob] and its inverse

    [atob] is the browser's forgiving base64 decoder: ASCII white space is
    dropped, one or two trailing [=] are dropped when the length is a
    multiple of four, a remaining length of 1 modulo 4 or a character
    outside the alphabet is an [InvalidCharacterError], and left-over bits
    are discarded. The binary string it returns is kept as the list of its
    code units. *)

Definition b64_value (c : ascii) : option Z :=
  let n := Z.of_N (N_of_ascii c) in
  if (65 <=? n) && (n <=? 90) then Some (n - 65)
  else if (97 <=? n) && (n <=? 122) then Some (n - 71)
  else if (48 <=? n) && (n <=? 57) then Some (n + 4)
  else if n =? 43 then Some 62
  else if n =? 47 then Some 63
  else None.

Definition b64_char (v : Z) : ascii :=
  ascii_of_N (Z.to_N (if v <? 26 then v + 65
                      else if v <? 52 then v + 71
                      else if v <? 62 then v - 4
                      else if v =? 62 then 43
                      else 47)).

Definition is_ascii_whitespace (c : ascii) : bool :=
  let n := N_of_ascii c in
  existsb (N.eqb n) [9; 10; 12; 13; 32]%N.

Definition pad : ascii := "="%char.

Fixpoint strip_padding (l : list ascii) : list ascii :=
  match l with
  | [] => []
  | c :: t =>
      match t with
      | [] => if Ascii.eqb c pad then [] else [c]
      | [d] => if Ascii.eqb c pad && Ascii.eqb d pad then [] else c :: strip_padding t
      | _ => c :: strip_padding t
      end
  end.

Fixpoint values_of (l : list ascii) : option (list Z) :=
  match l with
  | [] => Some []
  | c :: t =>
      match b64_value c, values_of t with
      | Some v, Some vs => Some (v :: vs)
      | _, _ => None
      end
  end.

Fixpoint bytes_of_values (vs : list Z) : list Z :=
  match vs with
  | a :: b :: c :: d :: rest =>
      (a * 4 + b / 16)
        :: ((b mod 16) * 16 + c / 4)
        :: ((c mod 4) * 64 + d)
        :: bytes_of_values rest
  | [a; b; c] => [a * 4 + b / 16; (b mod 16) * 16 + c / 4]
  | [a; b] => [a * 4 + b / 16]
  | _ => []
  end.

Definition atob (base64 : string) : option (list Z) :=
  let l := filter (fun c => negb (is_ascii_whitespace c))
             (list_ascii_of_string base64) in
  let l := if (Z.of_nat (List.length l) mod 4 =? 0) then strip_padding l else l in
  if Z.of_nat (List.length l) mod 4 =? 1 then None
  else option_map bytes_of_values (values_of l).

(** Standard base64 with padding, of a list of bytes. *)
Fixpoint btoa_chars (bs : list Z) : list ascii :=
  match bs with
  | b1 :: b2 :: b3 :: rest =>
      b64_char (b1 / 4)
        :: b64_char ((b1 mod 4) * 16 + b2 / 16)
        :: b64_char ((b2 mod 16) * 4 + b3 / 64)
        :: b64_char (b3 mod 64)
        :: btoa_chars rest
  | [b1; b2] =>
      [b64_char (b1 / 4); b64_char ((b1 mod 4) * 16 + b2 / 16);
       b64_char ((b2 mod 16) * 4); pad]
  | [b1] => [b64_char (b1 / 4); b64_char ((b1 mod 4) * 16); pad; pad]
  | [] => []
  end.

Definition btoa (bs : list Z) : string := string_of_list_ascii (btoa_chars bs).

(** *** From the binary string to the samples *)

(** [bytes[i] = binaryString.charCodeAt(i)] into a [Uint8Array]. *)
Definition Uint8Array_of (binaryString : list Z) : list Z :=
  map (fun c => c mod 256) binaryString.

(** [bytes.buffer.slice(0, bytes.length - (bytes.length % 2))] *)
Definition slice_even (bytes : list Z) : list Z :=
  let len := Z.of_nat (List.length bytes) in
  firstn (Z.to_nat (len - len mod 2)) bytes.

Definition to_int16 (u : Z) : Z := if u <? 32768 then u else u - 65536.

Fixpoint int16_view (buffer : list Z) : list Z :=
  match buffer with
  | lo :: hi :: rest => to_int16 (lo + 256 * hi) :: int16_view rest
  | _ => []
  end.

(** [new Int16Array(buffer)], little-endian as on the platforms the page
    runs on; a buffer of odd byte length is a [RangeError]. *)
Definition Int16Array_of (buffer : list Z) : option (list Z) :=
  if Z.of_nat (List.length buffer) mod 2 =? 0 then Some (int16_view buffer)
  else None.

(** The binary32 numbers: [m * 2^e] with a significand of 24 bits. *)
Definition binary32 (q : Q) : Prop :=
  exists m e : Z,
    Z.abs m < 2 ^ 24 /\ -149 <= e <= 104
    /\ (q == inject_Z m * Qpower (2 # 1) e)%Q.

(** [pcmData[i] / 32768.0], stored into a [Float32Array]. The model keeps
    the exact quotient: for a 16-bit sample it is a binary32 number
    ([normalize_binary32] below), so the correctly rounded division and the
    store return it unchanged. *)
Definition normalize (sample : Z) : Q := Qmake sample 32768.

(** The decode step: [None] stands for an exception, which [playAudio]
    catches. *)
Definition decode (base64 : string) : option (list Q) :=
  match atob base64 with
  | None => None
  | Some binaryString =>
      let bytes := Uint8Array_of binaryString in
      let buffer := slice_even bytes in
      match Int16Array_of buffer with
      | None => None
      | Some pcmData => Some (map normalize pcmData)
      end
  end.

(** *** The encoder of the payload: little-endian PCM16 in base64 *)

Definition is_int16 (sample : Z) : Prop := -32768 <= sample < 32768.

Fixpoint pcm_bytes (samples : list Z) : list Z :=
  match samples with
  | [] => []
  | s :: rest => (s mod 256) :: ((s / 256) mod 256) :: pcm_bytes rest
  end.

Definition encode (samples : list Z) : string := btoa (pcm_bytes samples).

End Playback.


(** ** Vocabulary of the statements *)

(** [wp p Q]: whatever the environment answers, [p] ends with a result
    and a trace that satisfy [Q]. *)
Fixpoint wp {R : Type} (p : prog R) (Q : R -> list entry -> Prop) : Prop :=
  match p with
  | Ret r => Q r []
  | Vis e k => forall x, wp (k x) (fun r tr => Q r (Entry e x :: tr))
  end.

(** The same for methods. *)
Definition mwp {R : Type} (m : M R) (s : GladosService)
    (Q : outcome R -> GladosService -> list entry -> Prop) : Prop :=
  wp (m s) (fun r tr => Q (fst r) (snd r) tr).

Arguments tts_prompt : simpl never.
Arguments REFUSAL : simpl never.
Arguments GENERIC_ERROR_TEXT : simpl never.
Arguments QUOTA_ERROR_TEXT : simpl never.
Arguments TTS_MODEL : simpl never.

Definition text_request (s : GladosService) (i : Z) (message : string) :=
  GenerateContent (model_at s i) message PersonaConfig.

Definition speech_request (t : string) :=
  GenerateContent (Some TTS_MODEL) (tts_prompt t) SpeechConfig.

Definition retry_warning : entry :=
  Entry (Console Warn "Quota exceeded. Retrying") tt.

Definition tts_failed : entry :=
  Entry (Console Error "TTS Generation failed:") tt.

(** The trace of [generateAudio] and its result, from the answers to the
    first attempt and (when there is one) to the retry. *)
Definition audio_trace (t : string) (a1 : JsError + GenerateContentResponse)
    (a2 : JsError + GenerateContentResponse) : list entry :=
  match a1 with
  | inr _ => [Entry (speech_request t) a1]
  | inl e1 =>
      if isQuotaError e1 then
        [Entry (speech_request t) a1; retry_warning;
         Entry (SetTimeout 500) tt; Entry (speech_request t) a2]
        ++ match a2 with
           | inr _ => []
           | inl _ => [tts_failed]
           end
      else [Entry (speech_request t) a1; tts_failed]
  end.

Definition audio_result (a1 a2 : JsError + GenerateContentResponse)
  : option string :=
  match a1 with
  | inr response => first_inline_data response
  | inl e1 =>
      if isQuotaError e1 then
        match a2 with
        | inr response => first_inline_data response
        | inl _ => None
        end
      else None
  end.

(** What the cool-down check leaves behind: the object and the trace. *)
Definition promoted (s s1 : GladosService) (t0 : list entry) : Prop :=
  (currentTextModelIndex s <= 0 /\ s1 = s /\ t0 = [])
  \/ (exists now,
        0 < currentTextModelIndex s
        /\ t0 = [Entry DateNow now]
        /\ s1 = if now - lastModelCheck s >? CHECK_INTERVAL s
                then set_currentTextModelIndex 0 s
                else s).

Definition chat_failed : entry := Entry (Console Error "GLaDOS Error:") tt.

Definition error_text (error : JsError) : string :=
  if isQuotaError error then QUOTA_ERROR_TEXT else GENERIC_ERROR_TEXT.

(** The configuration of the object is never written. *)
Definition frame (s s' : GladosService) : Prop :=
  textModels s' = textModels s /\ CHECK_INTERVAL s' = CHECK_INTERVAL s.

(** The answer to the last text-generation attempt of a trace. *)
Definition last_attempt (tr : list entry)
  : option (JsError + GenerateContentResponse) :=
  last (map (fun a => Some (snd a)) (text_attempts tr)) None.

(** How the fallback loop ends, from the answer to its last attempt. *)
Definition fallback_outcome (a : option (JsError + GenerateContentResponse))
  : outcome string :=
  match a with
  | None => Returned REFUSAL
  | Some (inl error) => Thrown error
  | Some (inr response) =>
      match option_map Js.trim (resp_text response) with
      | Some t => if Js.truthy (Some t) then Returned t else Returned REFUSAL
      | None => Returned REFUSAL
      end
  end.

(** *** Streaming *)

Definition stream_request (s : GladosService) (message : string) :=
  GenerateContentStream (model_at s (currentTextModelIndex s)) message
    PersonaConfig.

(** The answer to the streaming request of a trace. *)
Definition stream_reply (en : entry) : option (JsError + ResponseStream) :=
  match en with
  | Entry e x =>
      match e in eff X return X -> _ with
      | GenerateContentStream _ _ _ => fun a => Some a
      | _ => fun _ => None
      end x
  end.

Definition stream_replies (tr : list entry) := collect stream_reply tr.

(** The chunks that carry text. *)
Fixpoint chunk_texts (cs : list Chunk) : list string :=
  match cs with
  | [] => []
  | c :: rest =>
      match chunk_text c with
      | Some t => if (t =? EmptyString)%string then chunk_texts rest
                  else t :: chunk_texts rest
      | None => chunk_texts rest
      end
  end.

(** The running totals of a list of texts, on top of [acc]. *)
Fixpoint running_totals (acc : string) (ts : list string) : list string :=
  match ts with
  | [] => []
  | t :: rest => (acc ++ t)%string :: running_totals (acc ++ t)%string rest
  end.

(** The running total after every chunk, as the specification words it. *)
Fixpoint totals_after_every_chunk (acc : string) (cs : list Chunk)
  : list string :=
  match cs with
  | [] => []
  | c :: rest =>
      let acc' := (acc ++ match chunk_text c with
                          | Some t => t
                          | None => EmptyString
                          end)%string in
      acc' :: totals_after_every_chunk acc' rest
  end.

Definition partial_event (t : string) : StreamEvent :=
  {| ev_text := Some t; ev_audioBase64 := None; done := None |}.

Definition terminal_event (t : string) (audio : option string) : StreamEvent :=
  {| ev_text := Some t; ev_audioBase64 := audio; done := Some true |}.

Definition yield_entry (ev : StreamEvent) : entry := Entry (Yield ev) tt.

Definition stream_failed : entry :=
  Entry (Console Error "GLaDOS Stream Error:") tt.

(** A text list in which every element is the one before it with
    something appended. *)
Inductive growing : list string -> Prop :=
| growing_nil : growing []
| growing_one (t : string) : growing [t]
| growing_cons (t d : string) (rest : list string) :
    d <> EmptyString -> growing ((t ++ d)%string :: rest) ->
    growing (t :: (t ++ d)%string :: rest).

(** The streaming request was rejected, or the stream broke off. *)
Definition stream_fails (a : JsError + ResponseStream) : Prop :=
  match a with
  | inl _ => True
  | inr st => failure st <> None
  end.

(** The text [chatStream] has accumulated when the stream completes. *)
Definition full_text (cs : list Chunk) : string :=
  fold_left String.append (chunk_texts cs) EmptyString.

Definition partial_entries (acc : string) (cs : list Chunk) : list entry :=
  map yield_entry (map partial_event (running_totals acc (chunk_texts cs))).

(** *** Concrete situations *)

(** Both candidates of the fresh service answer with a quota error. *)
Definition quota_exhausted : Script :=
  {| clock := 0; replies := [inl quota_error; inl quota_error]; streams := [] |}.

(** The first candidate is rejected, the second answers with blanks. *)
Definition rejected_then_blank : Script :=
  {| clock := 0; replies := [inl quota_error; text_reply "  "]; streams := [] |}.

(** A service that has degraded to its second candidate at time 1000. *)
Definition degraded_service : GladosService :=
  {| textModels := ["gemini-3-flash-preview"; "gemini-2.5-flash"];
     currentTextModelIndex := 1;
     lastModelCheck := 1000;
     CHECK_INTERVAL := 60000 |}.

(** One millisecond after the cool-down window of [degraded_service]. *)
Definition after_cooldown : Script :=
  {| clock := 61001; replies := [text_reply "Oh. It's you."]; streams := [] |}.

(** Speech synthesis is rejected once for quota, then answers. *)
Definition speech_rejected_once : Script :=
  {| clock := 0; replies := [inl quota_error; audio_reply "AQIDBA=="];
     streams := [] |}.

(** Text generation answers, speech synthesis is rejected twice. *)
Definition speech_rejected_twice : Script :=
  {| clock := 0;
     replies := [text_reply "Oh. It's you."; inl quota_error; inl quota_error];
     streams := [] |}.

(** A stream whose second chunk carries no text. *)
Definition silent_chunk : list Chunk :=
  [mkChunk (Some "Hello"); mkChunk None; mkChunk (Some "world")].

Definition silent_chunk_stream : Script :=
  {| clock := 0; replies := [];
     streams := [inr {| chunks := silent_chunk; failure := None |}] |}.

(** The stream of the specification's example. *)
Definition hello_world_stream : Script :=
  {| clock := 0; replies := [audio_reply "AQIDBA=="];
     streams := [inr {| chunks := [mkChunk (Some "Hello"); mkChunk (Some ", ");
                                    mkChunk (Some "world")];
                        failure := None |}] |}.

(** A stream that breaks off after its first chunk; the fallback [chat]
    then gets a text reply and an audio reply. *)
Definition broken_stream : Script :=
  {| clock := 0;
     replies := [text_reply "Oh. It's you."; audio_reply "AQIDBA=="];
     streams := [inr {| chunks := [mkChunk (Some "Hel")];
                        failure := Some service_down |}] |}.

(** *** Vocabulary of the playback statements *)

Definition is_byte (b : Z) : Prop := 0 <= b < 256.

(** What is checked of each of the 64 characters of the alphabet. *)
Definition b64_check (n : nat) : bool :=
  let v := Z.of_nat n in
  let c := Playback.b64_char v in
  match Playback.b64_value c with
  | Some v' => v' =? v
  | None => false
  end
  && negb (Playback.is_ascii_whitespace c)
  && negb (Ascii.eqb c Playback.pad).

(** ** Further vocabulary: the fallback loop and the retry schedule *)

(** The delays handed to [setTimeout]. *)
Definition timeout_of (en : entry) : option Z :=
  match en with
  | Entry e _ =>
      match e with
      | SetTimeout delay => Some delay
      | _ => None
      end
  end.

Definition timeouts (tr : list entry) := collect timeout_of tr.

(** The calls made to the generation service. *)
Definition service_call (en : entry) : option unit :=
  match en with
  | Entry e _ =>
      match e with
      | GenerateContent _ _ _ => Some tt
      | GenerateContentStream _ _ _ => Some tt
      | _ => None
      end
  end.

Definition service_calls (tr : list entry) : nat :=
  List.length (collect service_call tr).

(** The clock readings. *)
Definition clock_reading (en : entry) : option Z :=
  match en with
  | Entry e x =>
      match e in eff X return X -> option Z with
      | DateNow => fun now => Some now
      | _ => fun _ => None
      end x
  end.

Definition clock_readings (tr : list entry) := collect clock_reading tr.

(** The first [k] delays of a schedule that starts at [delay] and doubles. *)
Definition backoff (delay : Z) (k : nat) : list Z :=
  map (fun j => delay * 2 ^ Z.of_nat j) (seq 0 k).

(** An attempt that was rejected, whatever the error. *)
Definition rejected {A : Type} (a : JsError + A) : Prop :=
  exists error, a = inl error.

(** The text-generation attempts of a call, as models and as answers. *)
Definition models_asked (tr : list entry) : list (option string) :=
  map fst (text_attempts tr).

Definition answers (tr : list entry)
  : list (JsError + GenerateContentResponse) :=
  map snd (text_attempts tr).

(** A rejection of every class. *)
Definition server_error : JsError :=
  {| status := Some "INTERNAL"; code := Some 500;
     message := Some "internal error" |}.

(** The first candidate is rejected for quota, the second for another
    reason. *)
Definition rejected_twice : Script :=
  {| clock := 0; replies := [inl quota_error; inl server_error];
     streams := [] |}.

(** The first candidate is rejected, the second answers at time 5000. *)
Definition second_answers : Script :=
  {| clock := 5000;
     replies := [inl quota_error; text_reply " Still alive. "];
     streams := [] |}.

(** Within the cool-down window of [degraded_service]. *)
Definition within_cooldown : Script :=
  {| clock := 61000; replies := [text_reply "Oh. It's you."]; streams := [] |}.

(** The stream completes; speech synthesis then answers. *)
Definition complete_stream : Script :=
  {| clock := 0; replies := [audio_reply "AQIDBA=="];
     streams := [inr {| chunks := [mkChunk (Some "Still "); mkChunk (Some "alive.")];
                        failure := None |}] |}.

(** The prompts of the speech-synthesis requests. *)
Definition speech_prompt (en : entry) : option string :=
  match en with
  | Entry e _ =>
      match e with
      | GenerateContent _ contents SpeechConfig => Some contents
      | _ => None
      end
  end.

Definition speech_prompts (tr : list entry) := collect speech_prompt tr.

(** A chunk that adds nothing to the text. *)
Definition silent (c : Chunk) : bool := negb (Js.truthy (chunk_text c)).

(** The stream completes without having carried any text. *)
Definition wordless_stream : Script :=
  {| clock := 0; replies := [audio_reply "AQIDBA=="];
     streams := [inr {| chunks := [mkChunk None; mkChunk (Some EmptyString)];
                        failure := None |}] |}.

(** * The earlier revision of the service and the page's audio player

    The code below talks to other environments than [GladosService] does
    (one fixed model without fallback; the Web Audio objects), so programs
    are taken over an arbitrary request signature. *)

Inductive tree (E : Type -> Type) (R : Type) : Type :=
| Leaf (r : R)
| Ask (X : Type) (e : E X) (k : X -> tree E R).

Arguments Leaf {E R} r.
Arguments Ask {E R X} e k.

Fixpoint tree_bind {E : Type -> Type} {A B : Type} (p : tree E A)
    (k : A -> tree E B) : tree E B :=
  match p with
  | Leaf a => k a
  | Ask e f => Ask e (fun x => tree_bind (f x) k)
  end.

(** A request together with its answer. *)
Inductive asked (E : Type -> Type) : Type :=
| Asked (X : Type) (e : E X) (x : X).

Arguments Asked {E X} e x.

Definition answerer (E : Type -> Type) (W : Type) : Type :=
  forall X : Type, E X -> W -> X * W.

Fixpoint tree_run {E : Type -> Type} {W R : Type} (h : answerer E W)
    (p : tree E R) (w : W) : R * W * list (asked E) :=
  match p with
  | Leaf r => (r, w, [])
  | Ask e k =>
      let (x, w1) := h _ e w in
      let '(r, w2, tr) := tree_run h (k x) w1 in
      (r, w2, Asked e x :: tr)
  end.

(** Whatever the environment answers, the result and the trace satisfy
    [Q]. *)
Fixpoint tree_wp {E : Type -> Type} {R : Type} (p : tree E R)
    (Q : R -> list (asked E) -> Prop) : Prop :=
  match p with
  | Leaf r => Q r []
  | Ask e k => forall x, tree_wp (k x) (fun r tr => Q r (Asked e x :: tr))
  end.

(** Code with mutable state [S] that may throw. *)
Definition SM (E : Type -> Type) (S R : Type) : Type :=
  S -> tree E (outcome R * S).

Definition sret {E : Type -> Type} {S R : Type} (r : R) : SM E S R :=
  fun s => Leaf (Returned r, s).

Definition sthrow {E : Type -> Type} {S R : Type} (error : JsError)
  : SM E S R :=
  fun s => Leaf (Thrown error, s).

Definition sbind {E : Type -> Type} {S A B : Type} (m : SM E S A)
    (k : A -> SM E S B) : SM E S B :=
  fun s =>
    tree_bind (m s) (fun r =>
      match r with
      | (Returned a, s') => k a s'
      | (Thrown error, s') => Leaf (Thrown error, s')
      end).

Definition scatch {E : Type -> Type} {S A : Type} (body : SM E S A)
    (handle : JsError -> SM E S A) : SM E S A :=
  fun s =>
    tree_bind (body s) (fun r =>
      match r with
      | (Returned a, s') => Leaf (Returned a, s')
      | (Thrown error, s') => handle error s'
      end).

Definition sask {E : Type -> Type} {S X : Type} (e : E X) : SM E S X :=
  fun s => Ask e (fun x => Leaf (Returned x, s)).

(** A call that may be rejected: the rejection is thrown. *)
Definition stry {E : Type -> Type} {S X : Type} (e : E (JsError + X)%type)
  : SM E S X :=
  sbind (sask e) (fun r =>
    match r with
    | inl error => sthrow error
    | inr x => sret x
    end).

Definition sgets {E : Type -> Type} {S A : Type} (f : S -> A) : SM E S A :=
  fun s => Leaf (Returned (f s), s).

Definition smodify {E : Type -> Type} {S : Type} (f : S -> S) : SM E S unit :=
  fun s => Leaf (Returned tt, f s).

(** A call in world [w] on state [s]. *)
Definition scall {E : Type -> Type} {W S R : Type} (h : answerer E W)
    (m : SM E S R) (s : S) (w : W) : outcome R * S * W * list (asked E) :=
  tree_run h (m s) w.

Definition s_outcome {E : Type -> Type} {W S R : Type}
    (r : outcome R * S * W * list (asked E)) : outcome R := fst (fst (fst r)).

Definition s_state {E : Type -> Type} {W S R : Type}
    (r : outcome R * S * W * list (asked E)) : S := snd (fst (fst r)).

Definition s_trace {E : Type -> Type} {W S R : Type}
    (r : outcome R * S * W * list (asked E)) : list (asked E) := snd r.

Definition swp {E : Type -> Type} {S R : Type} (m : SM E S R) (s : S)
    (Q : outcome R -> S -> list (asked E) -> Prop) : Prop :=
  tree_wp (m s) (fun r tr => Q (fst r) (snd r) tr).

Declare Scope sm_scope.
Delimit Scope sm_scope with sm.
Notation "x <- m ;; k" := (sbind m (fun x => k))
  (at level 61, m at next level, right associativity) : sm_scope.
Notation "m ;; k" := (sbind m (fun _ => k))
  (at level 61, right associativity) : sm_scope.

(** ** The first revision of [GladosService]

    One text model, no fallback, no retry; the object has no fields besides
    the client. *)

Module Baseline.

Inductive request : Type -> Type :=
| GenerateText (model contents : string)   (* persona, temperature 0.8 *)
    : request (JsError + GenerateContentResponse)
| GenerateSpeech (model contents : string) (* AUDIO, voice 'Kore' *)
    : request (JsError + GenerateContentResponse)
| ConsoleWarn (label : string) : request unit
| ConsoleError (label : string) : request unit.

Definition TEXT_MODEL : string := "gemini-3-flash-preview".

Definition tts_prompt (t : string) : string :=
  "Say in a monotone, clinical voice: " ++ t.

(** [textResponse.text?.trim() || "I'm afraid I can't do that. ..."] *)
Definition text_or_refusal (r : GenerateContentResponse) : string :=
  match option_map Js.trim (resp_text r) with
  | Some t => if Js.truthy (Some t) then t else REFUSAL
  | None => REFUSAL
  end.

Local Open Scope sm_scope.

Definition chat (message : string) : SM request unit ChatResult :=
  scatch
    (textResponse <- stry (GenerateText TEXT_MODEL message) ;;
     let gladosText := text_or_refusal textResponse in
     audio <- scatch
                (audioResponse <-
                   stry (GenerateSpeech TTS_MODEL (tts_prompt gladosText)) ;;
                 sret (first_inline_data audioResponse))
                (fun audioError =>
                   sask (ConsoleWarn "TTS Generation failed, falling back to text-only:") ;;
                   sret None) ;;
     sret {| text := gladosText; audioBase64 := audio |})
    (fun error =>
       sask (ConsoleError "GLaDOS Error:") ;;
       sret {| text := GENERIC_ERROR_TEXT; audioBase64 := None |}).

Local Close Scope sm_scope.

End Baseline.

Arguments Baseline.tts_prompt : simpl never.
Arguments Baseline.TEXT_MODEL : simpl never.

(** ** [playAudio] of the page

    The Web Audio objects are the environment; contexts, buffers and nodes
    are named by the numbers the environment hands out. Every call on them
    may be rejected. [setStatus] is a request too: what the page shows is
    the last status set. *)

Module App.

Inductive Status : Type := IDLE | PROCESSING | SPEAKING.

Inductive ContextState : Type := Suspended | Running | Closed.

(** Where a node is connected to. *)
Inductive target : Type :=
| Node (id : nat)
| Destination (context : nat).      (* context.destination *)

Inductive Role : Type := User | Glados.     (* 'user' | 'glados' *)

(** A line of the conversation. [id] is the number whose decimal form the
    page uses as key. *)
Record Message : Type := mkMessage {
  id : Z;
  role : Role;
  content : string;
  timestamp : Z
}.

Inductive request : Type -> Type :=
| NewAudioContext : request (JsError + nat)
| GetState (context : nat) : request ContextState
| Resume (context : nat) : request (JsError + unit)
| Stop (source : nat) : request (JsError + unit)
| CreateBuffer (context : nat) (channels length sampleRate : Z)
    : request (JsError + nat)
| SetChannelData (buffer : nat) (channel : Z) (data : list Q)
    : request (JsError + unit)
| CreateBufferSource (context : nat) : request (JsError + nat)
| SetBuffer (source buffer : nat) : request (JsError + unit)
| CreateBiquadFilter (context : nat) : request (JsError + nat)
| SetFilterType (filter : nat) (type : string) : request (JsError + unit)
| SetParam (node : nat) (param : string) (value : Q)
    : request (JsError + unit)
| CreateDynamicsCompressor (context : nat) : request (JsError + nat)
| Connect (from : nat) (to : target) : request (JsError + unit)
| SetOnEnded (source : nat) : request (JsError + unit)
| Start (source : nat) : request (JsError + unit)
| SetStatus (st : Status) : request unit
| ConsoleError (label : string) : request unit
| PreventDefault : request unit                   (* e.preventDefault() *)
| Now : request Z                                 (* Date.now() *)
| AddMessage (m : Message) : request unit         (* setMessages(prev => [...prev, m]) *)
| SetInput (v : string) : request unit
| SetIsLoading (b : bool) : request unit
| Chat (message : string) : request ChatResult.   (* await glados.chat(message) *)

(** The two refs of the component. *)
Record Refs : Type := mkRefs {
  audioContextRef : option nat;
  sourceNodeRef : option nat
}.

Definition set_audioContextRef (v : option nat) (r : Refs) : Refs :=
  mkRefs v (sourceNodeRef r).

Definition set_sourceNodeRef (v : option nat) (r : Refs) : Refs :=
  mkRefs (audioContextRef r) v.

(** What [atob] throws. *)
Definition InvalidCharacterError : JsError :=
  {| status := None; code := Some 5;
     message := Some "The string to be decoded is not correctly encoded." |}.

Local Open Scope sm_scope.

(** One resonant filter of the bank: [type], [frequency], [Q], [gain]. *)
Definition peaking_filter (context : nat) (frequency : Q)
  : SM request Refs nat :=
  filter <- stry (CreateBiquadFilter context) ;;
  stry (SetFilterType filter "peaking") ;;
  stry (SetParam filter "frequency" frequency) ;;
  stry (SetParam filter "Q" (10 # 1)) ;;
  stry (SetParam filter "gain" (15 # 1)) ;;
  sret filter.

(** "Initialize AudioContext on first interaction", and the resume of a
    suspended context. *)
Definition acquire_context : SM request Refs nat :=
  current <- sgets audioContextRef ;;
  context <- match current with
             | Some c => sret c
             | None =>
                 c <- stry NewAudioContext ;;
                 smodify (set_audioContextRef (Some c)) ;;
                 sret c
             end ;;
  state <- sask (GetState context) ;;
  match state with
  | Suspended => stry (Resume context)
  | _ => sret tt
  end ;;
  sret context.

(** "Stop previous playback" *)
Definition stop_previous : SM request Refs unit :=
  previous <- sgets sourceNodeRef ;;
  match previous with
  | Some p => stry (Stop p)
  | None => sret tt
  end.

(** "Decode base64 to ArrayBuffer", up to [float32Data]. *)
Definition decode_payload (base64 : string) : SM request Refs (list Q) :=
  match Playback.decode base64 with
  | Some float32Data => sret float32Data
  | None => sthrow InvalidCharacterError
  end.

(** The audio buffer and the source that plays it. *)
Definition make_source (context : nat) (float32Data : list Q)
  : SM request Refs nat :=
  audioBuffer <-
    stry (CreateBuffer context 1 (Z.of_nat (List.length float32Data))
            24000) ;;
  stry (SetChannelData audioBuffer 0 float32Data) ;;
  source <- stry (CreateBufferSource context) ;;
  stry (SetBuffer source audioBuffer) ;;
  sret source.

(** The resonant filter bank, the compressor, and their connections. *)
Definition filter_bank (context source : nat) : SM request Refs unit :=
  filter1 <- peaking_filter context (800 # 1) ;;
  filter2 <- peaking_filter context (1600 # 1) ;;
  filter3 <- peaking_filter context (2400 # 1) ;;
  compressor <- stry (CreateDynamicsCompressor context) ;;
  stry (SetParam compressor "threshold" (-10 # 1)) ;;
  stry (SetParam compressor "knee" (40 # 1)) ;;
  stry (SetParam compressor "ratio" (12 # 1)) ;;
  stry (SetParam compressor "attack" (0 # 1)) ;;
  stry (SetParam compressor "release" (1 # 4)) ;;
  stry (Connect source (Node filter1)) ;;
  stry (Connect filter1 (Node filter2)) ;;
  stry (Connect filter2 (Node filter3)) ;;
  stry (Connect filter3 (Node compressor)) ;;
  stry (Connect compressor (Destination context)).

(** The ref, the status, the [onended] handler and the start. *)
Definition start_source (source : nat) : SM request Refs unit :=
  smodify (set_sourceNodeRef (Some source)) ;;
  sask (SetStatus SPEAKING) ;;
  stry (SetOnEnded source) ;;
  stry (Start source).

Definition playAudio (isMuted : bool) (base64 : string)
  : SM request Refs unit :=
  if isMuted then sret tt
  else
    scatch
      (context <- acquire_context ;;
       stop_previous ;;
       float32Data <- decode_payload base64 ;;
       source <- make_source context float32Data ;;
       filter_bank context source ;;
       start_source source)
      (fun err =>
         sask (ConsoleError "Audio playback failed:") ;;
         sask (SetStatus IDLE)).

(** The [onended] handler [playAudio] installs on [source]. *)
Definition onended (source : nat) : SM request Refs unit :=
  current <- sgets sourceNodeRef ;;
  match current with
  | Some c => if Nat.eqb c source then sask (SetStatus IDLE) else sret tt
  | None => sret tt
  end.

(** [handleSubmit], in a render where the state variables have the values
    [input], [isLoading] and [isMuted]. [glados.chat] resolves in every
    environment, so its promise is a request that is always answered.
    [playAudio] is called last and not awaited: what it does after the
    handler returned follows in the same order. *)
Definition handleSubmit (input : string) (isLoading isMuted : bool)
  : SM request Refs unit :=
  sask PreventDefault ;;
  if negb (Js.truthy (Some (Js.trim input))) || isLoading then sret tt
  else
    userId <- sask Now ;;
    userTimestamp <- sask Now ;;
    let userMessage :=
      {| id := userId; role := User; content := input;
         timestamp := userTimestamp |} in
    sask (AddMessage userMessage) ;;
    sask (SetInput EmptyString) ;;
    sask (SetIsLoading true) ;;
    sask (SetStatus PROCESSING) ;;
    result <- sask (Chat input) ;;
    gladosId <- sask Now ;;
    gladosTimestamp <- sask Now ;;
    let gladosMessage :=
      {| id := gladosId + 1; role := Glados; content := text result;
         timestamp := gladosTimestamp |} in
    sask (AddMessage gladosMessage) ;;
    sask (SetIsLoading false) ;;
    match audioBase64 result with
    | Some audio =>
        if Js.truthy (Some audio) then playAudio isMuted audio
        else sask (SetStatus IDLE)
    | None => sask (SetStatus IDLE)
    end.

Local Close Scope sm_scope.

(** *** Reading a trace *)

(** The lines added to the conversation. *)
Definition message_added (a : asked request) : option Message :=
  match a with
  | Asked e _ =>
      match e with
      | AddMessage m => Some m
      | _ => None
      end
  end.

Definition loading_set (a : asked request) : option bool :=
  match a with
  | Asked e _ =>
      match e with
      | SetIsLoading b => Some b
      | _ => None
      end
  end.

(** The questions put to the service, with its replies. *)
Definition chat_asked (a : asked request) : option (string * ChatResult) :=
  match a with
  | Asked e x =>
      match e in request X return X -> option (string * ChatResult) with
      | Chat message => fun result => Some (message, result)
      | _ => fun _ => None
      end x
  end.

Definition status_set (a : asked request) : option Status :=
  match a with
  | Asked e _ =>
      match e with
      | SetStatus st => Some st
      | _ => None
      end
  end.

(** What is asked of the sources: to stop, to start. *)
Inductive playback_event : Type :=
| Stopped (source : nat)
| Started (source : nat).

Definition playback_of (a : asked request) : option playback_event :=
  match a with
  | Asked e _ =>
      match e with
      | Stop source => Some (Stopped source)
      | Start source => Some (Started source)
      | _ => None
      end
  end.

(** The buffers asked for: channels, length, sample rate. *)
Definition buffer_asked (a : asked request) : option (Z * Z * Z) :=
  match a with
  | Asked e _ =>
      match e with
      | CreateBuffer _ channels length sampleRate =>
          Some (channels, length, sampleRate)
      | _ => None
      end
  end.

(** The sample data copied into a channel. *)
Definition data_copied (a : asked request) : option (list Q) :=
  match a with
  | Asked e _ =>
      match e with
      | SetChannelData _ _ data => Some data
      | _ => None
      end
  end.

Definition is_rejection {A B : Type} (x : A + B) : bool :=
  match x with
  | inl _ => true
  | inr _ => false
  end.

(** A request of the trace was rejected. *)
Definition rejection (a : asked request) : bool :=
  match a with
  | Asked e x =>
      match e in request X return X -> bool with
      | NewAudioContext => is_rejection
      | Resume _ => is_rejection
      | Stop _ => is_rejection
      | CreateBuffer _ _ _ _ => is_rejection
      | SetChannelData _ _ _ => is_rejection
      | CreateBufferSource _ => is_rejection
      | SetBuffer _ _ => is_rejection
      | CreateBiquadFilter _ => is_rejection
      | SetFilterType _ _ => is_rejection
      | SetParam _ _ _ => is_rejection
      | CreateDynamicsCompressor _ => is_rejection
      | Connect _ _ => is_rejection
      | SetOnEnded _ => is_rejection
      | Start _ => is_rejection
      | GetState _ => fun _ => false
      | SetStatus _ => fun _ => false
      | ConsoleError _ => fun _ => false
      | PreventDefault => fun _ => false
      | Now => fun _ => false
      | AddMessage _ => fun _ => false
      | SetInput _ => fun _ => false
      | SetIsLoading _ => fun _ => false
      | Chat _ => fun _ => false
      end x
  end.

Definition status_sets (tr : list (asked request)) := collect status_set tr.
Definition playback (tr : list (asked request)) := collect playback_of tr.
Definition buffers_asked (tr : list (asked request)) := collect buffer_asked tr.
Definition data_sets (tr : list (asked request)) := collect data_copied tr.
Definition any_rejection (tr : list (asked request)) := existsb rejection tr.
Definition messages_added (tr : list (asked request)) :=
  collect message_added tr.
Definition loading_sets (tr : list (asked request)) := collect loading_set tr.
Definition chats_asked (tr : list (asked request)) := collect chat_asked tr.

(** A stretch of trace in which nothing of the above shows. *)
Definition quiet (tr : list (asked request)) : Prop :=
  status_sets tr = [] /\ playback tr = [] /\ buffers_asked tr = []
  /\ data_sets tr = [].

(** *** A scripted audio environment

    Objects are numbered from [next]; a call is rejected when the number of
    calls answered so far is [fail_at]. *)

Record Audio : Type := mkAudio {
  next : nat;
  calls : nat;
  fail_at : option nat;
  context_state : ContextState
}.

Definition audio_failure : JsError :=
  {| status := None; code := None; message := Some "NotSupportedError" |}.

Definition fails_now (w : Audio) : bool :=
  match fail_at w with
  | Some n => Nat.eqb n (calls w)
  | None => false
  end.

Definition stepped (w : Audio) : Audio :=
  mkAudio (next w) (S (calls w)) (fail_at w) (context_state w).

Definition fresh (w : Audio) : Audio :=
  mkAudio (S (next w)) (S (calls w)) (fail_at w) (context_state w).

Definition act (w : Audio) : (JsError + unit) * Audio :=
  (if fails_now w then inl audio_failure else inr tt, stepped w).

Definition make (w : Audio) : (JsError + nat) * Audio :=
  if fails_now w then (inl audio_failure, stepped w)
  else (inr (next w), fresh w).

Definition audio : answerer request Audio :=
  fun X e =>
    match e in request X return Audio -> X * Audio with
    | NewAudioContext => make
    | GetState _ => fun w => (context_state w, w)
    | Resume _ => act
    | Stop _ => act
    | CreateBuffer _ _ _ _ => make
    | SetChannelData _ _ _ => act
    | CreateBufferSource _ => make
    | SetBuffer _ _ => act
    | CreateBiquadFilter _ => make
    | SetFilterType _ _ => act
    | SetParam _ _ _ => act
    | CreateDynamicsCompressor _ => make
    | Connect _ _ => act
    | SetOnEnded _ => act
    | Start _ => act
    | SetStatus _ => fun w => (tt, w)
    | ConsoleError _ => fun w => (tt, w)
    | PreventDefault => fun w => (tt, w)
    | Now => fun w => (Z.of_nat (calls w), w)
    | AddMessage _ => fun w => (tt, w)
    | SetInput _ => fun w => (tt, w)
    | SetIsLoading _ => fun w => (tt, w)
    | Chat message => fun w => ({| text := message; audioBase64 := None |}, w)
    end.

(** The same page, with a service that answers every question with
    [reply]. *)
Definition page (reply : ChatResult) : answerer request Audio :=
  fun X e =>
    match e in request X return Audio -> X * Audio with
    | Chat _ => fun w => (reply, w)
    | other => audio _ other
    end.

(** The [stop] asked of the source the ref holds. *)
Definition stop_of_previous (r : Refs) : list playback_event :=
  match sourceNodeRef r with
  | Some p => [Stopped p]
  | None => []
  end.

(** The buffer [playAudio] asks for: one channel, one frame per sample,
    24 kHz. *)
Definition buffer_of (float32Data : list Q) : Z * Z * Z :=
  (1, Z.of_nat (List.length float32Data), 24000).

(** The three ways an unmuted run of [playAudio] can go. *)

(** Nothing was rejected and the payload decoded. *)
Definition played (base64 : string) (refs refs' : Refs)
    (tr : list (asked request)) : Prop :=
  exists new float32Data,
    any_rejection tr = false
    /\ Playback.decode base64 = Some float32Data
    /\ status_sets tr = [SPEAKING]
    /\ playback tr = (stop_of_previous refs ++ [Started new])%list
    /\ sourceNodeRef refs' = Some new
    /\ buffers_asked tr = [buffer_of float32Data]
    /\ data_sets tr = [float32Data].

(** The [try] block was left before [sourceNodeRef.current = source]. *)
Definition failed_early (base64 : string) (refs refs' : Refs)
    (tr : list (asked request)) : Prop :=
  status_sets tr = [IDLE]
  /\ sourceNodeRef refs' = sourceNodeRef refs
  /\ ((any_rejection tr = true
       /\ (playback tr = [] \/ playback tr = stop_of_previous refs)
       /\ buffers_asked tr = [] /\ data_sets tr = [])
      \/ (any_rejection tr = false
          /\ Playback.decode base64 = None
          /\ playback tr = stop_of_previous refs
          /\ buffers_asked tr = [] /\ data_sets tr = [])
      \/ (exists float32Data,
            any_rejection tr = true
            /\ Playback.decode base64 = Some float32Data
            /\ playback tr = stop_of_previous refs
            /\ buffers_asked tr = [buffer_of float32Data]
            /\ (data_sets tr = [] \/ data_sets tr = [float32Data]))).

(** The [try] block was left after [setStatus('SPEAKING')]. *)
Definition failed_late (base64 : string) (refs refs' : Refs)
    (tr : list (asked request)) : Prop :=
  exists new float32Data,
    any_rejection tr = true
    /\ Playback.decode base64 = Some float32Data
    /\ status_sets tr = [SPEAKING; IDLE]
    /\ (playback tr = stop_of_previous refs
        \/ playback tr = (stop_of_previous refs ++ [Started new])%list)
    /\ sourceNodeRef refs' = Some new
    /\ buffers_asked tr = [buffer_of float32Data]
    /\ data_sets tr = [float32Data].

Definition shape (base64 : string) (refs refs' : Refs)
    (tr : list (asked request)) : Prop :=
  played base64 refs refs' tr
  \/ failed_early base64 refs refs' tr
  \/ failed_late base64 refs refs' tr.

(** The audio contexts asked for, with what came back. *)
Definition context_made (a : asked request) : option (JsError + nat) :=
  match a with
  | Asked e x =>
      match e in request X return X -> option (JsError + nat) with
      | NewAudioContext => fun made => Some made
      | _ => fun _ => None
      end x
  end.

Definition contexts_made (tr : list (asked request)) :=
  collect context_made tr.

(** [audioContextRef] is filled lazily: with a context in the ref none is
    asked for and the ref is left alone; with none, one is asked for once,
    and the ref holds it if it was made. *)
Definition lazily_made (refs refs' : Refs) (tr : list (asked request))
  : Prop :=
  match audioContextRef refs with
  | Some c => audioContextRef refs' = Some c /\ contexts_made tr = []
  | None =>
      exists made,
        contexts_made tr = [made]
        /\ audioContextRef refs'
           = match made with inl _ => None | inr c => Some c end
  end.

(** A stretch of program that neither asks for a context nor touches
    [audioContextRef]. *)
Definition keeps_context {R : Type} (m : SM request Refs R) : Prop :=
  forall refs,
    swp m refs
      (fun _ refs' tr =>
         audioContextRef refs' = audioContextRef refs
         /\ contexts_made tr = []).

(** A stretch of trace that shows nothing of the conversation. *)
Definition page_quiet (tr : list (asked request)) : Prop :=
  messages_added tr = [] /\ loading_sets tr = [] /\ chats_asked tr = [].

(** A stretch of program that leaves the conversation alone. *)
Definition audio_only {R : Type} (m : SM request Refs R) : Prop :=
  forall refs, swp m refs (fun _ _ tr => page_quiet tr).

(** What [handleSubmit] does once it has accepted the input: the question
    and the answer it adds, and the statuses it sets. *)
Definition submitted (input : string) (isMuted : bool)
    (tr : list (asked request)) : Prop :=
  exists result,
    chats_asked tr = [(input, result)]
    /\ map (fun m => (role m, content m)) (messages_added tr)
       = [(User, input); (Glados, text result)]
    /\ loading_sets tr = [true; false]
    /\ if Js.truthy (audioBase64 result) then
         if isMuted then status_sets tr = [PROCESSING]
         else status_sets tr = [PROCESSING; SPEAKING]
              \/ status_sets tr = [PROCESSING; IDLE]
              \/ status_sets tr = [PROCESSING; SPEAKING; IDLE]
       else status_sets tr = [PROCESSING; IDLE].

(** A page that is already playing source 7 on context 3. *)
Definition playing : Refs :=
  {| audioContextRef := Some 3%nat; sourceNodeRef := Some 7%nat |}.

Definition healthy : Audio :=
  {| next := 10; calls := 0; fail_at := None; context_state := Running |}.

(** A reply that comes with speech. *)
Definition spoken_reply : ChatResult :=
  {| text := "Oh. It's you."; audioBase64 := Some "AQIDBAU=" |}.

End App.
(** * Properties *)

Local Open Scope list_scope.

(** ** Reasoning about programs *)

Lemma wp_mono {R : Type} (p : prog R) (Q Q' : R -> list entry -> Prop) :
  (forall r tr, Q r tr -> Q' r tr) -> wp p Q -> wp p Q'.
Proof.
  revert Q Q'. induction p as [r | X e k IH]; simpl; intros Q Q' HQ Hp.
  - now apply HQ.
  - intros x. eapply IH; [| apply Hp]. intros r tr. apply HQ.
Qed.

Lemma wp_pbind {A B : Type} (p : prog A) (k : A -> prog B)
    (Q : B -> list entry -> Prop) :
  wp p (fun a t1 => wp (k a) (fun b t2 => Q b (t1 ++ t2))) ->
  wp (pbind p k) Q.
Proof.
  revert Q. induction p as [a | X e f IH]; simpl; intros Q Hp.
  - exact Hp.
  - intros x. apply IH. eapply wp_mono; [| apply (Hp x)].
    intros a t1 Ha. exact Ha.
Qed.

Lemma wp_sound {R : Type} (p : prog R) (Q : R -> list entry -> Prop) :
  wp p Q ->
  forall (W : Type) (h : handler W) (w : W),
    Q (fst (fst (run h p w))) (snd (run h p w)).
Proof.
  revert Q. induction p as [r | X e k IH]; simpl; intros Q Hp W h w.
  - exact Hp.
  - destruct (h X e w) as [x w1].
    specialize (IH x _ (Hp x) W h w1).
    destruct (run h (k x) w1) as [[r w2] tr]. exact IH.
Qed.

Lemma run_pbind {W A B : Type} (h : handler W) (p : prog A)
    (k : A -> prog B) (w : W) :
  run h (pbind p k) w =
  let '(a, w1, t1) := run h p w in
  let '(b, w2, t2) := run h (k a) w1 in
  (b, w2, t1 ++ t2).
Proof.
  revert w. induction p as [a | X e f IH]; simpl; intros w.
  - now destruct (run h (k a) w) as [[b w2] t2].
  - destruct (h X e w) as [x w1]. rewrite IH.
    destruct (run h (f x) w1) as [[a w2] t1].
    now destruct (run h (k a) w2) as [[b w3] t2].
Qed.

Lemma wp_any {R : Type} (p : prog R) : wp p (fun _ _ => True).
Proof. induction p as [r | X e k IH]; simpl; auto. Qed.

Lemma mwp_sound {R : Type} (m : M R) (s : GladosService)
    (Q : outcome R -> GladosService -> list entry -> Prop) :
  mwp m s Q ->
  forall (W : Type) (h : handler W) (w : W),
    Q (outcome_of (call h m s w)) (service_of (call h m s w))
      (trace_of (call h m s w)).
Proof.
  intros Hm W h w. exact (wp_sound _ _ Hm W h w).
Qed.

Lemma mwp_mono {R : Type} (m : M R) (s : GladosService)
    (Q Q' : outcome R -> GladosService -> list entry -> Prop) :
  (forall o s' tr, Q o s' tr -> Q' o s' tr) -> mwp m s Q -> mwp m s Q'.
Proof.
  intros HQ. apply wp_mono. intros [o s'] tr. apply HQ.
Qed.

Lemma mwp_any {R : Type} (m : M R) (s : GladosService) :
  mwp m s (fun _ _ _ => True).
Proof. apply wp_any. Qed.

Lemma mwp_bind {A B : Type} (m : M A) (k : A -> M B) (s : GladosService)
    (Q : outcome B -> GladosService -> list entry -> Prop) :
  mwp m s (fun o s1 t1 =>
    match o with
    | Returned a => mwp (k a) s1 (fun o2 s2 t2 => Q o2 s2 (t1 ++ t2))
    | Thrown error => Q (Thrown error) s1 t1
    end) ->
  mwp (bind m k) s Q.
Proof.
  intros Hm. unfold mwp, bind. apply wp_pbind.
  eapply wp_mono; [| apply Hm].
  intros [[a | error] s1] t1; simpl; intros H.
  - exact H.
  - now rewrite app_nil_r.
Qed.

Lemma mwp_try_catch {A : Type} (body : M A) (handle : JsError -> M A)
    (s : GladosService)
    (Q : outcome A -> GladosService -> list entry -> Prop) :
  mwp body s (fun o s1 t1 =>
    match o with
    | Returned a => Q (Returned a) s1 t1
    | Thrown error => mwp (handle error) s1 (fun o2 s2 t2 => Q o2 s2 (t1 ++ t2))
    end) ->
  mwp (try_catch body handle) s Q.
Proof.
  intros Hm. unfold mwp, try_catch. apply wp_pbind.
  eapply wp_mono; [| apply Hm].
  intros [[a | error] s1] t1; simpl; intros H.
  - now rewrite app_nil_r.
  - exact H.
Qed.

Lemma call_bind {W A B : Type} (h : handler W) (m : M A) (k : A -> M B)
    (s : GladosService) (w : W) :
  call h (bind m k) s w =
  match call h m s w with
  | (Returned a, s1, w1, t1) =>
      let '(o, s2, w2, t2) := call h (k a) s1 w1 in (o, s2, w2, t1 ++ t2)
  | (Thrown error, s1, w1, t1) => (Thrown error, s1, w1, t1)
  end.
Proof.
  unfold call, bind. rewrite run_pbind.
  destruct (run h (m s) w) as [[[[a | error] s1] w1] t1]; simpl.
  - now destruct (run h (k a s1) w1) as [[[o s2] w2] t2].
  - now rewrite app_nil_r.
Qed.

Lemma call_try_catch {W A : Type} (h : handler W) (body : M A)
    (handle : JsError -> M A) (s : GladosService) (w : W) :
  call h (try_catch body handle) s w =
  match call h body s w with
  | (Returned a, s1, w1, t1) => (Returned a, s1, w1, t1)
  | (Thrown error, s1, w1, t1) =>
      let '(o, s2, w2, t2) := call h (handle error) s1 w1 in
      (o, s2, w2, t1 ++ t2)
  end.
Proof.
  unfold call, try_catch. rewrite run_pbind.
  destruct (run h (body s) w) as [[[[a | error] s1] w1] t1]; simpl.
  - now rewrite app_nil_r.
  - now destruct (run h (handle error s1) w1) as [[[o s2] w2] t2].
Qed.

Lemma collect_app {A B : Type} (f : A -> option B) (l1 l2 : list A) :
  collect f (l1 ++ l2) = collect f l1 ++ collect f l2.
Proof.
  induction l1 as [| a l1 IH]; simpl; [reflexivity |].
  destruct (f a); simpl; now rewrite IH.
Qed.

(** ** One step of each method *)

Lemma unit_eta (u : unit) : u = tt.
Proof. now destruct u. Qed.

Lemma generateAudio_spec (t : string) (s : GladosService)
    (Q : outcome (option string) -> GladosService -> list entry -> Prop) :
  (forall a1 a2, Q (Returned (audio_result a1 a2)) s (audio_trace t a1 a2)) ->
  mwp (generateAudio t) s Q.
Proof.
  intros H. unfold mwp, generateAudio. cbn. intros a1.
  destruct a1 as [e1 | r1]; cbn.
  - destruct (isQuotaError e1) eqn:Hq; cbn.
    + intros u1 u2 a2. rewrite (unit_eta u1), (unit_eta u2).
      specialize (H (inl e1) a2). unfold audio_trace, audio_result in H.
      rewrite Hq in H.
      destruct a2 as [e2 | r2]; cbn.
      * intros u3. rewrite (unit_eta u3). exact H.
      * exact H.
    + intros u. rewrite (unit_eta u).
      specialize (H (inl e1) (inl e1)). unfold audio_trace, audio_result in H.
      now rewrite Hq in H.
  - exact (H (inr r1) (inr r1)).
Qed.

Lemma attempt_spec (i : Z) (message : string) (s : GladosService)
    (Q : outcome (option string) -> GladosService -> list entry -> Prop) :
  (forall a,
     match a with
     | inr response =>
         let t := option_map Js.trim (resp_text response) in
         if Js.truthy t then
           forall now,
             Q (Returned t)
               (set_lastModelCheck now (set_currentTextModelIndex i s))
               [Entry (text_request s i message) a; Entry DateNow now]
         else Q (Returned None) s [Entry (text_request s i message) a]
     | inl error =>
         if i <? length_of s - 1 then
           Q (Returned None) (set_currentTextModelIndex (i + 1) s)
             [Entry (text_request s i message) a]
         else Q (Thrown error) s [Entry (text_request s i message) a]
     end) ->
  mwp (attempt i message) s Q.
Proof.
  intros H. unfold mwp, attempt. cbn. intros a. specialize (H a).
  destruct a as [error | response]; cbn.
  - destruct (i <? length_of s - 1) eqn:Hi; cbn.
    + rewrite andb_true_r. now destruct (isQuotaError error); cbn.
    + rewrite andb_false_r. cbn. exact H.
  - cbn in H. destruct (Js.truthy (option_map Js.trim (resp_text response))); cbn.
    + intros now. apply H.
    + exact H.
Qed.

Lemma promote_check_spec (s : GladosService)
    (Q : outcome unit -> GladosService -> list entry -> Prop) :
  (forall s1 t0, promoted s s1 t0 -> Q (Returned tt) s1 t0) ->
  mwp promote_check s Q.
Proof.
  intros H. unfold mwp, promote_check. cbn.
  destruct (0 <? currentTextModelIndex s) eqn:Hi; cbn.
  - intros now. apply Z.ltb_lt in Hi.
    destruct (now - lastModelCheck s >? CHECK_INTERVAL s) eqn:Hc; cbn;
      apply H; right; exists now; rewrite Hc; auto.
  - apply Z.ltb_ge in Hi. apply H. left. auto.
Qed.

Lemma generateTextWithFallback_spec (message : string) (s : GladosService)
    (Q : outcome string -> GladosService -> list entry -> Prop) :
  (forall s1 t0, promoted s s1 t0 ->
     mwp (for_models
            (Z.to_nat (length_of s1 - currentTextModelIndex s1))
            (currentTextModelIndex s1) message) s1
       (fun o s2 t => Q o s2 (t0 ++ t))) ->
  mwp (generateTextWithFallback message) s Q.
Proof.
  intros H. unfold generateTextWithFallback.
  apply mwp_bind. apply promote_check_spec. intros s1 t0 Hp.
  specialize (H s1 t0 Hp). exact H.
Qed.

Lemma chat_spec (message : string) (s : GladosService)
    (Q : outcome ChatResult -> GladosService -> list entry -> Prop) :
  mwp (generateTextWithFallback message) s (fun o s1 t1 =>
    match o with
    | Returned t =>
        forall a1 a2,
          Q (Returned {| text := t; audioBase64 := audio_result a1 a2 |}) s1
            (t1 ++ audio_trace t a1 a2)
    | Thrown error =>
        Q (Returned {| text := error_text error; audioBase64 := None |}) s1
          (t1 ++ [chat_failed])
    end) ->
  mwp (chat message) s Q.
Proof.
  intros H. unfold chat. apply mwp_try_catch. apply mwp_bind.
  eapply mwp_mono; [| apply H]. clear H.
  intros [t | error] s1 t1 H.
  - apply mwp_bind. apply mwp_try_catch. apply generateAudio_spec.
    intros a1 a2. cbn. rewrite app_nil_r. apply H.
  - unfold mwp. cbn. intros u. rewrite (unit_eta u). exact H.
Qed.

Lemma frame_length (s s' : GladosService) :
  frame s s' -> length_of s' = length_of s.
Proof. intros [H _]. unfold length_of. now rewrite H. Qed.

Lemma promoted_valid (s s1 : GladosService) (t0 : list entry) :
  promoted s s1 t0 -> valid_index s -> frame s s1 /\ valid_index s1.
Proof.
  unfold valid_index, frame.
  intros [(_ & -> & _) | (now & Hi & _ & ->)] Hv; [auto |].
  destruct (now - lastModelCheck s >? CHECK_INTERVAL s); [| auto].
  cbn. unfold length_of in *. cbn. split; [auto | lia].
Qed.

Lemma promoted_quiet (s s1 : GladosService) (t0 : list entry) :
  promoted s s1 t0 -> text_attempts t0 = [] /\ emitted t0 = [].
Proof. intros [(_ & _ & ->) | (now & _ & -> & _)]; auto. Qed.

(** ** The fallback loop *)

Section Loop.

Variable message : string.

(** The index stays inside the list. *)
Lemma for_models_valid (n : nat) :
  forall (i : Z) (s : GladosService),
    0 <= i -> i + Z.of_nat n <= length_of s -> valid_index s ->
    mwp (for_models n i message) s
      (fun _ s' _ => frame s s' /\ valid_index s').
Proof.
  induction n as [| n IH]; intros i s Hi Hn Hv.
  - unfold mwp. cbn. unfold frame. auto.
  - cbn [for_models]. apply mwp_bind. apply attempt_spec.
    intros [error | response].
    + destruct (i <? length_of s - 1) eqn:Hlt.
      * apply Z.ltb_lt in Hlt. cbn.
        eapply mwp_mono; [| apply IH].
        -- intros _ s' _ [[Hf1 Hf2] Hv']. split; [split |]; auto.
        -- lia.
        -- change (length_of (set_currentTextModelIndex (i + 1) s))
             with (length_of s). lia.
        -- unfold valid_index.
           change (length_of (set_currentTextModelIndex (i + 1) s))
             with (length_of s). cbn. lia.
      * unfold frame. auto.
    + cbn zeta.
      destruct (Js.truthy (option_map Js.trim (resp_text response))) eqn:Ht.
      * intros now. destruct (option_map Js.trim (resp_text response)) as [t |];
          [| discriminate Ht].
        unfold mwp. cbn. unfold frame, valid_index, length_of in *. cbn.
        split; [auto | lia].
      * cbn. apply IH; auto; lia.
Qed.

(** The model asked first is the one at the starting index. *)
Lemma for_models_first (n : nat) (i : Z) (s : GladosService) :
  mwp (for_models n i message) s
    (fun _ _ tr =>
       map fst (firstn 1 (text_attempts tr)) =
       match n with
       | O => []
       | S _ => [model_at s i]
       end).
Proof.
  destruct n as [| n].
  - unfold mwp. cbn. reflexivity.
  - cbn [for_models]. apply mwp_bind. apply attempt_spec.
    intros [error | response].
    + destruct (i <? length_of s - 1).
      * cbn. eapply mwp_mono; [| apply mwp_any]. reflexivity.
      * reflexivity.
    + cbn zeta.
      destruct (Js.truthy (option_map Js.trim (resp_text response))).
      * intros now. cbn. eapply mwp_mono; [| apply mwp_any]. reflexivity.
      * cbn. eapply mwp_mono; [| apply mwp_any]. reflexivity.
Qed.

(** Every attempt rejected with a quota-class error: the last rejection is
    thrown, and the index has moved to the last candidate. *)
Lemma for_models_quota (n : nat) :
  forall (i : Z) (s : GladosService),
    n = Z.to_nat (length_of s - i) ->
    currentTextModelIndex s = i ->
    mwp (for_models n i message) s
      (fun o s' tr =>
         Forall quota_failure (map snd (text_attempts tr)) ->
         n <> O ->
         exists error,
           o = Thrown error
           /\ isQuotaError error = true
           /\ currentTextModelIndex s' = length_of s - 1
           /\ lastModelCheck s' = lastModelCheck s
           /\ frame s s'
           /\ List.length (text_attempts tr) = n).
Proof.
  induction n as [| n IH]; intros i s Hn Hi.
  - unfold mwp. cbn. intros _ H. now elim H.
  - cbn [for_models]. apply mwp_bind. apply attempt_spec.
    intros [error | response].
    + destruct (i <? length_of s - 1) eqn:Hlt.
      * apply Z.ltb_lt in Hlt. cbn.
        eapply mwp_mono;
          [| apply (IH (i + 1) (set_currentTextModelIndex (i + 1) s))].
        -- intros o s' tr H Hall _. inversion Hall as [| a l _ Hrest]; subst.
           destruct H as (e & Ho & He & Hidx & Hlast & [Hf1 Hf2] & Hlen);
             [exact Hrest | lia |].
           exists e. repeat split; auto.
        -- change (length_of (set_currentTextModelIndex (i + 1) s))
             with (length_of s). lia.
        -- reflexivity.
      * apply Z.ltb_ge in Hlt. intros Hall _.
        inversion Hall as [| a l Hq _]; subst.
        destruct Hq as (e & He & Hq). injection He as <-.
        exists error. unfold frame. repeat split; auto; [lia |].
        cbn. lia.
    + cbn zeta.
      assert (Hno : ~ quota_failure
                      (@inr JsError GenerateContentResponse response))
        by (intros (e & He & _); discriminate He).
      destruct (Js.truthy (option_map Js.trim (resp_text response))).
      * intros now. cbn. eapply mwp_mono; [| apply mwp_any].
        intros o s' tr _ Hall. inversion Hall; subst; contradiction.
      * cbn. eapply mwp_mono; [| apply mwp_any]. intros o s' tr _ Hall.
        inversion Hall; subst; contradiction.
Qed.

(** Every attempt answered without usable text: the loop runs to the end of
    the list, writes nothing and falls through to the refusal. *)
Lemma for_models_blank (n : nat) :
  forall (i : Z) (s : GladosService),
    mwp (for_models n i message) s
      (fun o s' tr =>
         Forall blank_reply (map snd (text_attempts tr)) ->
         o = Returned REFUSAL /\ s' = s
         /\ List.length (text_attempts tr) = n).
Proof.
  induction n as [| n IH]; intros i s.
  - unfold mwp. cbn. auto.
  - cbn [for_models]. apply mwp_bind. apply attempt_spec.
    intros [error | response].
    + assert (Hno : ~ blank_reply
                      (@inl JsError GenerateContentResponse error))
        by (intros (r & Hr & _); discriminate Hr).
      destruct (i <? length_of s - 1).
      * cbn. eapply mwp_mono; [| apply mwp_any]. intros o s' tr _ Hall.
        inversion Hall; subst; contradiction.
      * intros Hall. inversion Hall; subst; contradiction.
    + cbn zeta.
      destruct (Js.truthy (option_map Js.trim (resp_text response))) eqn:Ht.
      * intros now. cbn. eapply mwp_mono; [| apply mwp_any].
        intros o s' tr _ Hall. inversion Hall as [| a l Hb _]; subst.
        destruct Hb as (r & Hr & Hb). injection Hr as <-. congruence.
      * cbn. eapply mwp_mono; [| apply IH]. intros o s' tr H Hall.
        inversion Hall as [| a l _ Hrest]; subst.
        destruct (H Hrest) as (Ho & Hs & Hlen). cbn. auto.
Qed.

End Loop.

Section LoopEnd.

Variable message : string.

Lemma text_attempts_cons (s : GladosService) (i : Z)
    (a : JsError + GenerateContentResponse) (tr : list entry) :
  text_attempts (Entry (text_request s i message) a :: tr) =
  (model_at s i, a) :: text_attempts tr.
Proof. reflexivity. Qed.

Lemma last_attempt_cons (s : GladosService) (i : Z)
    (a : JsError + GenerateContentResponse) (tr : list entry) :
  last_attempt (Entry (text_request s i message) a :: tr) =
  match text_attempts tr with
  | [] => Some a
  | _ :: _ => last_attempt tr
  end.
Proof.
  unfold last_attempt. rewrite text_attempts_cons.
  now destruct (text_attempts tr).
Qed.

(** The loop ends as the answer to its last attempt says. *)
Lemma for_models_last (n : nat) :
  forall (i : Z) (s : GladosService),
    n = Z.to_nat (length_of s - i) ->
    mwp (for_models n i message) s
      (fun o _ tr =>
         (n <> O -> text_attempts tr <> [])
         /\ o = fallback_outcome (last_attempt tr)).
Proof.
  induction n as [| n IH]; intros i s Hn.
  - unfold mwp. cbn. split; [intros H; now elim H | reflexivity].
  - cbn [for_models]. apply mwp_bind. apply attempt_spec.
    intros [error | response].
    + destruct (i <? length_of s - 1) eqn:Hlt.
      * apply Z.ltb_lt in Hlt. cbv beta iota.
        eapply mwp_mono;
          [| apply (IH (i + 1) (set_currentTextModelIndex (i + 1) s))].
        -- intros o s' tr [Hne Ho]. split; [intros _; cbn; discriminate |].
           cbn [app]. rewrite last_attempt_cons.
           destruct (text_attempts tr) eqn:Htr; [| exact Ho].
           elim Hne; [lia | reflexivity].
        -- change (length_of (set_currentTextModelIndex (i + 1) s))
             with (length_of s). lia.
      * split; [intros _; cbn; discriminate | reflexivity].
    + cbn zeta.
      destruct (Js.truthy (option_map Js.trim (resp_text response))) eqn:Ht.
      * intros now. destruct (option_map Js.trim (resp_text response)) as [t |] eqn:Hr;
          [| discriminate Ht].
        unfold mwp. cbn. split; [intros _; cbn; discriminate |].
        unfold last_attempt, fallback_outcome. cbn. rewrite Hr.
        cbn in Ht. now rewrite Ht.
      * cbv beta iota. eapply mwp_mono; [| apply (IH (i + 1) s); lia].
        intros o s' tr [Hne Ho]. split; [intros _; cbn; discriminate |].
        cbn [app]. rewrite last_attempt_cons.
        destruct (text_attempts tr) eqn:Htr; [| exact Ho].
        rewrite Ho. unfold last_attempt. rewrite Htr. cbn.
        destruct (option_map Js.trim (resp_text response)); [| reflexivity].
        cbn in Ht. now rewrite Ht.
Qed.

End LoopEnd.

Lemma wp_conj {R : Type} (p : prog R) (Q1 Q2 : R -> list entry -> Prop) :
  wp p Q1 -> wp p Q2 -> wp p (fun r tr => Q1 r tr /\ Q2 r tr).
Proof.
  revert Q1 Q2. induction p as [r | X e k IH]; simpl; intros Q1 Q2 H1 H2.
  - auto.
  - intros x. exact (IH x _ _ (H1 x) (H2 x)).
Qed.

Lemma wp_impl {R : Type} (p : prog R) (P : Prop)
    (Q : R -> list entry -> Prop) :
  (P -> wp p Q) -> wp p (fun r tr => P -> Q r tr).
Proof.
  revert Q. induction p as [r | X e k IH]; simpl; intros Q H.
  - exact H.
  - intros x. apply IH. intros HP. exact (H HP x).
Qed.

Lemma mwp_impl {R : Type} (m : M R) (s : GladosService) (P : Prop)
    (Q : outcome R -> GladosService -> list entry -> Prop) :
  (P -> mwp m s Q) -> mwp m s (fun o s' tr => P -> Q o s' tr).
Proof. intros H. exact (wp_impl _ _ _ H). Qed.

Lemma mwp_perform {X : Type} (e : eff X) (s : GladosService)
    (Q : outcome X -> GladosService -> list entry -> Prop) :
  (forall x, Q (Returned x) s [Entry e x]) -> mwp (perform e) s Q.
Proof. intros H. unfold mwp. cbn. exact H. Qed.

Lemma mwp_ret {R : Type} (r : R) (s : GladosService)
    (Q : outcome R -> GladosService -> list entry -> Prop) :
  Q (Returned r) s [] -> mwp (ret r) s Q.
Proof. intros H. exact H. Qed.

Lemma mwp_gets {A : Type} (f : GladosService -> A) (s : GladosService)
    (Q : outcome A -> GladosService -> list entry -> Prop) :
  Q (Returned (f s)) s [] -> mwp (gets f) s Q.
Proof. intros H. exact H. Qed.

Lemma mwp_await {X : Type} (e : eff (JsError + X)) (s : GladosService)
    (Q : outcome X -> GladosService -> list entry -> Prop) :
  (forall a,
     Q (match a with
        | inl error => Thrown error
        | inr x => Returned x
        end) s [Entry e a]) ->
  mwp (await e) s Q.
Proof.
  intros H. unfold mwp, await. cbn. intros a. specialize (H a).
  now destruct a.
Qed.

Lemma mwp_conj {R : Type} (m : M R) (s : GladosService)
    (Q1 Q2 : outcome R -> GladosService -> list entry -> Prop) :
  mwp m s Q1 -> mwp m s Q2 ->
  mwp m s (fun o s' tr => Q1 o s' tr /\ Q2 o s' tr).
Proof. intros H1 H2. exact (wp_conj _ _ _ H1 H2). Qed.

Lemma call_perform {W X : Type} (h : handler W) (e : eff X)
    (s : GladosService) (w : W) :
  call h (perform e) s w =
  let (x, w1) := h _ e w in (Returned x, s, w1, [Entry e x]).
Proof. unfold call, perform. cbn. now destruct (h X e w). Qed.

(** ** Speech synthesis and the quiet parts of a trace *)

Lemma audio_trace_quiet (t : string)
    (a1 a2 : JsError + GenerateContentResponse) :
  text_attempts (audio_trace t a1 a2) = []
  /\ emitted (audio_trace t a1 a2) = []
  /\ stream_replies (audio_trace t a1 a2) = [].
Proof.
  unfold audio_trace.
  destruct a1 as [e1 | r1]; [| now cbn].
  destruct (isQuotaError e1); [| now cbn].
  destruct a2; now cbn.
Qed.

Section Quiet.

Variable message : string.

(** The loop yields nothing, opens no stream and keeps the
    configuration. *)
Lemma for_models_quiet (n : nat) :
  forall (i : Z) (s : GladosService),
    mwp (for_models n i message) s
      (fun _ s' tr =>
         emitted tr = [] /\ stream_replies tr = [] /\ frame s s').
Proof.
  induction n as [| n IH]; intros i s.
  - unfold mwp, frame. cbn. auto.
  - cbn [for_models]. apply mwp_bind. apply attempt_spec.
    intros [error | response].
    + destruct (i <? length_of s - 1).
      * cbv beta iota. eapply mwp_mono; [| apply IH].
        intros _ s' tr (He & Hs & Hf). cbn. auto.
      * unfold frame. cbn. auto.
    + cbn zeta.
      destruct (Js.truthy (option_map Js.trim (resp_text response))).
      * intros now. destruct (option_map Js.trim (resp_text response)).
        -- unfold mwp, frame. cbn. auto.
        -- cbv beta iota. eapply mwp_mono; [| apply IH].
           intros _ s' tr (He & Hs & Hf). cbn. auto.
      * cbv beta iota. eapply mwp_mono; [| apply IH].
        intros _ s' tr (He & Hs & Hf). cbn. auto.
Qed.

(** [chat] always resolves; it yields nothing, opens no stream, and keeps
    the index inside the list. *)
Lemma chat_resolves (s : GladosService) :
  mwp (chat message) s
    (fun o s' tr =>
       (exists result, o = Returned result)
       /\ emitted tr = [] /\ stream_replies tr = []
       /\ frame s s' /\ (valid_index s -> valid_index s')).
Proof.
  apply chat_spec. apply generateTextWithFallback_spec. intros s1 t0 Hp.
  destruct (promoted_quiet _ _ _ Hp) as (_ & He0).
  assert (Hs0 : stream_replies t0 = [])
    by (destruct Hp as [(_ & _ & ->) | (now & _ & -> & _)]; reflexivity).
  assert (Hf0 : frame s s1).
  { destruct Hp as [(_ & -> & _) | (now & _ & _ & ->)]; [split; auto |].
    destruct (now - lastModelCheck s >? CHECK_INTERVAL s); split; auto. }
  eapply mwp_mono;
    [| apply mwp_conj;
       [apply for_models_quiet
       | apply (mwp_impl _ _ (valid_index s));
         intros Hv; destruct (promoted_valid _ _ _ Hp Hv) as [_ Hv1];
         apply (for_models_valid message); [apply Hv1 | | exact Hv1];
         unfold valid_index in Hv1; lia]].
  cbv beta. intros o s2 tr [(He & Hs & Hf) Hv].
  assert (Hframe : frame s s2).
  { destruct Hf0 as [H1 H2], Hf as [H3 H4]. split; congruence. }
  assert (Hvalid : valid_index s -> valid_index s2)
    by (intros Hv0; apply (Hv Hv0)).
  destruct o as [t | error].
  - intros a1 a2. destruct (audio_trace_quiet t a1 a2) as (_ & Ha & Hb).
    unfold emitted, stream_replies in *. rewrite !collect_app.
    rewrite He0, Hs0, He, Hs, Ha, Hb.
    split; [eauto |]. split; [reflexivity |]. split; [reflexivity |].
    split; assumption.
  - unfold emitted, stream_replies in *. rewrite !collect_app.
    rewrite He0, Hs0, He, Hs.
    split; [eauto |]. split; [reflexivity |]. split; [reflexivity |].
    split; assumption.
Qed.

End Quiet.

(** ** Streaming *)

Lemma for_await_spec (cs : list Chunk) (ending : option JsError) :
  forall (acc : string) (s : GladosService)
         (Q : outcome string -> GladosService -> list entry -> Prop),
    Q (match ending with
       | None => Returned (fold_left String.append (chunk_texts cs) acc)
       | Some error => Thrown error
       end) s (partial_entries acc cs) ->
    mwp (for_await cs ending acc) s Q.
Proof.
  induction cs as [| c rest IH]; intros acc s Q H.
  - unfold mwp. cbn. now destruct ending.
  - cbn [for_await]. unfold partial_entries in *. cbn [chunk_texts] in H.
    destruct (chunk_text c) as [t |]; cbn [Js.truthy].
    + destruct (t =? EmptyString)%string; cbn [negb].
      * now apply IH.
      * apply mwp_bind. apply mwp_perform. intros u. rewrite (unit_eta u).
        apply IH. exact H.
    + now apply IH.
Qed.

Section Stream.

Variable message : string.

Lemma stream_body_spec (s : GladosService)
    (Q : outcome unit -> GladosService -> list entry -> Prop) :
  (forall a : JsError + ResponseStream,
     match a with
     | inl error => Q (Thrown error) s [Entry (stream_request s message) a]
     | inr st =>
         match failure st with
         | Some error =>
             Q (Thrown error) s
               (Entry (stream_request s message) a
                  :: partial_entries EmptyString (chunks st))
         | None =>
             forall a1 a2,
               Q (Returned tt) s
                 (Entry (stream_request s message) a
                    :: partial_entries EmptyString (chunks st)
                    ++ audio_trace (full_text (chunks st)) a1 a2
                    ++ [yield_entry
                          (terminal_event (full_text (chunks st))
                             (audio_result a1 a2))])
         end
     end) ->
  mwp (stream_body message) s Q.
Proof.
  intros H. unfold stream_body. apply mwp_bind. apply mwp_gets.
  apply mwp_bind. apply mwp_await. intros a. specialize (H a).
  destruct a as [error | st].
  - exact H.
  - apply mwp_bind. apply for_await_spec.
    destruct (failure st) as [error |].
    + exact H.
    + apply mwp_bind. apply mwp_try_catch. apply generateAudio_spec.
      intros a1 a2. apply mwp_perform. intros u. rewrite (unit_eta u).
      exact (H a1 a2).
Qed.

Lemma chatStream_spec (s : GladosService)
    (Q : outcome unit -> GladosService -> list entry -> Prop) :
  (forall a : JsError + ResponseStream,
     let fallback (t1 : list entry) :=
       mwp (chat message) s (fun o s2 t2 =>
         match o with
         | Returned result =>
             Q (Returned tt) s2
               (t1 ++ [stream_failed] ++ t2
                  ++ [yield_entry (terminal_of result)])
         | Thrown error => Q (Thrown error) s2 (t1 ++ [stream_failed] ++ t2)
         end) in
     match a with
     | inl error => fallback [Entry (stream_request s message) a]
     | inr st =>
         match failure st with
         | Some error =>
             fallback (Entry (stream_request s message) a
                         :: partial_entries EmptyString (chunks st))
         | None =>
             forall a1 a2,
               Q (Returned tt) s
                 (Entry (stream_request s message) a
                    :: partial_entries EmptyString (chunks st)
                    ++ audio_trace (full_text (chunks st)) a1 a2
                    ++ [yield_entry
                          (terminal_event (full_text (chunks st))
                             (audio_result a1 a2))])
         end
     end) ->
  mwp (chatStream message) s Q.
Proof.
  intros H. unfold chatStream. apply mwp_try_catch. apply stream_body_spec.
  intros a. specialize (H a). cbv zeta in H.
  assert (Hfall : forall t1,
    mwp (chat message) s (fun o s2 t2 =>
      match o with
      | Returned result =>
          Q (Returned tt) s2
            (t1 ++ [stream_failed] ++ t2 ++ [yield_entry (terminal_of result)])
      | Thrown e => Q (Thrown e) s2 (t1 ++ [stream_failed] ++ t2)
      end) ->
    mwp
      (perform (Console Error "GLaDOS Stream Error:") ;;
       result <- chat message ;; perform (Yield (terminal_of result))) s
      (fun o2 s2 t2 => Q o2 s2 (t1 ++ t2))).
  { intros t1 Hc. apply mwp_bind. apply mwp_perform.
    intros u. rewrite (unit_eta u). apply mwp_bind.
    eapply mwp_mono; [| apply Hc].
    intros [result | e] s2 t2 HQ.
    - apply mwp_perform. intros u2. rewrite (unit_eta u2). exact HQ.
    - exact HQ. }
  destruct a as [error | st].
  - now apply Hfall.
  - destruct (failure st) as [error |].
    + now apply Hfall.
    + exact H.
Qed.

End Stream.

(** ** The methods, run in an environment *)

Section Environment.

Variable W : Type.
Variable h : handler W.

Lemma call_shape {R : Type} (c : outcome R * GladosService * W * list entry) :
  c = (outcome_of c, service_of c, world_of c, trace_of c).
Proof. now destruct c as [[[o s] w] tr]. Qed.

Lemma promote_check_run (s : GladosService) (w : W) :
  exists s1 w1 t0,
    call h promote_check s w = (Returned tt, s1, w1, t0)
    /\ promoted s s1 t0.
Proof.
  pose proof (mwp_sound promote_check s
    (fun o s1 t0 => o = Returned tt /\ promoted s s1 t0)) as H.
  specialize (H (promote_check_spec s _ (fun s1 t0 Hp => conj eq_refl Hp)) W h w).
  rewrite (call_shape (call h promote_check s w)).
  destruct H as [-> Hp]. eauto.
Qed.

Lemma generateAudio_run (t : string) (s : GladosService) (w : W) :
  exists a1 a2 w1,
    call h (generateAudio t) s w =
    (Returned (audio_result a1 a2), s, w1, audio_trace t a1 a2).
Proof.
  pose proof (mwp_sound (generateAudio t) s
    (fun o s1 tr => exists a1 a2,
       o = Returned (audio_result a1 a2) /\ s1 = s
       /\ tr = audio_trace t a1 a2)) as H.
  specialize (H (generateAudio_spec t s _
                   (fun a1 a2 => ex_intro _ a1 (ex_intro _ a2
                      (conj eq_refl (conj eq_refl eq_refl))))) W h w).
  rewrite (call_shape (call h (generateAudio t) s w)).
  destruct H as (a1 & a2 & -> & -> & ->). eauto.
Qed.

Lemma generateTextWithFallback_run (message : string) (s : GladosService)
    (w : W) :
  exists s1 w1 t0 o s2 w2 t,
    promoted s s1 t0
    /\ call h promote_check s w = (Returned tt, s1, w1, t0)
    /\ call h (for_models
                 (Z.to_nat (length_of s1 - currentTextModelIndex s1))
                 (currentTextModelIndex s1) message) s1 w1 = (o, s2, w2, t)
    /\ call h (generateTextWithFallback message) s w = (o, s2, w2, t0 ++ t).
Proof.
  destruct (promote_check_run s w) as (s1 & w1 & t0 & Hrun & Hp).
  destruct (call h (for_models
                      (Z.to_nat (length_of s1 - currentTextModelIndex s1))
                      (currentTextModelIndex s1) message) s1 w1)
    as [[[o s2] w2] t] eqn:Hloop.
  exists s1, w1, t0, o, s2, w2, t. repeat split; auto.
  unfold generateTextWithFallback. rewrite call_bind, Hrun.
  rewrite call_bind. change (call h (gets currentTextModelIndex) s1 w1)
    with (Returned (currentTextModelIndex s1), s1, w1, @nil entry).
  cbv beta iota. rewrite call_bind.
  change (call h (gets length_of) s1 w1)
    with (Returned (length_of s1), s1, w1, @nil entry).
  cbv beta iota. rewrite Hloop. reflexivity.
Qed.

Lemma chat_run (message : string) (s : GladosService) (w : W) :
  match call h (generateTextWithFallback message) s w with
  | (Returned t, s1, w1, t1) =>
      exists a1 a2 w2,
        call h (generateAudio t) s1 w1 =
        (Returned (audio_result a1 a2), s1, w2, audio_trace t a1 a2)
        /\ call h (chat message) s w =
           (Returned {| text := t; audioBase64 := audio_result a1 a2 |},
            s1, w2, t1 ++ audio_trace t a1 a2)
  | (Thrown error, s1, w1, t1) =>
      exists w2,
        call h (chat message) s w =
        (Returned {| text := error_text error; audioBase64 := None |},
         s1, w2, t1 ++ [chat_failed])
  end.
Proof.
  unfold chat. rewrite call_try_catch, call_bind.
  destruct (call h (generateTextWithFallback message) s w)
    as [[[[t | error] s1] w1] t1].
  - destruct (generateAudio_run t s1 w1) as (a1 & a2 & w2 & Ha).
    exists a1, a2, w2. split; [exact Ha |].
    rewrite call_bind, call_try_catch, Ha. cbn. now rewrite !app_nil_r.
  - rewrite call_bind, call_perform.
    destruct (h unit (Console Error "GLaDOS Error:") w1) as [u w2].
    rewrite (unit_eta u). exists w2. cbn. reflexivity.
Qed.

End Environment.

(** * The statements of the specification *)

Lemma attempts_of_chat_trace (t0 t rest : list entry) :
  text_attempts t0 = [] -> text_attempts rest = [] ->
  text_attempts ((t0 ++ t) ++ rest) = text_attempts t.
Proof.
  unfold text_attempts. intros H0 Hr. rewrite !collect_app, H0, Hr.
  now rewrite app_nil_r.
Qed.

(** ** Quota exhaustion of every candidate *)

(** C1, as the specification states it, fails on the fresh service when
    both candidates answer with a quota error: the two attempts are made
    and both are quota failures, but [generateTextWithFallback] throws the
    last error and [chat] answers with the quota-exhaustion text, which is
    not the refusal string. *)
Lemma refusal_after_quota_exhaustion_fails :
  List.length
    (text_attempts
       (trace_of (call scripted (chat "hello") new_GladosService
                    quota_exhausted)))
  = List.length (textModels new_GladosService)
  /\ Forall quota_failure
       (map snd
          (text_attempts
             (trace_of (call scripted (chat "hello") new_GladosService
                          quota_exhausted))))
  /\ outcome_of (call scripted (generateTextWithFallback "hello")
                   new_GladosService quota_exhausted)
     = Thrown quota_error
  /\ outcome_of (call scripted (chat "hello") new_GladosService
                   quota_exhausted)
     = Returned {| text := QUOTA_ERROR_TEXT; audioBase64 := None |}
  /\ QUOTA_ERROR_TEXT <> REFUSAL.
Proof.
  split; [reflexivity |]. split.
  - repeat constructor; exists quota_error; split; reflexivity.
  - split; [reflexivity |]. split; [reflexivity | discriminate].
Qed.

(** C1, amended: for a service whose index is valid (so the candidate list
    is not empty), if every text-generation attempt of a [chat] call fails
    with a quota-class error, then [generateTextWithFallback] throws a
    quota-class error, [chat] does not throw and returns the
    quota-exhaustion text with no audio, the index ends on the last
    candidate, and a call that started at index 0 has attempted every
    candidate. *)
Theorem chat_after_quota_exhaustion (W : Type) (h : handler W)
    (s : GladosService) (w : W) (message : string) :
  valid_index s ->
  Forall quota_failure
    (map snd (text_attempts (trace_of (call h (chat message) s w)))) ->
  outcome_of (call h (chat message) s w)
  = Returned {| text := QUOTA_ERROR_TEXT; audioBase64 := None |}
  /\ (exists error,
        outcome_of (call h (generateTextWithFallback message) s w)
        = Thrown error
        /\ isQuotaError error = true)
  /\ currentTextModelIndex (service_of (call h (chat message) s w))
     = length_of s - 1
  /\ (currentTextModelIndex s = 0 ->
      List.length (text_attempts (trace_of (call h (chat message) s w)))
      = List.length (textModels s)).
Proof.
  intros Hv Hall.
  destruct (generateTextWithFallback_run W h message s w)
    as (s1 & w1 & t0 & o & s2 & w2 & t & Hp & _ & Hloop & Hgen).
  pose proof (chat_run W h message s w) as Hc. rewrite Hgen in Hc.
  pose proof (mwp_sound _ _ _
                (for_models_quota message _ (currentTextModelIndex s1) s1
                   eq_refl eq_refl) W h w1) as Hq.
  rewrite Hloop in Hq. cbn [outcome_of service_of trace_of fst snd] in Hq.
  destruct (promoted_valid _ _ _ Hp Hv) as [Hf1 Hv1].
  destruct (promoted_quiet _ _ _ Hp) as [Ht0 _].
  assert (Hn : Z.to_nat (length_of s1 - currentTextModelIndex s1) <> O)
    by (unfold valid_index in Hv1; lia).
  rewrite Hgen. destruct o as [t' | error].
  - destruct Hc as (a1 & a2 & w3 & _ & Hc). rewrite Hc in Hall.
    cbn [trace_of snd] in Hall.
    rewrite attempts_of_chat_trace in Hall;
      [| exact Ht0 | apply audio_trace_quiet].
    destruct (Hq Hall Hn) as (e & He & _). discriminate He.
  - destruct Hc as (w3 & Hc). rewrite Hc in Hall |- *.
    cbn [outcome_of service_of trace_of fst snd] in *.
    rewrite attempts_of_chat_trace in Hall |- *; try exact Ht0; try reflexivity.
    destruct (Hq Hall Hn) as (e & He & Hqe & Hidx & _ & _ & Hlen).
    injection He as <-. unfold error_text. rewrite Hqe.
    split; [reflexivity |]. split; [eauto |].
    split; [rewrite Hidx; now rewrite (frame_length _ _ Hf1) |].
    intros H0. rewrite Hlen.
    destruct Hp as [(_ & -> & _) | (now & Hpos & _)]; [| lia].
    rewrite H0. unfold length_of. lia.
Qed.

Lemma chat_after_quota_exhaustion_witness :
  valid_index new_GladosService
  /\ Forall quota_failure
       (map snd
          (text_attempts
             (trace_of (call scripted (chat "hello") new_GladosService
                          quota_exhausted))))
  /\ outcome_of (call scripted (chat "hello") new_GladosService
                   quota_exhausted)
     = Returned {| text := QUOTA_ERROR_TEXT; audioBase64 := None |}.
Proof.
  assert (Hv : valid_index new_GladosService)
    by (unfold valid_index; cbn; lia).
  assert (Hall : Forall quota_failure
            (map snd
               (text_attempts
                  (trace_of (call scripted (chat "hello") new_GladosService
                               quota_exhausted)))))
    by (repeat constructor; exists quota_error; split; reflexivity).
  split; [exact Hv |]. split; [exact Hall |].
  exact (proj1 (chat_after_quota_exhaustion Script scripted
                  new_GladosService quota_exhausted "hello" Hv Hall)).
Defined.

(** ** The public boundary of [chat] *)

(** C2: [chat] always resolves with a result, whatever the environment
    does. When text generation throws, the result is an error text with no
    audio: the quota-exhaustion text for a quota-class error, the generic
    text otherwise, and the two texts differ. When text generation
    returns, the result carries that text. *)
Theorem chat_never_throws (W : Type) (h : handler W) (s : GladosService)
    (w : W) (message : string) :
  (exists result, outcome_of (call h (chat message) s w) = Returned result)
  /\ (forall error,
        outcome_of (call h (generateTextWithFallback message) s w)
        = Thrown error ->
        outcome_of (call h (chat message) s w)
        = Returned
            {| text := if isQuotaError error then QUOTA_ERROR_TEXT
                       else GENERIC_ERROR_TEXT;
               audioBase64 := None |})
  /\ (forall t,
        outcome_of (call h (generateTextWithFallback message) s w)
        = Returned t ->
        exists audio,
          outcome_of (call h (chat message) s w)
          = Returned {| text := t; audioBase64 := audio |})
  /\ QUOTA_ERROR_TEXT <> GENERIC_ERROR_TEXT.
Proof.
  pose proof (chat_run W h message s w) as Hc.
  destruct (call h (generateTextWithFallback message) s w)
    as [[[[t | error] s1] w1] t1]; cbn [outcome_of fst].
  - destruct Hc as (a1 & a2 & w2 & _ & ->). cbn.
    split; [eauto |]. split; [discriminate |].
    split; [| discriminate]. intros t' [= <-]. eauto.
  - destruct Hc as (w2 & ->). cbn.
    split; [eauto |]. split; [| split; discriminate].
    now intros e [= <-].
Qed.

Lemma chat_never_throws_witness :
  outcome_of (call scripted (generateTextWithFallback "hello")
                new_GladosService quota_exhausted)
  = Thrown quota_error
  /\ outcome_of (call scripted (chat "hello") new_GladosService
                   quota_exhausted)
     = Returned {| text := QUOTA_ERROR_TEXT; audioBase64 := None |}.
Proof.
  split; [reflexivity |].
  exact (proj1 (proj2 (chat_never_throws Script scripted new_GladosService
                         quota_exhausted "hello"))
           quota_error eq_refl).
Defined.

(** ** The index invariant *)

Lemma generateAudio_valid (t : string) (s : GladosService) :
  mwp (generateAudio t) s (fun _ s' _ => s' = s).
Proof. apply generateAudio_spec. reflexivity. Qed.

Lemma chatStream_valid (message : string) (s : GladosService) :
  mwp (chatStream message) s
    (fun _ s' _ => frame s s' /\ (valid_index s -> valid_index s')).
Proof.
  apply chatStream_spec. intros a. cbv zeta.
  assert (Hfall : forall t1,
    mwp (chat message) s (fun o s2 t2 =>
      match o with
      | Returned result =>
          (fun _ s' _ => frame s s' /\ (valid_index s -> valid_index s'))
            (@Returned unit tt) s2
            (t1 ++ [stream_failed] ++ t2 ++ [yield_entry (terminal_of result)])
      | Thrown e =>
          (fun _ s' _ => frame s s' /\ (valid_index s -> valid_index s'))
            (@Thrown unit e) s2 (t1 ++ [stream_failed] ++ t2)
      end)).
  { intros t1. eapply mwp_mono; [| apply chat_resolves].
    intros o s2 t2 (_ & _ & _ & Hf & Hv). now destruct o. }
  destruct a as [error | st]; [apply (Hfall []) |].
  destruct (failure st); [apply (Hfall []) |].
  intros _ _. unfold frame. auto.
Qed.

Lemma perform_operation_valid (W : Type) (h : handler W) (op : operation)
    (s : GladosService) (w : W) :
  frame s (fst (perform_operation h op s w))
  /\ (valid_index s -> valid_index (fst (perform_operation h op s w))).
Proof.
  destruct op as [message | message | t]; cbn [perform_operation fst].
  - pose proof (mwp_sound _ _ _ (chat_resolves message s) W h w) as H.
    cbv beta in H. tauto.
  - exact (mwp_sound _ _ _ (chatStream_valid message s) W h w).
  - pose proof (mwp_sound _ _ _ (generateAudio_valid t s) W h w) as H.
    cbv beta in H. rewrite H. unfold frame. auto.
Qed.

(** C3: the fresh service has a valid index, and from any service whose
    index is valid, every sequence of public operations, in every
    environment, leaves [currentTextModelIndex] between 0 and
    [length - 1] (the candidate list itself is never changed). *)
Theorem currentIndex_stays_valid :
  valid_index new_GladosService
  /\ forall (W : Type) (h : handler W) (ops : list operation)
            (s : GladosService) (w : W),
       valid_index s ->
       0 <= currentTextModelIndex (fst (session h ops s w))
         <= Z.of_nat (List.length (textModels s)) - 1
       /\ textModels (fst (session h ops s w)) = textModels s.
Proof.
  split; [unfold valid_index; cbn; lia |].
  intros W h ops. induction ops as [| op rest IH]; intros s w Hv.
  - cbn. split; [exact Hv | reflexivity].
  - cbn [session].
    destruct (perform_operation_valid W h op s w) as [[Hf _] Hv1].
    destruct (perform_operation h op s w) as [s1 w1]. cbn [fst] in *.
    destruct (IH s1 w1 (Hv1 Hv)) as [Hi Ht].
    rewrite Ht, Hf in *. auto.
Qed.

Lemma currentIndex_stays_valid_witness :
  valid_index new_GladosService
  /\ 0 <= currentTextModelIndex
            (fst (session scripted
                    [OpChat "hello"; OpChatStream "again"; OpGenerateAudio "x"]
                    new_GladosService quota_exhausted))
       <= Z.of_nat (List.length (textModels new_GladosService)) - 1.
Proof.
  split; [exact (proj1 currentIndex_stays_valid) |].
  exact (proj1 (proj2 currentIndex_stays_valid Script scripted
                  [OpChat "hello"; OpChatStream "again"; OpGenerateAudio "x"]
                  new_GladosService quota_exhausted
                  (proj1 currentIndex_stays_valid))).
Defined.

(** ** The cool-down probe *)

Lemma promote_check_at (W : Type) (h : handler W) (s : GladosService)
    (w : W) :
  0 < currentTextModelIndex s ->
  call h promote_check s w =
  (Returned tt,
   (if fst (h _ DateNow w) - lastModelCheck s >? CHECK_INTERVAL s
    then set_currentTextModelIndex 0 s else s),
   snd (h _ DateNow w),
   [Entry DateNow (fst (h _ DateNow w))]).
Proof.
  intros Hi. apply Z.ltb_lt in Hi. unfold call, promote_check. cbn.
  rewrite Hi. cbn. destruct (h Z DateNow w) as [now w1]. cbn.
  now destruct (now - lastModelCheck s >? CHECK_INTERVAL s).
Qed.

(** C4: when the index is positive and the clock at the call shows a time
    strictly later than [lastModelCheck + CHECK_INTERVAL], the check in
    front of the loop sets the index to 0 without attempting anything, and
    the first model [generateTextWithFallback] then asks is the candidate
    at index 0. *)
Theorem cooldown_probe_starts_at_preferred (W : Type) (h : handler W)
    (s : GladosService) (w : W) (message : string) :
  0 < currentTextModelIndex s ->
  lastModelCheck s + CHECK_INTERVAL s < fst (h _ DateNow w) ->
  currentTextModelIndex (service_of (call h promote_check s w)) = 0
  /\ text_attempts (trace_of (call h promote_check s w)) = []
  /\ map fst
       (firstn 1
          (text_attempts
             (trace_of (call h (generateTextWithFallback message) s w))))
     = map Some (firstn 1 (textModels s)).
Proof.
  intros Hi Hnow.
  assert (Hc : (fst (h _ DateNow w) - lastModelCheck s >? CHECK_INTERVAL s)
               = true) by (apply Z.gtb_lt; lia).
  destruct (generateTextWithFallback_run W h message s w)
    as (s1 & w1 & t0 & o & s2 & w2 & t & _ & Hrun & Hloop & Hgen).
  rewrite (promote_check_at W h s w Hi), Hc in Hrun |- *.
  injection Hrun as <- <- <-.
  split; [reflexivity |]. split; [reflexivity |].
  rewrite Hgen. cbn [trace_of snd app].
  pose proof (mwp_sound _ _ _
                (for_models_first message
                   (Z.to_nat
                      (length_of (set_currentTextModelIndex 0 s)
                       - currentTextModelIndex (set_currentTextModelIndex 0 s)))
                   (currentTextModelIndex (set_currentTextModelIndex 0 s))
                   (set_currentTextModelIndex 0 s))
                W h (snd (h _ DateNow w))) as Hfirst.
  rewrite Hloop in Hfirst. cbn [trace_of snd] in Hfirst.
  change (text_attempts (Entry DateNow (fst (h Z DateNow w)) :: t))
    with (text_attempts t).
  rewrite Hfirst. unfold length_of, model_at. cbn.
  destruct (textModels s) as [| m l]; cbn; [reflexivity |].
  now rewrite SuccNat2Pos.id_succ.
Qed.

Lemma cooldown_probe_starts_at_preferred_witness :
  0 < currentTextModelIndex degraded_service
  /\ lastModelCheck degraded_service + CHECK_INTERVAL degraded_service
     < fst (scripted _ DateNow after_cooldown)
  /\ map fst
       (firstn 1
          (text_attempts
             (trace_of (call scripted (generateTextWithFallback "hello")
                          degraded_service after_cooldown))))
     = [Some "gemini-3-flash-preview"].
Proof.
  assert (Hi : 0 < currentTextModelIndex degraded_service) by (cbn; lia).
  assert (Hnow : lastModelCheck degraded_service
                 + CHECK_INTERVAL degraded_service
                 < fst (scripted _ DateNow after_cooldown)) by (cbn; lia).
  split; [exact Hi |]. split; [exact Hnow |].
  exact (proj2 (proj2 (cooldown_probe_starts_at_preferred Script scripted
                         degraded_service after_cooldown "hello" Hi Hnow))).
Defined.

(** ** Speech synthesis *)

(** C5: [generateAudio] calls the speech service with one retry and a
    500 ms timer. If the first attempt is rejected with a quota-class
    error, the trace is: first attempt, warning, [setTimeout(500)], second
    attempt, and nothing more is attempted; if the second attempt is
    rejected too, or the first rejection is not quota-class, the method
    logs and returns [undefined]. It never throws and never touches the
    object, and the reply of [chat] carries the generated text whatever
    speech synthesis does. *)
Theorem generateAudio_retries_once (W : Type) (h : handler W) (t : string)
    (s : GladosService) (w : W) :
  service_of (call h (generateAudio t) s w) = s
  /\ (exists a1,
        match a1 with
        | inr response =>
            trace_of (call h (generateAudio t) s w)
            = [Entry (speech_request t) a1]
            /\ outcome_of (call h (generateAudio t) s w)
               = Returned (first_inline_data response)
        | inl e1 =>
            if isQuotaError e1 then
              exists a2,
                trace_of (call h (generateAudio t) s w)
                = [Entry (speech_request t) a1;
                   Entry (Console Warn "Quota exceeded. Retrying") tt;
                   Entry (SetTimeout 500) tt;
                   Entry (speech_request t) a2]
                  ++ match a2 with
                     | inl _ => [Entry (Console Error "TTS Generation failed:") tt]
                     | inr _ => []
                     end
                /\ outcome_of (call h (generateAudio t) s w)
                   = Returned match a2 with
                              | inl _ => None
                              | inr response => first_inline_data response
                              end
            else
              trace_of (call h (generateAudio t) s w)
              = [Entry (speech_request t) a1;
                 Entry (Console Error "TTS Generation failed:") tt]
              /\ outcome_of (call h (generateAudio t) s w) = Returned None
        end)
  /\ (forall message reply,
        outcome_of (call h (generateTextWithFallback message) s w)
        = Returned reply ->
        exists audio,
          outcome_of (call h (chat message) s w)
          = Returned {| text := reply; audioBase64 := audio |}).
Proof.
  destruct (generateAudio_run W h t s w) as (a1 & a2 & w1 & ->).
  cbn [service_of outcome_of trace_of fst snd].
  split; [reflexivity |]. split.
  - exists a1. unfold audio_trace, audio_result.
    destruct a1 as [e1 | r1]; [| auto].
    destruct (isQuotaError e1); [| auto].
    exists a2. destruct a2; auto.
  - intros message reply Hg.
    pose proof (chat_run W h message s w) as Hc.
    destruct (call h (generateTextWithFallback message) s w)
      as [[[o s1] w2] t1].
    cbn in Hg. subst o. destruct Hc as (b1 & b2 & w3 & _ & ->). cbn. eauto.
Qed.

Lemma generateAudio_retries_once_witness :
  outcome_of (call scripted (generateTextWithFallback "hello")
                new_GladosService speech_rejected_twice)
  = Returned "Oh. It's you."
  /\ (exists audio,
        outcome_of (call scripted (chat "hello") new_GladosService
                      speech_rejected_twice)
        = Returned {| text := "Oh. It's you."; audioBase64 := audio |})
  /\ clock (world_of (call scripted (generateAudio "x") new_GladosService
                        speech_rejected_once)) = 500.
Proof.
  split; [reflexivity |].
  split; [| reflexivity].
  exact (proj2 (proj2 (generateAudio_retries_once Script scripted "x"
                         new_GladosService speech_rejected_twice))
           "hello" "Oh. It's you." eq_refl).
Defined.

(** ** The refusal string *)

Lemma last_attempt_after_quiet (t0 t : list entry) :
  text_attempts t0 = [] -> last_attempt (t0 ++ t) = last_attempt t.
Proof.
  unfold last_attempt, text_attempts. intros H0.
  now rewrite collect_app, H0.
Qed.

(** C10, as stated, fails on the fresh service when the first candidate is
    rejected and the second answers with blanks: the refusal string is
    returned although not every attempt resolved with blank text, and the
    index has moved from 0 to 1. *)
Lemma refusal_only_after_blank_replies_fails :
  outcome_of (call scripted (generateTextWithFallback "hello")
                new_GladosService rejected_then_blank)
  = Returned REFUSAL
  /\ map snd
       (text_attempts
          (trace_of (call scripted (generateTextWithFallback "hello")
                       new_GladosService rejected_then_blank)))
     = [inl quota_error; text_reply "  "]
  /\ ~ Forall blank_reply
         (map snd
            (text_attempts
               (trace_of (call scripted (generateTextWithFallback "hello")
                            new_GladosService rejected_then_blank))))
  /\ currentTextModelIndex new_GladosService = 0
  /\ currentTextModelIndex
       (service_of (call scripted (generateTextWithFallback "hello")
                      new_GladosService rejected_then_blank)) = 1.
Proof.
  split; [reflexivity |]. split; [reflexivity |].
  split; [| split; reflexivity].
  intros Hall. inversion Hall as [| a l Hb _]; subst.
  destruct Hb as (r & Hr & _). discriminate Hr.
Qed.

(** C10, amended: if every attempt of [generateTextWithFallback] resolves
    with blank text, the loop runs to the end of the list and the refusal
    string is returned; the loop writes nothing, so the object is as the
    cool-down check left it ([lastModelCheck] as before the call, the index
    as before the call or reset to 0). In general the call ends as the
    answer to its last attempt says: the refusal string when no attempt was
    made or the last one resolved blank (earlier ones may have been
    rejected), the trimmed text when it resolved with text, the error when
    it was rejected. *)
Theorem refusal_follows_last_blank_reply (W : Type) (h : handler W)
    (s : GladosService) (w : W) (message : string) :
  (Forall blank_reply
     (map snd
        (text_attempts
           (trace_of (call h (generateTextWithFallback message) s w)))) ->
   outcome_of (call h (generateTextWithFallback message) s w)
   = Returned REFUSAL
   /\ service_of (call h (generateTextWithFallback message) s w)
      = service_of (call h promote_check s w)
   /\ lastModelCheck
        (service_of (call h (generateTextWithFallback message) s w))
      = lastModelCheck s
   /\ (currentTextModelIndex
         (service_of (call h (generateTextWithFallback message) s w))
       = currentTextModelIndex s
       \/ currentTextModelIndex
            (service_of (call h (generateTextWithFallback message) s w))
          = 0)
   /\ Z.of_nat
        (List.length
           (text_attempts
              (trace_of (call h (generateTextWithFallback message) s w))))
      = Z.max 0
          (length_of s
           - currentTextModelIndex
               (service_of (call h (generateTextWithFallback message) s w))))
  /\ match last_attempt
           (trace_of (call h (generateTextWithFallback message) s w)) with
     | None =>
         outcome_of (call h (generateTextWithFallback message) s w)
         = Returned REFUSAL
     | Some (inl error) =>
         outcome_of (call h (generateTextWithFallback message) s w)
         = Thrown error
     | Some (inr response) =>
         if Js.truthy (option_map Js.trim (resp_text response)) then
           exists t,
             option_map Js.trim (resp_text response) = Some t
             /\ outcome_of (call h (generateTextWithFallback message) s w)
                = Returned t
         else
           outcome_of (call h (generateTextWithFallback message) s w)
           = Returned REFUSAL
     end.
Proof.
  destruct (generateTextWithFallback_run W h message s w)
    as (s1 & w1 & t0 & o & s2 & w2 & t & Hp & Hrun & Hloop & Hgen).
  destruct (promoted_quiet _ _ _ Hp) as [Ht0 _].
  rewrite Hgen, Hrun. cbn [outcome_of service_of trace_of fst snd].
  split.
  - intros Hall. unfold text_attempts in Hall |- *.
    rewrite collect_app in Hall |- *.
    fold (text_attempts t0) in Hall |- *. fold (text_attempts t) in Hall |- *.
    rewrite Ht0 in Hall |- *. cbn [app] in Hall |- *.
    pose proof (mwp_sound _ _ _
                  (for_models_blank message
                     (Z.to_nat (length_of s1 - currentTextModelIndex s1))
                     (currentTextModelIndex s1) s1) W h w1) as Hb.
    rewrite Hloop in Hb. cbn [outcome_of service_of trace_of fst snd] in Hb.
    destruct (Hb Hall) as (-> & -> & ->).
    split; [reflexivity |]. split; [reflexivity |].
    assert (Hlen : length_of s1 = length_of s).
    { destruct Hp as [(_ & -> & _) | (now & _ & _ & ->)]; [reflexivity |].
      now destruct (now - lastModelCheck s >? CHECK_INTERVAL s). }
    split; [| split].
    + destruct Hp as [(_ & -> & _) | (now & _ & _ & ->)]; [reflexivity |].
      now destruct (now - lastModelCheck s >? CHECK_INTERVAL s).
    + destruct Hp as [(_ & -> & _) | (now & _ & _ & ->)]; [now left |].
      destruct (now - lastModelCheck s >? CHECK_INTERVAL s); auto.
    + rewrite Hlen. lia.
  - rewrite (last_attempt_after_quiet _ _ Ht0).
    pose proof (mwp_sound _ _ _
                  (for_models_last message
                     (Z.to_nat (length_of s1 - currentTextModelIndex s1))
                     (currentTextModelIndex s1) s1 eq_refl) W h w1) as Hl.
    rewrite Hloop in Hl. cbn [outcome_of service_of trace_of fst snd] in Hl.
    destruct Hl as [_ ->]. unfold fallback_outcome.
    destruct (last_attempt t) as [[error | response] |]; try reflexivity.
    destruct (option_map Js.trim (resp_text response)) as [x |];
      [| reflexivity].
    destruct (Js.truthy (Some x)); [eauto | reflexivity].
Qed.

Lemma refusal_follows_last_blank_reply_witness :
  Forall blank_reply
    (map snd
       (text_attempts
          (trace_of (call scripted (generateTextWithFallback "hello")
                       new_GladosService
                       (mkScript 0 [text_reply "  "; text_reply EmptyString] [])))))
  /\ outcome_of (call scripted (generateTextWithFallback "hello")
                   new_GladosService
                   (mkScript 0 [text_reply "  "; text_reply EmptyString] []))
     = Returned REFUSAL.
Proof.
  assert (Hall : Forall blank_reply
            (map snd
               (text_attempts
                  (trace_of (call scripted (generateTextWithFallback "hello")
                               new_GladosService
                               (mkScript 0 [text_reply "  "; text_reply EmptyString]
                                  []))))))
    by (repeat constructor; eexists; split; reflexivity).
  split; [exact Hall |].
  exact (proj1 (proj1 (refusal_follows_last_blank_reply Script scripted
                         new_GladosService
                         (mkScript 0 [text_reply "  "; text_reply EmptyString] [])
                         "hello") Hall)).
Defined.

(** ** Streaming, run in an environment *)

Lemma emitted_yield_entries (evs : list StreamEvent) :
  emitted (map yield_entry evs) = evs.
Proof.
  induction evs as [| ev rest IH]; [reflexivity |].
  cbn. unfold emitted in IH. now rewrite IH.
Qed.

Lemma chunk_texts_nonempty (cs : list Chunk) :
  Forall (fun t => t <> EmptyString) (chunk_texts cs).
Proof.
  induction cs as [| c rest IH]; cbn; [constructor |].
  destruct (chunk_text c) as [t |]; [| exact IH].
  destruct (t =? EmptyString)%string eqn:Ht; [exact IH |].
  constructor; [now apply String.eqb_neq | exact IH].
Qed.

Lemma running_totals_growing (ts : list string) :
  forall acc, Forall (fun t => t <> EmptyString) ts ->
              growing (running_totals acc ts).
Proof.
  induction ts as [| t1 rest IH]; intros acc Hne; cbn; [constructor |].
  inversion Hne as [| x l _ Hrest]; subst.
  destruct rest as [| t2 rest']; cbn; [constructor |].
  inversion Hrest as [| x l Ht2 _]; subst.
  apply growing_cons; [exact Ht2 |].
  exact (IH (acc ++ t1)%string Hrest).
Qed.

Lemma last_default {A : Type} (l : list A) :
  forall a d d', last (a :: l) d = last (a :: l) d'.
Proof.
  induction l as [| b l IH]; intros a d d'; [reflexivity |].
  change (last (b :: l) d = last (b :: l) d'). apply IH.
Qed.

Lemma running_totals_last (ts : list string) :
  forall acc, last (running_totals acc ts) acc
              = fold_left String.append ts acc.
Proof.
  induction ts as [| t rest IH]; intros acc; [reflexivity |].
  cbn [running_totals fold_left]. rewrite <- IH.
  destruct rest as [| t2 rest']; [reflexivity |].
  cbn [running_totals].
  change (last ((acc ++ t)%string
                  :: ((acc ++ t) ++ t2)%string
                  :: running_totals ((acc ++ t) ++ t2) rest') acc)
    with (last (((acc ++ t) ++ t2)%string
                  :: running_totals ((acc ++ t) ++ t2) rest') acc).
  apply last_default.
Qed.

Section StreamRun.

Variable W : Type.
Variable h : handler W.
Variable message : string.

Lemma call_await {X : Type} (e : eff (JsError + X)) (s : GladosService)
    (w : W) :
  call h (await e) s w =
  (match fst (h _ e w) with
   | inl error => Thrown error
   | inr x => Returned x
   end, s, snd (h _ e w), [Entry e (fst (h _ e w))]).
Proof.
  unfold call, await. cbn. destruct (h _ e w) as [[error | x] w1]; reflexivity.
Qed.

Lemma for_await_run (cs : list Chunk) (ending : option JsError)
    (acc : string) (s : GladosService) (w : W) :
  exists w1,
    call h (for_await cs ending acc) s w =
    (match ending with
     | None => Returned (fold_left String.append (chunk_texts cs) acc)
     | Some error => Thrown error
     end, s, w1, partial_entries acc cs).
Proof.
  pose proof (mwp_sound (for_await cs ending acc) s
    (fun o s1 tr =>
       o = match ending with
           | None => Returned (fold_left String.append (chunk_texts cs) acc)
           | Some error => Thrown error
           end
       /\ s1 = s /\ tr = partial_entries acc cs)) as H.
  specialize (H (for_await_spec cs ending acc s _
                   (conj eq_refl (conj eq_refl eq_refl))) W h w).
  rewrite (call_shape W (call h (for_await cs ending acc) s w)).
  destruct H as (-> & -> & ->). eauto.
Qed.

(** The [try] block of [chatStream], by the answer to its request. *)
Lemma stream_body_run (s : GladosService) (w : W) :
  match fst (h _ (stream_request s message) w) with
  | inl error =>
      call h (stream_body message) s w =
      (Thrown error, s, snd (h _ (stream_request s message) w),
       [Entry (stream_request s message) (inl error)])
  | inr st =>
      exists w1,
        match failure st with
        | Some error =>
            call h (stream_body message) s w =
            (Thrown error, s, w1,
             Entry (stream_request s message) (inr st)
               :: partial_entries EmptyString (chunks st))
        | None =>
            exists a1 a2,
              call h (stream_body message) s w =
              (Returned tt, s, w1,
               Entry (stream_request s message) (inr st)
                 :: partial_entries EmptyString (chunks st)
                 ++ audio_trace (full_text (chunks st)) a1 a2
                 ++ [yield_entry
                       (terminal_event (full_text (chunks st))
                          (audio_result a1 a2))])
        end
  end.
Proof.
  unfold stream_body. rewrite call_bind.
  change (call h (gets (fun s0 => model_at s0 (currentTextModelIndex s0))) s w)
    with (Returned (model_at s (currentTextModelIndex s)), s, w, @nil entry).
  cbv beta iota. rewrite call_bind, call_await.
  fold (stream_request s message).
  destruct (h _ (stream_request s message) w) as [[error | st] w0];
    cbn [fst snd]; [reflexivity |].
  rewrite call_bind.
  destruct (for_await_run (chunks st) (failure st) EmptyString s w0) as (w1 & ->).
  destruct (failure st) as [error |].
  - exists w1. reflexivity.
  - rewrite call_bind, call_try_catch.
    destruct (generateAudio_run W h (fold_left String.append
                                       (chunk_texts (chunks st)) EmptyString) s w1)
      as (a1 & a2 & w2 & ->).
    rewrite call_perform.
    destruct (h unit (Yield _) w2) as [u w3]. rewrite (unit_eta u).
    exists w3, a1, a2. reflexivity.
Qed.

End StreamRun.

Lemma emitted_of_stream (s : GladosService) (message : string)
    (a : JsError + ResponseStream) (cs : list Chunk) (rest : list entry) :
  emitted (Entry (stream_request s message) a
             :: partial_entries EmptyString cs ++ rest)
  = map partial_event (running_totals EmptyString (chunk_texts cs)) ++ emitted rest.
Proof.
  change (emitted (Entry (stream_request s message) a
                     :: partial_entries EmptyString cs ++ rest))
    with (emitted (partial_entries EmptyString cs ++ rest)).
  unfold emitted at 1. rewrite collect_app.
  fold (emitted (partial_entries EmptyString cs)). fold (emitted rest).
  unfold partial_entries. now rewrite emitted_yield_entries.
Qed.

(** C6, as stated, fails when a chunk carries no text: three chunks
    arrive, the running total after each of them is "Hello", "Hello",
    "Helloworld", but only two cumulative texts are emitted before the
    terminal event. *)
Lemma emission_after_every_chunk_fails :
  List.length silent_chunk = 3%nat
  /\ totals_after_every_chunk EmptyString silent_chunk
     = ["Hello"; "Hello"; "Helloworld"]%string
  /\ emitted (trace_of (call scripted (chatStream "hi") new_GladosService
                          silent_chunk_stream))
     = [partial_event "Hello"; partial_event "Helloworld";
        terminal_event "Helloworld" None]
  /\ emitted (trace_of (call scripted (chatStream "hi") new_GladosService
                          silent_chunk_stream))
     <> map partial_event (totals_after_every_chunk EmptyString silent_chunk)
        ++ [terminal_event "Helloworld" None].
Proof.
  split; [reflexivity |]. split; [reflexivity |]. split; [reflexivity |].
  discriminate.
Qed.

(** C6, amended: when the streaming source delivers the chunks [cs] and
    completes, [chatStream] yields the running total after every chunk
    that carries non-empty text (a chunk without text yields nothing),
    each yielded text being the previous one with something appended, and
    then exactly one terminal event with the full accumulated text; for
    the chunks "Hello", ", ", "world" these are "Hello", "Hello, ",
    "Hello, world" and a terminal event carrying "Hello, world". *)
Theorem chatStream_emits_running_totals (W : Type) (h : handler W)
    (s : GladosService) (w : W) (message : string) (cs : list Chunk) :
  fst (h _ (stream_request s message) w)
  = inr {| chunks := cs; failure := None |} ->
  (exists audio,
     emitted (trace_of (call h (chatStream message) s w))
     = map partial_event (running_totals EmptyString (chunk_texts cs))
       ++ [terminal_event (full_text cs) audio]
     /\ (map chunk_text cs = [Some "Hello"; Some ", "; Some "world"]%string ->
         emitted (trace_of (call h (chatStream message) s w))
         = [partial_event "Hello"; partial_event "Hello, ";
            partial_event "Hello, world";
            terminal_event "Hello, world" audio]))
  /\ growing (running_totals EmptyString (chunk_texts cs))
  /\ last (running_totals EmptyString (chunk_texts cs)) EmptyString = full_text cs
  /\ outcome_of (call h (chatStream message) s w) = Returned tt.
Proof.
  intros Hreply.
  pose proof (stream_body_run W h message s w) as Hbody.
  rewrite Hreply in Hbody. destruct Hbody as (w1 & a1 & a2 & Hbody).
  cbn [chunks] in Hbody.
  assert (Hcall : call h (chatStream message) s w
                  = call h (stream_body message) s w)
    by (unfold chatStream; rewrite call_try_catch, Hbody; reflexivity).
  rewrite Hcall, Hbody. cbn [outcome_of trace_of fst snd].
  split; [| split; [| split]].
  - exists (audio_result a1 a2). rewrite emitted_of_stream.
    assert (Hend : emitted
                     (audio_trace (full_text cs) a1 a2
                        ++ [yield_entry
                              (terminal_event (full_text cs)
                                 (audio_result a1 a2))])
                   = [terminal_event (full_text cs) (audio_result a1 a2)]).
    { unfold emitted. rewrite collect_app.
      destruct (audio_trace_quiet (full_text cs) a1 a2) as (_ & He & _).
      unfold emitted in He. now rewrite He. }
    rewrite Hend. split; [reflexivity |].
    intros Hcs.
    destruct cs as [| [c1] [| [c2] [| [c3] [| c4 rest]]]]; try discriminate Hcs.
    cbn in Hcs. injection Hcs as -> -> ->. reflexivity.
  - apply running_totals_growing, chunk_texts_nonempty.
  - apply running_totals_last.
  - reflexivity.
Qed.

Lemma chatStream_emits_running_totals_witness :
  fst (scripted _ (stream_request new_GladosService "hi") hello_world_stream)
  = inr {| chunks := [mkChunk (Some "Hello"); mkChunk (Some ", ");
                      mkChunk (Some "world")];
           failure := None |}
  /\ exists audio,
       emitted (trace_of (call scripted (chatStream "hi") new_GladosService
                            hello_world_stream))
       = [partial_event "Hello"; partial_event "Hello, ";
          partial_event "Hello, world"; terminal_event "Hello, world" audio].
Proof.
  split; [reflexivity |].
  destruct (proj1 (chatStream_emits_running_totals Script scripted
                     new_GladosService hello_world_stream "hi"
                     [mkChunk (Some "Hello"); mkChunk (Some ", ");
                      mkChunk (Some "world")] eq_refl))
    as (audio & _ & Hhello).
  exists audio. exact (Hhello eq_refl).
Defined.

(** C7: when the streaming request is rejected or the stream breaks off,
    [chatStream] runs [chat] on the same message and object and yields its
    result, marked [done], as the only terminal event; whatever was
    yielded before it is not marked [done]; [chatStream] itself does not
    throw. *)
Theorem chatStream_falls_back_to_chat (W : Type) (h : handler W)
    (s : GladosService) (w : W) (message : string) :
  stream_fails (fst (h _ (stream_request s message) w)) ->
  exists (t1 : list entry) (w1 : W) (result : ChatResult)
         (s2 : GladosService) (w2 : W) (t2 : list entry) (w3 : W),
    call h (chat message) s w1 = (Returned result, s2, w2, t2)
    /\ call h (chatStream message) s w
       = (Returned tt, s2, w3,
          t1 ++ t2 ++ [Entry (Yield (terminal_of result)) tt])
    /\ Forall (fun ev => done ev = None) (emitted t1)
    /\ emitted (trace_of (call h (chatStream message) s w))
       = emitted t1
         ++ [{| ev_text := Some (text result);
                ev_audioBase64 := audioBase64 result;
                done := Some true |}].
Proof.
  intros Hfail.
  assert (Hbody : exists error w0 t0,
            call h (stream_body message) s w = (Thrown error, s, w0, t0)
            /\ Forall (fun ev => done ev = None) (emitted t0)).
  { pose proof (stream_body_run W h message s w) as Hb.
    destruct (fst (h _ (stream_request s message) w)) as [error | st].
    - exists error. eexists. eexists. split; [exact Hb |]. constructor.
    - destruct Hb as (w0 & Hb). cbn in Hfail.
      destruct (failure st) as [error |]; [| now elim Hfail].
      exists error, w0. eexists. split; [exact Hb |].
      rewrite <- (app_nil_r (partial_entries EmptyString (chunks st))).
      rewrite emitted_of_stream. cbn [emitted collect]. rewrite app_nil_r.
      apply Forall_forall. intros ev Hin.
      apply in_map_iff in Hin. destruct Hin as (t & <- & _). reflexivity. }
  destruct Hbody as (error & w0 & t0 & Hbody & Hpartial).
  destruct (h unit (Console Error "GLaDOS Stream Error:") w0) as [u w1] eqn:Hlog.
  pose proof (mwp_sound _ _ _ (chat_resolves message s) W h w1) as Hchat.
  destruct (call h (chat message) s w1) as [[[oc s2] w2] t2] eqn:Hc.
  cbn [outcome_of service_of trace_of fst snd] in Hchat.
  destruct Hchat as ((result & ->) & Hquiet & _).
  destruct (h unit (Yield (terminal_of result)) w2) as [u2 w3] eqn:Hyield.
  exists (t0 ++ [stream_failed]), w1, result, s2, w2, t2, w3.
  split; [exact Hc |].
  assert (Hrun : call h (chatStream message) s w
                 = (Returned tt, s2, w3,
                    (t0 ++ [stream_failed]) ++ t2
                      ++ [Entry (Yield (terminal_of result)) tt])).
  { unfold chatStream. rewrite call_try_catch, Hbody.
    rewrite call_bind, call_perform, Hlog, call_bind, Hc, call_perform, Hyield.
    rewrite (unit_eta u), (unit_eta u2). cbn [app].
    now rewrite <- app_assoc. }
  split; [exact Hrun |]. split.
  - unfold emitted. rewrite collect_app. cbn. now rewrite app_nil_r.
  - rewrite Hrun. cbn [trace_of snd]. unfold emitted in *.
    rewrite !collect_app, Hquiet. cbn. now rewrite app_nil_r.
Qed.

Lemma chatStream_falls_back_to_chat_witness :
  stream_fails
    (fst (scripted _ (stream_request new_GladosService "hi") broken_stream))
  /\ exists (t1 : list entry) (result : ChatResult),
       Forall (fun ev => done ev = None) (emitted t1)
       /\ emitted (trace_of (call scripted (chatStream "hi") new_GladosService
                               broken_stream))
          = emitted t1
            ++ [{| ev_text := Some (text result);
                   ev_audioBase64 := audioBase64 result;
                   done := Some true |}].
Proof.
  assert (Hfail : stream_fails
            (fst (scripted _ (stream_request new_GladosService "hi")
                    broken_stream))) by (cbn; discriminate).
  split; [exact Hfail |].
  destruct (chatStream_falls_back_to_chat Script scripted new_GladosService
              broken_stream "hi" Hfail)
    as (t1 & w1 & result & s2 & w2 & t2 & w3 & _ & _ & Hpartial & Hemit).
  exists t1, result. split; [exact Hpartial | exact Hemit].
Defined.

(** The same run, evaluated: the partial text "Hel" is followed by the
    reply of [chat], not by a continuation of that text. *)
Example broken_stream_events :
  emitted (trace_of (call scripted (chatStream "hi") new_GladosService
                       broken_stream))
  = [partial_event "Hel";
     {| ev_text := Some "Oh. It's you.";
        ev_audioBase64 := Some "AQIDBA==";
        done := Some true |}].
Proof. reflexivity. Qed.

(** * The decode step of the playback pipeline *)

Module PlaybackFacts.

Import Playback.

(** Induction two elements at a time. *)
Lemma list_ind_pairs {A : Type} (P : list A -> Prop) :
  P [] -> (forall a, P [a]) -> (forall a b l, P l -> P (a :: b :: l)) ->
  forall l, P l.
Proof.
  intros H0 H1 H2 l.
  assert (H : P l /\ forall a, P (a :: l)).
  { induction l as [| b l [IHl IHc]]; [auto |].
    split; [apply IHc | intros a; apply H2, IHl]. }
  apply H.
Qed.

(** Induction three elements at a time. *)
Lemma list_ind_triples {A : Type} (P : list A -> Prop) :
  P [] -> (forall a, P [a]) -> (forall a b, P [a; b]) ->
  (forall a b c l, P l -> P (a :: b :: c :: l)) ->
  forall l, P l.
Proof.
  intros H0 H1 H2 H3 l.
  assert (H : P l /\ (forall a, P (a :: l)) /\ forall a b, P (a :: b :: l)).
  { induction l as [| c l (IHl & IH1 & IH2)]; [auto |].
    split; [apply IH1 |]. split; [intros a; apply IH2 |].
    intros a b. apply H3, IHl. }
  apply H.
Qed.

Lemma int16_view_length (buffer : list Z) :
  List.length (int16_view buffer) = (List.length buffer / 2)%nat.
Proof.
  induction buffer as [| a | a b l IH] using list_ind_pairs;
    [reflexivity | reflexivity |].
  cbn [int16_view List.length]. rewrite IH.
  change (S (S (List.length l))) with (2 + List.length l)%nat.
  symmetry. rewrite Nat.add_comm.
  rewrite <- (Nat.mul_1_l 2) at 1. now rewrite Nat.div_add, Nat.add_comm.
Qed.

Lemma slice_even_length (bytes : list Z) :
  Z.of_nat (List.length (slice_even bytes)) mod 2 = 0.
Proof.
  unfold slice_even. rewrite length_firstn.
  pose proof (Z.mod_pos_bound (Z.of_nat (List.length bytes)) 2 eq_refl).
  pose proof (Z.mod_le (Z.of_nat (List.length bytes)) 2
                (Nat2Z.is_nonneg _) eq_refl).
  rewrite Nat.min_l by lia.
  rewrite Z2Nat.id by lia.
  pose proof (Z.div_mod (Z.of_nat (List.length bytes)) 2).
  replace (Z.of_nat (List.length bytes) - Z.of_nat (List.length bytes) mod 2)
    with (Z.of_nat (List.length bytes) / 2 * 2) by lia.
  apply Z.mod_mul. lia.
Qed.

Lemma slice_even_odd (bytes : list Z) :
  Nat.odd (List.length bytes) = true ->
  slice_even bytes = removelast bytes.
Proof.
  intros Hodd. unfold slice_even.
  rewrite removelast_firstn_len. f_equal.
  apply Nat.odd_spec in Hodd. destruct Hodd as [k Hk].
  rewrite Hk.
  replace (Z.of_nat (2 * k + 1)) with (2 * Z.of_nat k + 1) by lia.
  replace ((2 * Z.of_nat k + 1) mod 2) with 1
    by (rewrite Z.add_comm, Z.mul_comm, Z.mod_add by lia; reflexivity).
  lia.
Qed.

Lemma slice_even_even (bytes : list Z) :
  Nat.even (List.length bytes) = true -> slice_even bytes = bytes.
Proof.
  intros Heven. unfold slice_even.
  apply Nat.even_spec in Heven. destruct Heven as [k Hk].
  replace (Z.of_nat (List.length bytes) mod 2) with 0.
  - rewrite Z.sub_0_r, Nat2Z.id. apply firstn_all.
  - rewrite Hk.
    replace (Z.of_nat (2 * k)) with (Z.of_nat k * 2) by lia.
    now rewrite Z.mod_mul by lia.
Qed.

(** Once [atob] has returned, the rest of the decode step cannot fail. *)
Lemma decode_of_binary_string (base64 : string) (binaryString : list Z) :
  atob base64 = Some binaryString ->
  decode base64 =
  Some (map normalize (int16_view (slice_even (Uint8Array_of binaryString)))).
Proof.
  intros Hatob. unfold decode, Int16Array_of. rewrite Hatob.
  now rewrite slice_even_length.
Qed.

(** C8: when the payload decodes to an odd number of bytes, the decode
    step raises nothing, views all bytes but the last as 16-bit samples and
    so produces [(length - 1) / 2] samples; a payload of five bytes gives
    exactly the two samples of its first four bytes. *)
Theorem odd_payload_drops_trailing_byte (base64 : string)
    (binaryString : list Z) :
  atob base64 = Some binaryString ->
  Nat.odd (List.length binaryString) = true ->
  decode base64
  = Some (map normalize
            (int16_view (removelast (Uint8Array_of binaryString))))
  /\ (exists samples,
        decode base64 = Some samples
        /\ List.length samples
           = ((List.length binaryString - 1) / 2)%nat)
  /\ (forall b1 b2 b3 b4 b5,
        binaryString = [b1; b2; b3; b4; b5] ->
        decode base64
        = Some [normalize (to_int16 (b1 mod 256 + 256 * (b2 mod 256)));
                normalize (to_int16 (b3 mod 256 + 256 * (b4 mod 256)))]).
Proof.
  intros Hatob Hodd.
  assert (Hdec : decode base64
                 = Some (map normalize
                           (int16_view
                              (removelast (Uint8Array_of binaryString))))).
  { rewrite (decode_of_binary_string _ _ Hatob).
    rewrite slice_even_odd; [reflexivity |].
    unfold Uint8Array_of. now rewrite length_map. }
  split; [exact Hdec |]. split.
  - eexists. split; [exact Hdec |].
    rewrite length_map, int16_view_length, removelast_firstn_len.
    rewrite length_firstn. unfold Uint8Array_of. rewrite length_map.
    f_equal. lia.
  - intros b1 b2 b3 b4 b5 ->. rewrite Hdec. reflexivity.
Qed.

Lemma odd_payload_drops_trailing_byte_witness :
  atob "AQIDBAU=" = Some [1; 2; 3; 4; 5]
  /\ Nat.odd (List.length [1; 2; 3; 4; 5]) = true
  /\ decode "AQIDBAU=" = Some [Qmake 513 32768; Qmake 1027 32768].
Proof.
  split; [reflexivity |]. split; [reflexivity |].
  exact (proj2 (proj2 (odd_payload_drops_trailing_byte "AQIDBAU="
                         [1; 2; 3; 4; 5] eq_refl eq_refl))
           1 2 3 4 5 eq_refl).
Defined.

(** *** Base64 round trip *)

Lemma b64_check_all : forallb b64_check (seq 0 64) = true.
Proof. vm_compute. reflexivity. Qed.

Lemma b64_char_facts (v : Z) :
  0 <= v < 64 ->
  b64_value (b64_char v) = Some v
  /\ is_ascii_whitespace (b64_char v) = false
  /\ Ascii.eqb (b64_char v) pad = false.
Proof.
  intros Hv.
  pose proof (proj1 (forallb_forall _ _) b64_check_all (Z.to_nat v)) as H.
  assert (Hin : In (Z.to_nat v) (seq 0 64)) by (apply in_seq; lia).
  specialize (H Hin). unfold b64_check in H.
  rewrite Z2Nat.id in H by lia. cbv zeta in H.
  apply andb_true_iff in H. destruct H as [H Hpad].
  apply andb_true_iff in H. destruct H as [Hval Hws].
  apply negb_true_iff in Hpad, Hws.
  destruct (b64_value (b64_char v)) as [v' |]; [| discriminate Hval].
  apply Z.eqb_eq in Hval. subst v'. auto.
Qed.

Lemma strip_padding_cons (c : ascii) (t : list ascii) :
  Ascii.eqb c pad = false -> strip_padding (c :: t) = c :: strip_padding t.
Proof.
  intros Hc. cbn [strip_padding]. destruct t as [| d [| e t]].
  - now rewrite Hc.
  - now rewrite Hc.
  - reflexivity.
Qed.

Lemma strip_padding_pad : strip_padding [pad] = [].
Proof. reflexivity. Qed.

Lemma strip_padding_pad_pad : strip_padding [pad; pad] = [].
Proof. reflexivity. Qed.

Ltac sextet_range :=
  match goal with
  | |- 0 <= _ < 64 => unfold is_byte in *; Z.div_mod_to_equations; lia
  end.

(** What each step of [atob] does to the output of [btoa]. *)
Lemma atob_steps_of_btoa (bs : list Z) :
  Forall is_byte bs ->
  filter (fun c => negb (is_ascii_whitespace c)) (btoa_chars bs)
  = btoa_chars bs
  /\ Z.of_nat (List.length (btoa_chars bs)) mod 4 = 0
  /\ Z.of_nat (List.length (strip_padding (btoa_chars bs))) mod 4 <> 1
  /\ option_map bytes_of_values (values_of (strip_padding (btoa_chars bs)))
     = Some bs.
Proof.
  induction bs as [| b1 | b1 b2 | b1 b2 b3 rest IH] using list_ind_triples;
    intros Hbytes.
  - cbn. repeat split; discriminate.
  - inversion Hbytes as [| x l H1 _]; subst.
    cbn [btoa_chars].
    destruct (b64_char_facts (b1 / 4)) as (V1 & W1 & P1); [sextet_range |].
    destruct (b64_char_facts (b1 mod 4 * 16)) as (V2 & W2 & P2);
      [sextet_range |].
    cbn [filter]. rewrite W1, W2. cbn [negb].
    rewrite !strip_padding_cons, strip_padding_pad_pad by assumption.
    cbn [values_of]. rewrite V1, V2. cbn.
    repeat split; try discriminate.
    f_equal. f_equal. unfold is_byte in *. Z.div_mod_to_equations. lia.
  - inversion Hbytes as [| x l H1 Hrest]; subst.
    inversion Hrest as [| x l H2 _]; subst.
    cbn [btoa_chars].
    destruct (b64_char_facts (b1 / 4)) as (V1 & W1 & P1); [sextet_range |].
    destruct (b64_char_facts (b1 mod 4 * 16 + b2 / 16)) as (V2 & W2 & P2);
      [sextet_range |].
    destruct (b64_char_facts (b2 mod 16 * 4)) as (V3 & W3 & P3);
      [sextet_range |].
    cbn [filter]. rewrite W1, W2, W3. cbn [negb].
    rewrite !strip_padding_cons, strip_padding_pad by assumption.
    cbn [values_of]. rewrite V1, V2, V3. cbn.
    repeat split; try discriminate.
    f_equal. unfold is_byte in *.
    f_equal; [| f_equal]; Z.div_mod_to_equations; lia.
  - inversion Hbytes as [| x l H1 Hrest]; subst.
    inversion Hrest as [| x l H2 Hrest2]; subst.
    inversion Hrest2 as [| x l H3 Hrest3]; subst.
    destruct (IH Hrest3) as (Hf & Hlen & Hstrip & Hval).
    cbn [btoa_chars].
    destruct (b64_char_facts (b1 / 4)) as (V1 & W1 & P1); [sextet_range |].
    destruct (b64_char_facts (b1 mod 4 * 16 + b2 / 16)) as (V2 & W2 & P2);
      [sextet_range |].
    destruct (b64_char_facts (b2 mod 16 * 4 + b3 / 64)) as (V3 & W3 & P3);
      [sextet_range |].
    destruct (b64_char_facts (b3 mod 64)) as (V4 & W4 & P4); [sextet_range |].
    cbn [filter]. rewrite W1, W2, W3, W4. cbn [negb]. rewrite Hf.
    rewrite !strip_padding_cons by assumption.
    cbn [values_of]. rewrite V1, V2, V3, V4.
    cbn [List.length].
    split; [reflexivity |]. split; [| split].
    + rewrite !Nat2Z.inj_succ.
      replace (Z.succ (Z.succ (Z.succ (Z.succ
                 (Z.of_nat (List.length (btoa_chars rest)))))))
        with (Z.of_nat (List.length (btoa_chars rest)) + 1 * 4) by lia.
      now rewrite Z.mod_add by lia.
    + rewrite !Nat2Z.inj_succ.
      replace (Z.succ (Z.succ (Z.succ (Z.succ
                 (Z.of_nat (List.length (strip_padding (btoa_chars rest))))))))
        with (Z.of_nat (List.length (strip_padding (btoa_chars rest)))
              + 1 * 4) by lia.
      now rewrite Z.mod_add by lia.
    + destruct (values_of (strip_padding (btoa_chars rest))) as [vs |];
        [| discriminate Hval].
      cbn in Hval. injection Hval as Hval.
      cbn [option_map bytes_of_values]. rewrite Hval.
      f_equal. unfold is_byte in *.
      f_equal; [| f_equal; [| f_equal]]; Z.div_mod_to_equations; lia.
Qed.

Lemma atob_btoa (bs : list Z) :
  Forall is_byte bs -> atob (btoa bs) = Some bs.
Proof.
  intros Hbytes.
  destruct (atob_steps_of_btoa bs Hbytes) as (Hf & Hlen & Hstrip & Hval).
  unfold atob, btoa. rewrite list_ascii_of_string_of_list_ascii.
  rewrite Hf, Hlen. cbn [Z.eqb].
  apply Z.eqb_neq in Hstrip. now rewrite Hstrip.
Qed.

(** *** PCM round trip *)

Lemma pcm_bytes_are_bytes (samples : list Z) :
  Forall is_byte (pcm_bytes samples).
Proof.
  induction samples as [| s rest IH]; cbn; [constructor |].
  constructor; [| constructor; [| exact IH]];
    unfold is_byte; apply Z.mod_pos_bound; lia.
Qed.

Lemma Uint8Array_of_bytes (bs : list Z) :
  Forall is_byte bs -> Uint8Array_of bs = bs.
Proof.
  induction 1 as [| b l Hb _ IH]; [reflexivity |].
  unfold Uint8Array_of in *. cbn. rewrite IH.
  now rewrite Z.mod_small by exact Hb.
Qed.

Lemma pcm_bytes_even (samples : list Z) :
  Nat.even (List.length (pcm_bytes samples)) = true.
Proof.
  induction samples as [| s rest IH]; [reflexivity |]. exact IH.
Qed.

Lemma int16_of_pcm_pair (sample : Z) :
  is_int16 sample ->
  to_int16 (sample mod 256 + 256 * (sample / 256 mod 256)) = sample.
Proof.
  unfold is_int16, to_int16. intros Hs.
  destruct (Z.ltb_spec (sample mod 256 + 256 * (sample / 256 mod 256)) 32768);
    Z.div_mod_to_equations; lia.
Qed.

Lemma int16_view_pcm_bytes (samples : list Z) :
  Forall is_int16 samples -> int16_view (pcm_bytes samples) = samples.
Proof.
  induction 1 as [| s l Hs _ IH]; [reflexivity |].
  cbn [pcm_bytes int16_view]. now rewrite IH, int16_of_pcm_pair.
Qed.

Lemma normalize_is_quotient (sample : Z) :
  (normalize sample == inject_Z sample / inject_Z 32768)%Q.
Proof.
  unfold normalize, Qeq, Qdiv, Qmult, Qinv, inject_Z. cbn. lia.
Qed.

Lemma normalize_binary32 (sample : Z) :
  is_int16 sample -> binary32 (normalize sample).
Proof.
  unfold is_int16. intros Hs. exists sample, (-15).
  split; [lia |]. split; [lia |].
  unfold normalize, Qeq. cbn. lia.
Qed.

(** C9: for every list of int16 samples, encoding them as little-endian
    PCM bytes in base64 and running the decode step gives back as many
    values as there were samples, the value for each sample being the
    sample divided by 32768: the exact quotient, which is a binary32
    number, so that no rounding takes place. *)
Theorem pcm_round_trip (samples : list Z) :
  Forall is_int16 samples ->
  decode (encode samples) = Some (map normalize samples)
  /\ List.length (map normalize samples) = List.length samples
  /\ Forall2 (fun value sample =>
                (value == inject_Z sample / inject_Z 32768)%Q)
       (map normalize samples) samples
  /\ Forall binary32 (map normalize samples).
Proof.
  intros Hs. split; [| split; [| split]].
  - unfold encode.
    rewrite (decode_of_binary_string _ _
               (atob_btoa _ (pcm_bytes_are_bytes samples))).
    rewrite (Uint8Array_of_bytes _ (pcm_bytes_are_bytes samples)).
    rewrite (slice_even_even _ (pcm_bytes_even samples)).
    now rewrite (int16_view_pcm_bytes _ Hs).
  - apply length_map.
  - clear Hs. induction samples as [| s rest IH]; cbn; constructor;
      [apply normalize_is_quotient | exact IH].
  - induction Hs as [| s rest Hs _ IH]; cbn; constructor;
      [now apply normalize_binary32 | exact IH].
Qed.

Lemma pcm_round_trip_witness :
  Forall is_int16 [1; -1; -32768; 32767; 0]
  /\ encode [1; -1; -32768; 32767; 0] = "AQD//wCA/38AAA=="%string
  /\ decode "AQD//wCA/38AAA=="
     = Some [Qmake 1 32768; Qmake (-1) 32768; Qmake (-32768) 32768;
             Qmake 32767 32768; Qmake 0 32768].
Proof.
  assert (Hs : Forall is_int16 [1; -1; -32768; 32767; 0])
    by (repeat constructor; unfold is_int16; lia).
  split; [exact Hs |]. split; [reflexivity |].
  exact (proj1 (pcm_round_trip [1; -1; -32768; 32767; 0] Hs)).
Defined.

End PlaybackFacts.

(** * Further properties of the service *)

(** ** The retry schedule of [withRetry] *)

Lemma backoff_cons (delay : Z) (k : nat) :
  backoff delay (S k) = delay :: backoff (delay * 2) k.
Proof.
  unfold backoff. cbn [seq map]. f_equal; [cbn; lia |].
  rewrite <- seq_shift, map_map. apply map_ext. intros j.
  rewrite Nat2Z.inj_succ, Z.pow_succ_r by lia. lia.
Qed.

Lemma withRetry_schedule (model : option string) (contents : string)
    (config : GenConfig) (retries : nat) :
  forall (delay : Z) (s : GladosService),
    mwp (withRetry (await (GenerateContent model contents config))
           retries delay) s
      (fun o s' tr =>
         s' = s
         /\ exists k,
              (k <= retries)%nat
              /\ timeouts tr = backoff delay k
              /\ service_calls tr = S k
              /\ (forall error, o = Thrown error ->
                    k = retries \/ isQuotaError error = false)).
Proof.
  induction retries as [| n IH]; intros delay s; cbn [withRetry];
    apply mwp_try_catch; apply mwp_await; intros [error | response].
  - split; [reflexivity |]. exists O. repeat split; auto.
  - split; [reflexivity |]. exists O. repeat split; auto.
  - destruct (isQuotaError error) eqn:Hq.
    + apply mwp_bind. apply mwp_perform. intros u.
      apply mwp_bind. apply mwp_perform. intros u2.
      eapply mwp_mono; [| apply (IH (delay * 2) s)].
      intros o s' tr (Hs & k & Hk & Ht & Hc & Ho).
      split; [exact Hs |]. exists (S k).
      split; [lia |]. split; [| split].
      * rewrite backoff_cons. cbn. unfold timeouts in Ht. now rewrite Ht.
      * cbn. unfold service_calls in Hc. now rewrite Hc.
      * intros err Herr. destruct (Ho err Herr) as [-> | Hn]; auto.
    + split; [reflexivity |]. exists O.
      split; [lia |]. repeat split. intros err [= <-]. auto.
  - split; [reflexivity |]. exists O.
    split; [lia |]. repeat split. discriminate.
Qed.

(** X1: [withRetry] around a service call, with any retry budget and any
    base delay: the call is made [k + 1] times for some [k] within the
    budget, the timers set between the calls are [delay], [2 * delay],
    [4 * delay], ... ([k] of them), the service object is not touched, and
    an error is only thrown once the budget is used up or when the error is
    not quota-class. *)
Theorem withRetry_backs_off_exponentially (W : Type) (h : handler W)
    (model : option string) (contents : string) (config : GenConfig)
    (retries : nat) (delay : Z) (s : GladosService) (w : W) :
  service_of (call h (withRetry (await (GenerateContent model contents config))
                        retries delay) s w) = s
  /\ exists k,
       (k <= retries)%nat
       /\ timeouts
            (trace_of (call h (withRetry
                                 (await (GenerateContent model contents config))
                                 retries delay) s w))
          = map (fun j => delay * 2 ^ Z.of_nat j) (seq 0 k)
       /\ service_calls
            (trace_of (call h (withRetry
                                 (await (GenerateContent model contents config))
                                 retries delay) s w))
          = S k
       /\ (forall error,
             outcome_of (call h (withRetry
                                   (await (GenerateContent model contents config))
                                   retries delay) s w)
             = Thrown error ->
             k = retries \/ isQuotaError error = false).
Proof.
  exact (mwp_sound _ _ _
           (withRetry_schedule model contents config retries delay s) W h w).
Qed.

(** ** More about the fallback loop *)

Lemma skipn_nth_error {A : Type} (l : list A) :
  forall k m, nth_error l k = Some m -> skipn k l = m :: skipn (S k) l.
Proof.
  induction l as [| a l IH]; intros [| k] m H; try discriminate H.
  - cbn in H. injection H as ->. reflexivity.
  - cbn in H. apply (IH k m H).
Qed.

Lemma last_cons_nonempty {A : Type} (x : A) (l : list A) (d : A) :
  l <> [] -> last (x :: l) d = last l d.
Proof. destruct l; [intros H; now elim H | reflexivity]. Qed.

Section MoreLoop.

Variable message : string.

Lemma models_asked_cons (s : GladosService) (i : Z)
    (a : JsError + GenerateContentResponse) (tr : list entry) :
  models_asked (Entry (text_request s i message) a :: tr)
  = model_at s i :: models_asked tr.
Proof. reflexivity. Qed.

Lemma answers_cons (s : GladosService) (i : Z)
    (a : JsError + GenerateContentResponse) (tr : list entry) :
  answers (Entry (text_request s i message) a :: tr) = a :: answers tr.
Proof. reflexivity. Qed.

Lemma model_at_in_range (s : GladosService) (i : Z) (n : nat) :
  0 <= i -> S n = Z.to_nat (length_of s - i) ->
  exists m, model_at s i = Some m
            /\ skipn (Z.to_nat i) (textModels s)
               = m :: skipn (Z.to_nat (i + 1)) (textModels s).
Proof.
  intros Hi Hn. unfold model_at, length_of in *.
  destruct (Z.ltb_spec i 0) as [Hneg | _]; [lia |].
  destruct (nth_error (textModels s) (Z.to_nat i)) as [m |] eqn:Hm.
  - exists m. split; [reflexivity |].
    rewrite Z2Nat.inj_add by lia. rewrite Nat.add_1_r.
    now apply skipn_nth_error.
  - apply nth_error_None in Hm. lia.
Qed.

(** The models are asked in list order, starting at the index. *)
Lemma for_models_order (n : nat) :
  forall (i : Z) (s : GladosService),
    0 <= i -> n = Z.to_nat (length_of s - i) ->
    mwp (for_models n i message) s
      (fun _ _ tr =>
         exists k,
           (k <= n)%nat
           /\ models_asked tr
              = map Some (firstn k (skipn (Z.to_nat i) (textModels s)))).
Proof.
  induction n as [| n IH]; intros i s Hi Hn.
  - unfold mwp. cbn. exists O. split; [lia | reflexivity].
  - destruct (model_at_in_range s i n Hi Hn) as (m & Hm & Hskip).
    assert (Hone : forall a,
              exists k, (k <= S n)%nat
                /\ models_asked [Entry (text_request s i message) a]
                   = map Some (firstn k (skipn (Z.to_nat i) (textModels s)))).
    { intros a. exists 1%nat. split; [lia |].
      rewrite models_asked_cons, Hm, Hskip. reflexivity. }
    assert (Hmore : forall a (s2 : GladosService),
              textModels s2 = textModels s ->
              mwp (for_models n (i + 1) message) s2
                (fun _ _ t2 =>
                   exists k, (k <= S n)%nat
                     /\ models_asked (Entry (text_request s i message) a :: t2)
                        = map Some
                            (firstn k (skipn (Z.to_nat i) (textModels s))))).
    { intros a s2 Hs2. eapply mwp_mono; [| apply (IH (i + 1) s2)].
      - intros _ _ t2 (k & Hk & Hm2). exists (S k). split; [lia |].
        rewrite models_asked_cons, Hm, Hm2, Hskip, Hs2. reflexivity.
      - lia.
      - unfold length_of in *. rewrite Hs2. lia. }
    cbn [for_models]. apply mwp_bind. apply attempt_spec.
    intros [error | response].
    + destruct (i <? length_of s - 1).
      * cbv beta iota. cbn [app]. now apply Hmore.
      * apply Hone.
    + cbn zeta.
      destruct (Js.truthy (option_map Js.trim (resp_text response))).
      * intros now. destruct (option_map Js.trim (resp_text response)).
        -- unfold mwp. cbn [ret wp fst snd app].
           exists 1%nat. split; [lia |].
           change (models_asked
                     [Entry (text_request s i message) (inr response);
                      Entry DateNow now])
             with [model_at s i].
           rewrite Hm, Hskip. reflexivity.
        -- cbv beta iota. cbn [app].
           apply (Hmore (inr response)
                    (set_lastModelCheck now (set_currentTextModelIndex i s))
                    eq_refl).
      * cbv beta iota. cbn [app]. now apply Hmore.
Qed.

(** When the last attempt resolved with text, the index points at the
    model that gave it and [lastModelCheck] is the one clock reading of the
    loop. *)
Lemma for_models_success (n : nat) :
  forall (i : Z) (s : GladosService),
    mwp (for_models n i message) s
      (fun _ s' tr =>
         forall response,
           last_attempt tr = Some (inr response) ->
           Js.truthy (option_map Js.trim (resp_text response)) = true ->
           last (models_asked tr) None
           = model_at s' (currentTextModelIndex s')
           /\ clock_readings tr = [lastModelCheck s']).
Proof.
  induction n as [| n IH]; intros i s.
  - unfold mwp. cbn. discriminate.
  - assert (Hmore : forall a (s2 : GladosService),
              (forall response,
                 a = inr response ->
                 Js.truthy (option_map Js.trim (resp_text response)) = false) ->
              mwp (for_models n (i + 1) message) s2
                (fun _ s' t2 =>
                   forall response,
                     last_attempt (Entry (text_request s i message) a :: t2)
                     = Some (inr response) ->
                     Js.truthy (option_map Js.trim (resp_text response)) = true ->
                     last (models_asked
                             (Entry (text_request s i message) a :: t2)) None
                     = model_at s' (currentTextModelIndex s')
                     /\ clock_readings
                          (Entry (text_request s i message) a :: t2)
                        = [lastModelCheck s'])).
    { intros a s2 Ha. eapply mwp_mono; [| apply (IH (i + 1) s2)].
      intros o s' t2 H response Hlast Htruthy.
      rewrite last_attempt_cons in Hlast.
      destruct (text_attempts t2) as [| p l] eqn:Ht2.
      - injection Hlast as Hlast. rewrite (Ha response Hlast) in Htruthy.
        discriminate Htruthy.
      - destruct (H response Hlast Htruthy) as [Hm Hc].
        split; [| exact Hc].
        rewrite models_asked_cons, last_cons_nonempty; [exact Hm |].
        unfold models_asked. rewrite Ht2. discriminate. }
    cbn [for_models]. apply mwp_bind. apply attempt_spec.
    intros [error | response].
    + destruct (i <? length_of s - 1).
      * cbv beta iota. cbn [app]. apply Hmore. discriminate.
      * intros r Hlast. discriminate Hlast.
    + cbn zeta.
      destruct (Js.truthy (option_map Js.trim (resp_text response))) eqn:Ht.
      * intros now.
        destruct (option_map Js.trim (resp_text response)) as [t |] eqn:Hr;
          [| discriminate Ht].
        unfold mwp. cbn [ret wp fst snd app].
        intros r _ _. split; reflexivity.
      * cbv beta iota. cbn [app]. apply Hmore.
        intros r [= <-]. exact Ht.
Qed.

(** Every attempt rejected, for whatever reason. *)
Lemma for_models_rejected (n : nat) :
  forall (i : Z) (s : GladosService),
    n = Z.to_nat (length_of s - i) ->
    currentTextModelIndex s = i ->
    mwp (for_models n i message) s
      (fun o s' tr =>
         Forall rejected (answers tr) ->
         n <> O ->
         exists error,
           o = Thrown error
           /\ last_attempt tr = Some (inl error)
           /\ currentTextModelIndex s' = length_of s - 1
           /\ lastModelCheck s' = lastModelCheck s
           /\ List.length (text_attempts tr) = n).
Proof.
  induction n as [| n IH]; intros i s Hn Hi.
  - unfold mwp. cbn. intros _ H. now elim H.
  - cbn [for_models]. apply mwp_bind. apply attempt_spec.
    intros [error | response].
    + destruct (i <? length_of s - 1) eqn:Hlt.
      * apply Z.ltb_lt in Hlt. cbv beta iota. cbn [app].
        eapply mwp_mono;
          [| apply (IH (i + 1) (set_currentTextModelIndex (i + 1) s))].
        -- intros o s' tr H Hall _. rewrite answers_cons in Hall.
           inversion Hall as [| a l _ Hrest]; subst.
           destruct H as (e & Ho & Hl & Hidx & Hlast & Hlen);
             [exact Hrest | lia |].
           exists e. split; [exact Ho |]. split; [| split; [| split]].
           ++ rewrite last_attempt_cons.
              destruct (text_attempts tr) as [| p l'] eqn:Htr; [| exact Hl].
              cbn in Hlen. lia.
           ++ exact Hidx.
           ++ exact Hlast.
           ++ rewrite (text_attempts_cons message). cbn [List.length].
              now rewrite Hlen.
        -- change (length_of (set_currentTextModelIndex (i + 1) s))
             with (length_of s). lia.
        -- reflexivity.
      * apply Z.ltb_ge in Hlt. intros _ _. exists error.
        split; [reflexivity |]. split; [reflexivity |].
        split; [lia |]. split; [reflexivity |]. cbn. lia.
    + cbn zeta.
      assert (Hno : ~ rejected
                      (@inr JsError GenerateContentResponse response))
        by (intros (e & He); discriminate He).
      destruct (Js.truthy (option_map Js.trim (resp_text response))).
      * intros now. cbv beta iota. cbn [app].
        eapply mwp_mono; [| apply mwp_any].
        intros o s' tr _ Hall. rewrite answers_cons in Hall.
        inversion Hall; subst; contradiction.
      * cbv beta iota. cbn [app]. eapply mwp_mono; [| apply mwp_any].
        intros o s' tr _ Hall. rewrite answers_cons in Hall.
        inversion Hall; subst; contradiction.
Qed.

(** The loop never moves the index backwards, and writes
    [lastModelCheck] only when it reads the clock. *)
Lemma for_models_forward (n : nat) :
  forall (i : Z) (s : GladosService),
    currentTextModelIndex s <= i ->
    mwp (for_models n i message) s
      (fun o s' tr =>
         currentTextModelIndex s <= currentTextModelIndex s'
         /\ (clock_readings tr = [] -> lastModelCheck s' = lastModelCheck s)
         /\ (forall error, o = Thrown error -> clock_readings tr = [])).
Proof.
  induction n as [| n IH]; intros i s Hi.
  - unfold mwp. cbn. split; [lia |]. split; [reflexivity | discriminate].
  - cbn [for_models]. apply mwp_bind. apply attempt_spec.
    intros [error | response].
    + destruct (i <? length_of s - 1).
      * cbv beta iota. cbn [app].
        eapply mwp_mono;
          [| apply (IH (i + 1) (set_currentTextModelIndex (i + 1) s))].
        -- intros o s' tr (H1 & H2 & H3). cbn in H1.
           split; [lia |]. split; [exact H2 | exact H3].
        -- cbn. lia.
      * split; [lia |]. split; reflexivity.
    + cbn zeta.
      destruct (Js.truthy (option_map Js.trim (resp_text response))) eqn:Ht.
      * intros now.
        destruct (option_map Js.trim (resp_text response)) as [t |] eqn:Hr;
          [| discriminate Ht].
        unfold mwp. cbn [ret wp fst snd app]. cbn.
        split; [lia |]. split; discriminate.
      * cbv beta iota. cbn [app]. eapply mwp_mono; [| apply (IH (i + 1) s)].
        -- intros o s' tr H. exact H.
        -- lia.
Qed.

End MoreLoop.

Lemma promoted_more (s s1 : GladosService) (t0 : list entry) :
  promoted s s1 t0 ->
  lastModelCheck s1 = lastModelCheck s
  /\ models_asked t0 = [] /\ answers t0 = []
  /\ (clock_readings t0 = [] \/ exists now, clock_readings t0 = [now]).
Proof.
  intros [(_ & -> & ->) | (now & _ & -> & ->)].
  - repeat split; auto.
  - split; [now destruct (now - lastModelCheck s >? CHECK_INTERVAL s) |].
    split; [reflexivity |]. split; [reflexivity |]. right. now exists now.
Qed.

Lemma models_asked_app (t1 t2 : list entry) :
  models_asked (t1 ++ t2) = models_asked t1 ++ models_asked t2.
Proof.
  unfold models_asked, text_attempts. now rewrite collect_app, map_app.
Qed.

Lemma answers_app (t1 t2 : list entry) :
  answers (t1 ++ t2) = answers t1 ++ answers t2.
Proof.
  unfold answers, text_attempts. now rewrite collect_app, map_app.
Qed.

(** X2: from a valid index, [generateTextWithFallback] asks at least one
    model, and the models it asks are consecutive candidates in list order,
    starting at the index the cool-down check left: no candidate is asked
    twice and none is skipped. *)
Theorem fallback_asks_candidates_in_order (W : Type) (h : handler W)
    (s : GladosService) (w : W) (message : string) :
  valid_index s ->
  exists k,
    (1 <= k)%nat
    /\ models_asked (trace_of (call h (generateTextWithFallback message) s w))
       = map Some
           (firstn k
              (skipn
                 (Z.to_nat
                    (currentTextModelIndex
                       (service_of (call h promote_check s w))))
                 (textModels s))).
Proof.
  intros Hv.
  destruct (generateTextWithFallback_run W h message s w)
    as (s1 & w1 & t0 & o & s2 & w2 & t & Hp & Hrun & Hloop & Hgen).
  destruct (promoted_valid _ _ _ Hp Hv) as [[Hf _] Hv1].
  destruct (promoted_more _ _ _ Hp) as (_ & Hm0 & _).
  rewrite Hgen, Hrun. cbn [service_of trace_of fst snd].
  rewrite models_asked_app, Hm0. cbn [app].
  assert (Hpos : 0 <= currentTextModelIndex s1) by apply Hv1.
  pose proof (mwp_sound _ _ _
                (for_models_order message _ (currentTextModelIndex s1) s1
                   Hpos eq_refl) W h w1) as Ho.
  pose proof (mwp_sound _ _ _
                (for_models_last message _ (currentTextModelIndex s1) s1
                   eq_refl) W h w1) as Hl.
  rewrite Hloop in Ho, Hl. cbn [outcome_of service_of trace_of fst snd] in Ho, Hl.
  destruct Ho as (k & _ & Hk). destruct Hl as [Hne _].
  exists k. rewrite Hf in Hk. split; [| exact Hk].
  destruct k as [| k]; [| lia].
  cbn in Hk. unfold models_asked in Hk.
  elim Hne.
  - unfold valid_index in Hv1. lia.
  - now destruct (text_attempts t).
Qed.

Lemma fallback_asks_candidates_in_order_witness :
  valid_index new_GladosService
  /\ exists k,
       (1 <= k)%nat
       /\ models_asked
            (trace_of (call scripted (generateTextWithFallback "hello")
                         new_GladosService second_answers))
          = map Some
              (firstn k
                 (skipn
                    (Z.to_nat
                       (currentTextModelIndex
                          (service_of (call scripted promote_check
                                         new_GladosService second_answers))))
                    (textModels new_GladosService))).
Proof.
  assert (Hv : valid_index new_GladosService)
    by (unfold valid_index; cbn; lia).
  split; [exact Hv |].
  exact (fallback_asks_candidates_in_order Script scripted new_GladosService
           second_answers "hello" Hv).
Defined.

(** X3: when the last attempt of [generateTextWithFallback] resolves with
    non-blank text, [currentTextModelIndex] points at the model that gave
    it, and [lastModelCheck] is the last clock reading of the call. *)
Theorem answering_model_is_recorded (W : Type) (h : handler W)
    (s : GladosService) (w : W) (message : string)
    (response : GenerateContentResponse) :
  last_attempt (trace_of (call h (generateTextWithFallback message) s w))
  = Some (inr response) ->
  Js.truthy (option_map Js.trim (resp_text response)) = true ->
  last (models_asked
          (trace_of (call h (generateTextWithFallback message) s w))) None
  = model_at (service_of (call h (generateTextWithFallback message) s w))
      (currentTextModelIndex
         (service_of (call h (generateTextWithFallback message) s w)))
  /\ exists earlier,
       clock_readings
         (trace_of (call h (generateTextWithFallback message) s w))
       = earlier
         ++ [lastModelCheck
               (service_of (call h (generateTextWithFallback message) s w))].
Proof.
  destruct (generateTextWithFallback_run W h message s w)
    as (s1 & w1 & t0 & o & s2 & w2 & t & Hp & Hrun & Hloop & Hgen).
  destruct (promoted_quiet _ _ _ Hp) as [Ht0 _].
  destruct (promoted_more _ _ _ Hp) as (_ & Hm0 & _).
  rewrite Hgen. cbn [service_of trace_of fst snd].
  rewrite (last_attempt_after_quiet _ _ Ht0).
  intros Hlast Htruthy.
  pose proof (mwp_sound _ _ _
                (for_models_success message
                   (Z.to_nat (length_of s1 - currentTextModelIndex s1))
                   (currentTextModelIndex s1) s1)
                W h w1) as Hs.
  rewrite Hloop in Hs. cbn [outcome_of service_of trace_of fst snd] in Hs.
  destruct (Hs response Hlast Htruthy) as [Hm Hc].
  rewrite models_asked_app, Hm0. cbn [app]. split; [exact Hm |].
  exists (clock_readings t0). unfold clock_readings in *.
  now rewrite collect_app, Hc.
Qed.

Lemma answering_model_is_recorded_witness :
  last_attempt
    (trace_of (call scripted (generateTextWithFallback "hello")
                 new_GladosService second_answers))
  = Some (text_reply " Still alive. ")
  /\ model_at
       (service_of (call scripted (generateTextWithFallback "hello")
                      new_GladosService second_answers))
       (currentTextModelIndex
          (service_of (call scripted (generateTextWithFallback "hello")
                         new_GladosService second_answers)))
     = Some "gemini-2.5-flash"
  /\ lastModelCheck
       (service_of (call scripted (generateTextWithFallback "hello")
                      new_GladosService second_answers)) = 5000.
Proof.
  split; [reflexivity |].
  pose proof (answering_model_is_recorded Script scripted new_GladosService
                second_answers "hello"
                {| resp_text := Some " Still alive. "; candidates := None |}
                eq_refl eq_refl) as [Hm _].
  split; [rewrite <- Hm; reflexivity | reflexivity].
Defined.

(** X4: from a valid index, when the index is 0 or the clock at the call
    shows a time not later than [lastModelCheck + CHECK_INTERVAL], the
    check in front of the loop changes nothing and the first model asked is
    the one at the current index: a degraded service does not go back to
    the preferred model inside the cool-down window. *)
Theorem no_probe_inside_cooldown (W : Type) (h : handler W)
    (s : GladosService) (w : W) (message : string) :
  valid_index s ->
  currentTextModelIndex s = 0
  \/ fst (h _ DateNow w) <= lastModelCheck s + CHECK_INTERVAL s ->
  service_of (call h promote_check s w) = s
  /\ map fst
       (firstn 1
          (text_attempts
             (trace_of (call h (generateTextWithFallback message) s w))))
     = [model_at s (currentTextModelIndex s)].
Proof.
  intros Hv Hcase.
  destruct (generateTextWithFallback_run W h message s w)
    as (s1 & w1 & t0 & o & s2 & w2 & t & Hp & Hrun & Hloop & Hgen).
  assert (Hs1 : s1 = s).
  { destruct Hp as [(_ & -> & _) | (now & Hpos & _ & _)]; [reflexivity |].
    destruct Hcase as [H0 | Hnow]; [lia |].
    rewrite (promote_check_at W h s w Hpos) in Hrun.
    assert (Hc : (fst (h _ DateNow w) - lastModelCheck s >? CHECK_INTERVAL s)
                 = false).
    { destruct (fst (h Z DateNow w) - lastModelCheck s >? CHECK_INTERVAL s)
        eqn:E; [| reflexivity].
      apply Z.gtb_lt in E. lia. }
    rewrite Hc in Hrun. now injection Hrun as <- _ _. }
  subst s1. rewrite Hrun, Hgen. cbn [service_of trace_of fst snd].
  split; [reflexivity |].
  destruct (promoted_quiet _ _ _ Hp) as [Ht0 _].
  unfold text_attempts in *. rewrite collect_app, Ht0. cbn [app].
  pose proof (mwp_sound _ _ _
                (for_models_first message
                   (Z.to_nat (length_of s - currentTextModelIndex s))
                   (currentTextModelIndex s) s) W h w1) as Hfirst.
  rewrite Hloop in Hfirst. cbn [trace_of snd] in Hfirst.
  unfold text_attempts in Hfirst. rewrite Hfirst.
  unfold valid_index in Hv.
  destruct (Z.to_nat (length_of s - currentTextModelIndex s)) eqn:En;
    [lia | reflexivity].
Qed.

Lemma no_probe_inside_cooldown_witness :
  valid_index degraded_service
  /\ fst (scripted _ DateNow within_cooldown)
     <= lastModelCheck degraded_service + CHECK_INTERVAL degraded_service
  /\ map fst
       (firstn 1
          (text_attempts
             (trace_of (call scripted (generateTextWithFallback "hello")
                          degraded_service within_cooldown))))
     = [Some "gemini-2.5-flash"].
Proof.
  assert (Hv : valid_index degraded_service)
    by (unfold valid_index; cbn; lia).
  assert (Hnow : fst (scripted _ DateNow within_cooldown)
                 <= lastModelCheck degraded_service
                    + CHECK_INTERVAL degraded_service) by (cbn; lia).
  split; [exact Hv |]. split; [exact Hnow |].
  exact (proj2 (no_probe_inside_cooldown Script scripted degraded_service
                  within_cooldown "hello" Hv (or_intror Hnow))).
Defined.

(** X5: from a valid index, if every text-generation attempt of a [chat]
    call is rejected, whatever the errors are, [chat] answers with the
    error text chosen by the last rejection alone (the quota text when that
    one is quota-class, the generic text otherwise), with no audio; the
    index ends on the last candidate and [lastModelCheck] is not
    written. *)
Theorem chat_reports_the_last_rejection (W : Type) (h : handler W)
    (s : GladosService) (w : W) (message : string) :
  valid_index s ->
  Forall rejected (answers (trace_of (call h (chat message) s w))) ->
  exists error,
    last_attempt (trace_of (call h (chat message) s w)) = Some (inl error)
    /\ outcome_of (call h (chat message) s w)
       = Returned
           {| text := if isQuotaError error then QUOTA_ERROR_TEXT
                      else GENERIC_ERROR_TEXT;
              audioBase64 := None |}
    /\ currentTextModelIndex (service_of (call h (chat message) s w))
       = length_of s - 1
    /\ lastModelCheck (service_of (call h (chat message) s w))
       = lastModelCheck s.
Proof.
  intros Hv Hall.
  destruct (generateTextWithFallback_run W h message s w)
    as (s1 & w1 & t0 & o & s2 & w2 & t & Hp & _ & Hloop & Hgen).
  pose proof (chat_run W h message s w) as Hc. rewrite Hgen in Hc.
  pose proof (mwp_sound _ _ _
                (for_models_rejected message _ (currentTextModelIndex s1) s1
                   eq_refl eq_refl) W h w1) as Hr.
  rewrite Hloop in Hr. cbn [outcome_of service_of trace_of fst snd] in Hr.
  destruct (promoted_valid _ _ _ Hp Hv) as [Hf1 Hv1].
  destruct (promoted_quiet _ _ _ Hp) as [Ht0 _].
  destruct (promoted_more _ _ _ Hp) as (Hl0 & _).
  assert (Hn : Z.to_nat (length_of s1 - currentTextModelIndex s1) <> O)
    by (unfold valid_index in Hv1; lia).
  assert (Hatt : forall rest, text_attempts rest = [] ->
            text_attempts ((t0 ++ t) ++ rest) = text_attempts t)
    by (intros rest Hrest; now apply attempts_of_chat_trace).
  destruct o as [t' | error].
  - destruct Hc as (a1 & a2 & w3 & _ & Hc). rewrite Hc in Hall.
    cbn [trace_of snd] in Hall. unfold answers in Hall.
    rewrite Hatt in Hall by apply audio_trace_quiet.
    destruct (Hr Hall Hn) as (e & He & _). discriminate He.
  - destruct Hc as (w3 & Hc). rewrite Hc in Hall |- *.
    cbn [outcome_of service_of trace_of fst snd] in *.
    unfold answers in Hall. rewrite Hatt in Hall by reflexivity.
    destruct (Hr Hall Hn) as (e & He & Hl & Hidx & Hlast & _).
    injection He as <-. exists error.
    split; [unfold last_attempt in *; now rewrite Hatt |].
    split; [reflexivity |].
    split; [rewrite Hidx; now rewrite (frame_length _ _ Hf1) |].
    now rewrite Hlast.
Qed.

Lemma chat_reports_the_last_rejection_witness :
  valid_index new_GladosService
  /\ Forall rejected
       (answers (trace_of (call scripted (chat "hello") new_GladosService
                             rejected_twice)))
  /\ exists error,
       last_attempt (trace_of (call scripted (chat "hello") new_GladosService
                                 rejected_twice)) = Some (inl error)
       /\ outcome_of (call scripted (chat "hello") new_GladosService
                        rejected_twice)
          = Returned
              {| text := if isQuotaError error then QUOTA_ERROR_TEXT
                         else GENERIC_ERROR_TEXT;
                 audioBase64 := None |}.
Proof.
  assert (Hv : valid_index new_GladosService)
    by (unfold valid_index; cbn; lia).
  assert (Hall : Forall rejected
            (answers (trace_of (call scripted (chat "hello") new_GladosService
                                  rejected_twice))))
    by (repeat constructor; eexists; reflexivity).
  split; [exact Hv |]. split; [exact Hall |].
  destruct (chat_reports_the_last_rejection Script scripted new_GladosService
              rejected_twice "hello" Hv Hall) as (error & Hl & Ho & _).
  exists error. split; [exact Hl | exact Ho].
Defined.

(** The run above, evaluated: a quota rejection followed by another kind
    of rejection is reported with the generic text. *)
Example rejected_twice_reply :
  outcome_of (call scripted (chat "hello") new_GladosService rejected_twice)
  = Returned {| text := GENERIC_ERROR_TEXT; audioBase64 := None |}.
Proof. reflexivity. Qed.

(** X6: within one call of [generateTextWithFallback] the index never
    moves backwards from where the cool-down check left it, the candidate
    list and the interval are not written, and a call that throws leaves
    [lastModelCheck] as it was. *)
Theorem index_only_moves_forward (W : Type) (h : handler W)
    (s : GladosService) (w : W) (message : string) :
  currentTextModelIndex (service_of (call h promote_check s w))
  <= currentTextModelIndex
       (service_of (call h (generateTextWithFallback message) s w))
  /\ textModels (service_of (call h (generateTextWithFallback message) s w))
     = textModels s
  /\ CHECK_INTERVAL
       (service_of (call h (generateTextWithFallback message) s w))
     = CHECK_INTERVAL s
  /\ (forall error,
        outcome_of (call h (generateTextWithFallback message) s w)
        = Thrown error ->
        lastModelCheck
          (service_of (call h (generateTextWithFallback message) s w))
        = lastModelCheck s).
Proof.
  destruct (generateTextWithFallback_run W h message s w)
    as (s1 & w1 & t0 & o & s2 & w2 & t & Hp & Hrun & Hloop & Hgen).
  destruct (promoted_more _ _ _ Hp) as (Hl0 & _).
  pose proof (mwp_sound _ _ _
                (for_models_forward message
                   (Z.to_nat (length_of s1 - currentTextModelIndex s1))
                   (currentTextModelIndex s1) s1 (Z.le_refl _)) W h w1) as Hfw.
  pose proof (mwp_sound _ _ _
                (for_models_quiet message
                   (Z.to_nat (length_of s1 - currentTextModelIndex s1))
                   (currentTextModelIndex s1) s1) W h w1) as Hq.
  rewrite Hloop in Hfw, Hq.
  cbn [outcome_of service_of trace_of fst snd] in Hfw, Hq.
  destruct Hfw as (Hidx & Hclock & Hthrown).
  destruct Hq as (_ & _ & [Hf1 Hf2]).
  assert (Hf0 : frame s s1).
  { destruct Hp as [(_ & -> & _) | (now & _ & _ & ->)]; [split; auto |].
    destruct (now - lastModelCheck s >? CHECK_INTERVAL s); split; auto. }
  destruct Hf0 as [Hf3 Hf4].
  rewrite Hgen, Hrun. cbn [outcome_of service_of fst snd].
  split; [exact Hidx |]. split; [congruence |]. split; [congruence |].
  intros error Ho. rewrite <- Hl0. apply Hclock. now apply (Hthrown error).
Qed.

Lemma index_only_moves_forward_witness :
  outcome_of (call scripted (generateTextWithFallback "hello")
                new_GladosService rejected_twice) = Thrown server_error
  /\ lastModelCheck
       (service_of (call scripted (generateTextWithFallback "hello")
                      new_GladosService rejected_twice))
     = lastModelCheck new_GladosService.
Proof.
  split; [reflexivity |].
  exact (proj2 (proj2 (proj2 (index_only_moves_forward Script scripted
                                new_GladosService rejected_twice "hello")))
           server_error eq_refl).
Defined.

(** ** More about [chatStream] *)

Lemma chatStream_events (message : string) (s : GladosService) :
  mwp (chatStream message) s
    (fun o s' tr =>
       o = Returned tt
       /\ List.length (stream_replies tr) = 1%nat
       /\ (exists partials terminal,
             emitted tr = partials ++ [terminal]
             /\ Forall (fun ev => done ev = None /\ ev_audioBase64 ev = None)
                  partials
             /\ done terminal = Some true
             /\ ev_text terminal <> None)
       /\ (forall st, stream_replies tr = [inr st] -> failure st = None ->
             s' = s /\ text_attempts tr = [])).
Proof.
  apply chatStream_spec. intros a. cbv zeta.
  assert (Hpartials : forall cs,
            Forall (fun ev => done ev = None /\ ev_audioBase64 ev = None)
              (map partial_event (running_totals EmptyString (chunk_texts cs)))).
  { intros cs. apply Forall_forall. intros ev Hin.
    apply in_map_iff in Hin. destruct Hin as (t & <- & _). now split. }
  assert (Hfall : forall cs error,
            (a = inl error /\ cs = [])
            \/ (exists st, a = inr st /\ failure st = Some error
                           /\ cs = chunks st) ->
            mwp (chat message) s (fun o s2 t2 =>
              match o with
              | Returned result =>
                  Returned tt = Returned tt
                  /\ List.length
                       (stream_replies
                          ((Entry (stream_request s message) a
                              :: partial_entries EmptyString cs)
                             ++ [stream_failed] ++ t2
                             ++ [yield_entry (terminal_of result)])) = 1%nat
                  /\ (exists partials terminal,
                        emitted
                          ((Entry (stream_request s message) a
                              :: partial_entries EmptyString cs)
                             ++ [stream_failed] ++ t2
                             ++ [yield_entry (terminal_of result)])
                        = partials ++ [terminal]
                        /\ Forall (fun ev => done ev = None
                                             /\ ev_audioBase64 ev = None)
                             partials
                        /\ done terminal = Some true
                        /\ ev_text terminal <> None)
                  /\ (forall st,
                        stream_replies
                          ((Entry (stream_request s message) a
                              :: partial_entries EmptyString cs)
                             ++ [stream_failed] ++ t2
                             ++ [yield_entry (terminal_of result)])
                        = [inr st] ->
                        failure st = None ->
                        s2 = s
                        /\ text_attempts
                             ((Entry (stream_request s message) a
                                 :: partial_entries EmptyString cs)
                                ++ [stream_failed] ++ t2
                                ++ [yield_entry (terminal_of result)]) = [])
              | Thrown e => False
              end)).
  { intros cs error Ha. eapply mwp_mono; [| apply chat_resolves].
    intros o s2 t2 ((result & ->) & He & Hs & _).
    assert (Hsr : stream_replies
                    ((Entry (stream_request s message) a
                        :: partial_entries EmptyString cs)
                       ++ [stream_failed] ++ t2
                       ++ [yield_entry (terminal_of result)]) = [a]).
    { rewrite <- app_comm_cons.
      change (stream_replies (Entry (stream_request s message) a :: ?l))
        with (a :: stream_replies l).
      unfold stream_replies in *. rewrite !collect_app, Hs.
      unfold partial_entries.
      assert (Hy : forall evs, collect stream_reply (map yield_entry evs) = [])
        by (induction evs; auto).
      rewrite Hy. reflexivity. }
    split; [reflexivity |]. split; [now rewrite Hsr |]. split.
    - exists (map partial_event (running_totals EmptyString (chunk_texts cs))),
        (terminal_of result).
      split; [| split; [apply Hpartials | split; [reflexivity | discriminate]]].
      rewrite <- app_comm_cons, emitted_of_stream.
      unfold emitted in *. rewrite !collect_app, He. reflexivity.
    - intros st Hst Hnone. rewrite Hsr in Hst. injection Hst as Hst.
      destruct Ha as [[-> _] | (st' & -> & Hf & _)]; [discriminate Hst |].
      injection Hst as ->. congruence. }
  destruct a as [error | st].
  - eapply mwp_mono; [| apply (Hfall [] error); left; auto].
    intros [result |] s2 t2 H; [exact H | elim H].
  - destruct (failure st) as [error |] eqn:Hf.
    + eapply mwp_mono;
        [| apply (Hfall (chunks st) error); right; exists st; auto].
      intros [result |] s2 t2 H; [exact H | elim H].
    + intros a1 a2.
      destruct (audio_trace_quiet (full_text (chunks st)) a1 a2)
        as (Hta & Hea & Hsa).
      assert (Hy : forall evs, collect stream_reply (map yield_entry evs) = [])
        by (induction evs; auto).
      assert (Hyt : forall evs, collect text_attempt (map yield_entry evs) = [])
        by (induction evs; auto).
      split; [reflexivity |]. split; [| split].
      * change (stream_replies (Entry (stream_request s message) (inr st)
                  :: ?l)) with (inr st :: stream_replies l).
        unfold stream_replies in *. rewrite !collect_app, Hsa.
        unfold partial_entries. now rewrite Hy.
      * exists (map partial_event
                  (running_totals EmptyString (chunk_texts (chunks st)))),
          (terminal_event (full_text (chunks st)) (audio_result a1 a2)).
        split; [| split; [apply Hpartials | split; [reflexivity | discriminate]]].
        rewrite emitted_of_stream. unfold emitted in *.
        rewrite collect_app, Hea. reflexivity.
      * intros _ _ _. split; [reflexivity |].
        change (text_attempts (Entry (stream_request s message) (inr st)
                  :: ?l)) with (text_attempts l).
        unfold text_attempts in *. rewrite !collect_app, Hta.
        unfold partial_entries. now rewrite Hyt.
Qed.

(** X7: in every environment [chatStream] ends without throwing and has
    yielded at least one event; the last event, and only the last, is
    marked [done] and carries a text; the events before it carry no
    audio. *)
Theorem chatStream_always_ends_with_one_terminal (W : Type) (h : handler W)
    (s : GladosService) (w : W) (message : string) :
  outcome_of (call h (chatStream message) s w) = Returned tt
  /\ exists partials terminal,
       emitted (trace_of (call h (chatStream message) s w))
       = partials ++ [terminal]
       /\ Forall (fun ev => done ev = None /\ ev_audioBase64 ev = None)
            partials
       /\ done terminal = Some true
       /\ ev_text terminal <> None.
Proof.
  pose proof (mwp_sound _ _ _ (chatStream_events message s) W h w)
    as (Ho & _ & Hev & _).
  split; [exact Ho | exact Hev].
Qed.

(** X8: [chatStream] opens exactly one stream, and when that stream
    completes it has made no text-generation request and has left the
    service object as it was: there is no model fallback on the streaming
    path, and a stream that succeeds on a degraded model does not refresh
    [lastModelCheck]. *)
Theorem chatStream_does_not_fall_back (W : Type) (h : handler W)
    (s : GladosService) (w : W) (message : string) :
  List.length (stream_replies (trace_of (call h (chatStream message) s w)))
  = 1%nat
  /\ (forall st,
        stream_replies (trace_of (call h (chatStream message) s w))
        = [inr st] ->
        failure st = None ->
        service_of (call h (chatStream message) s w) = s
        /\ text_attempts (trace_of (call h (chatStream message) s w)) = []).
Proof.
  pose proof (mwp_sound _ _ _ (chatStream_events message s) W h w)
    as (_ & Hone & _ & Hsame).
  split; [exact Hone | exact Hsame].
Qed.

Lemma chatStream_does_not_fall_back_witness :
  stream_replies (trace_of (call scripted (chatStream "hi") degraded_service
                              complete_stream))
  = [inr {| chunks := [mkChunk (Some "Still "); mkChunk (Some "alive.")];
            failure := None |}]
  /\ service_of (call scripted (chatStream "hi") degraded_service
                   complete_stream) = degraded_service.
Proof.
  split; [reflexivity |].
  exact (proj1 (proj2 (chatStream_does_not_fall_back Script scripted
                         degraded_service complete_stream "hi")
                  _ eq_refl eq_refl)).
Defined.

(** ** The quota classifier *)





(** * Further properties of the decode step *)

Module PlaybackMore.

Import Playback.
Import PlaybackFacts.

Lemma Uint8Array_of_is_bytes (binaryString : list Z) :
  Forall is_byte (Uint8Array_of binaryString).
Proof.
  unfold Uint8Array_of. apply Forall_forall. intros b Hin.
  apply in_map_iff in Hin. destruct Hin as (c & <- & _).
  unfold is_byte. apply Z.mod_pos_bound. lia.
Qed.

Lemma slice_even_is_bytes (bytes : list Z) :
  Forall is_byte bytes -> Forall is_byte (slice_even bytes).
Proof.
  intros H. unfold slice_even.
  rewrite <- (firstn_skipn
                (Z.to_nat (Z.of_nat (List.length bytes)
                           - Z.of_nat (List.length bytes) mod 2)) bytes) in H.
  now apply Forall_app in H.
Qed.

Lemma int16_view_in_range (buffer : list Z) :
  Forall is_byte buffer -> Forall is_int16 (int16_view buffer).
Proof.
  induction buffer as [| a | lo hi l IH] using list_ind_pairs; intros H;
    [constructor | constructor |].
  inversion H as [| x l1 Hlo Hrest]; subst.
  inversion Hrest as [| x l1 Hhi Hl]; subst.
  cbn [int16_view]. constructor; [| exact (IH Hl)].
  unfold is_byte, is_int16, to_int16 in *.
  destruct (Z.ltb_spec (lo + 256 * hi) 32768); lia.
Qed.

Lemma slice_even_half (bytes : list Z) :
  (List.length (slice_even bytes) / 2 = List.length bytes / 2)%nat.
Proof.
  destruct (Nat.even (List.length bytes)) eqn:E.
  - now rewrite slice_even_even.
  - assert (Hodd : Nat.odd (List.length bytes) = true)
      by (unfold Nat.odd; now rewrite E).
    rewrite (slice_even_odd _ Hodd), removelast_firstn_len, length_firstn.
    apply Nat.odd_spec in Hodd. destruct Hodd as [k Hk]. rewrite Hk.
    replace (Nat.min (Nat.pred (2 * k + 1)) (2 * k + 1)) with (k * 2)%nat
      by lia.
    rewrite Nat.div_mul by lia.
    replace (2 * k + 1)%nat with (1 + k * 2)%nat by lia.
    now rewrite Nat.div_add by lia.
Qed.

(** X10: the decode step fails exactly when [atob] rejects the payload;
    whenever [atob] returns [n] bytes, of either parity, the step returns
    the integer half of [n] samples (so a payload of no bytes or of a
    single byte gives an empty sample list, not an error). *)
Theorem decode_fails_only_in_atob (base64 : string) :
  (decode base64 = None <-> atob base64 = None)
  /\ forall binaryString,
       atob base64 = Some binaryString ->
       exists samples,
         decode base64 = Some samples
         /\ List.length samples = (List.length binaryString / 2)%nat.
Proof.
  split.
  - destruct (atob base64) as [bs |] eqn:Hatob.
    + rewrite (decode_of_binary_string _ _ Hatob). split; discriminate.
    + unfold decode. rewrite Hatob. split; reflexivity.
  - intros bs Hatob. rewrite (decode_of_binary_string _ _ Hatob).
    eexists. split; [reflexivity |].
    rewrite length_map, int16_view_length, slice_even_half.
    unfold Uint8Array_of. now rewrite length_map.
Qed.

Lemma decode_fails_only_in_atob_witness :
  atob "AQ==" = Some [1]
  /\ exists samples,
       decode "AQ==" = Some samples
       /\ List.length samples = (List.length [1] / 2)%nat.
Proof.
  split; [reflexivity |].
  exact (proj2 (decode_fails_only_in_atob "AQ==") [1] eq_refl).
Defined.

(** X11: every value the decode step produces is a 16-bit sample divided
    by 32768, hence at least -1 and less than 1, whatever the payload. *)
Theorem decoded_samples_are_in_range (base64 : string) (samples : list Q) :
  decode base64 = Some samples ->
  Forall (fun value =>
            (exists sample, is_int16 sample /\ value = normalize sample)
            /\ (-1 <= value)%Q /\ (value < 1)%Q) samples.
Proof.
  intros Hdec. destruct (atob base64) as [bs |] eqn:Hatob.
  - rewrite (decode_of_binary_string _ _ Hatob) in Hdec.
    injection Hdec as <-.
    pose proof (int16_view_in_range _
                  (slice_even_is_bytes _ (Uint8Array_of_is_bytes bs))) as Hr.
    induction Hr as [| k l Hk _ IH]; cbn; constructor; [| exact IH].
    split; [now exists k |].
    unfold is_int16 in Hk. unfold normalize, Qle, Qlt. cbn. lia.
  - unfold decode in Hdec. rewrite Hatob in Hdec. discriminate Hdec.
Qed.

Lemma decoded_samples_are_in_range_witness :
  decode "AID/fw==" = Some [Qmake (-32768) 32768; Qmake 32767 32768]
  /\ Forall (fun value =>
               (exists sample, is_int16 sample /\ value = normalize sample)
               /\ (-1 <= value)%Q /\ (value < 1)%Q)
       [Qmake (-32768) 32768; Qmake 32767 32768].
Proof.
  split; [reflexivity |].
  exact (decoded_samples_are_in_range "AID/fw==" _ eq_refl).
Defined.

End PlaybackMore.

(** * Programs over any request signature *)

Lemma tree_wp_mono {E : Type -> Type} {R : Type} (p : tree E R)
    (Q Q' : R -> list (asked E) -> Prop) :
  (forall r tr, Q r tr -> Q' r tr) -> tree_wp p Q -> tree_wp p Q'.
Proof.
  revert Q Q'. induction p as [r | X e k IH]; simpl; intros Q Q' HQ Hp.
  - now apply HQ.
  - intros x. eapply IH; [| apply Hp]. intros r tr. apply HQ.
Qed.

Lemma tree_wp_sound {E : Type -> Type} {R : Type} (p : tree E R)
    (Q : R -> list (asked E) -> Prop) :
  tree_wp p Q ->
  forall (W : Type) (h : answerer E W) (w : W),
    Q (fst (fst (tree_run h p w))) (snd (tree_run h p w)).
Proof.
  revert Q. induction p as [r | X e k IH]; simpl; intros Q Hp W h w.
  - exact Hp.
  - destruct (h X e w) as [x w1].
    specialize (IH x _ (Hp x) W h w1).
    destruct (tree_run h (k x) w1) as [[r w2] tr]. exact IH.
Qed.

Lemma swp_sound {E : Type -> Type} {S R : Type} (m : SM E S R) (s : S)
    (Q : outcome R -> S -> list (asked E) -> Prop) :
  swp m s Q ->
  forall (W : Type) (h : answerer E W) (w : W),
    Q (s_outcome (scall h m s w)) (s_state (scall h m s w))
      (s_trace (scall h m s w)).
Proof. intros H W h w. exact (tree_wp_sound _ _ H W h w). Qed.

(** * The first revision of the service *)

(** X12: the first revision of [chat] (one model, no fallback, no retry)
    never throws. It asks the text model once. If that request is rejected,
    for whatever reason, it logs and answers with the generic error text
    and no audio, without asking for speech. Otherwise the text is the
    trimmed reply, or the refusal string when the reply is blank, and
    speech is asked for exactly once, for that text: a rejection is logged
    and leaves the audio absent. *)
Theorem baseline_chat_asks_once (W : Type) (h : answerer Baseline.request W)
    (message : string) (w : W) :
  exists a1,
    match a1 with
    | inl error =>
        s_trace (scall h (Baseline.chat message) tt w)
        = [Asked (Baseline.GenerateText Baseline.TEXT_MODEL message) a1;
           Asked (Baseline.ConsoleError "GLaDOS Error:") tt]
        /\ s_outcome (scall h (Baseline.chat message) tt w)
           = Returned {| text := GENERIC_ERROR_TEXT; audioBase64 := None |}
    | inr reply =>
        exists a2,
          s_trace (scall h (Baseline.chat message) tt w)
          = [Asked (Baseline.GenerateText Baseline.TEXT_MODEL message) a1;
             Asked (Baseline.GenerateSpeech TTS_MODEL
                      (Baseline.tts_prompt (Baseline.text_or_refusal reply)))
               a2]
            ++ match a2 with
               | inl _ =>
                   [Asked (Baseline.ConsoleWarn
                             "TTS Generation failed, falling back to text-only:")
                      tt]
               | inr _ => []
               end
          /\ s_outcome (scall h (Baseline.chat message) tt w)
             = Returned
                 {| text := Baseline.text_or_refusal reply;
                    audioBase64 := match a2 with
                                   | inl _ => None
                                   | inr speech => first_inline_data speech
                                   end |}
    end.
Proof.
  apply (swp_sound (Baseline.chat message) tt
    (fun o _ tr =>
       exists a1,
         match a1 with
         | inl error =>
             tr = [Asked (Baseline.GenerateText Baseline.TEXT_MODEL message) a1;
                   Asked (Baseline.ConsoleError "GLaDOS Error:") tt]
             /\ o = Returned {| text := GENERIC_ERROR_TEXT;
                                audioBase64 := None |}
         | inr reply =>
             exists a2,
               tr = [Asked (Baseline.GenerateText Baseline.TEXT_MODEL message) a1;
                     Asked (Baseline.GenerateSpeech TTS_MODEL
                              (Baseline.tts_prompt
                                 (Baseline.text_or_refusal reply))) a2]
                    ++ match a2 with
                       | inl _ =>
                           [Asked (Baseline.ConsoleWarn
                                     "TTS Generation failed, falling back to text-only:")
                              tt]
                       | inr _ => []
                       end
               /\ o = Returned
                        {| text := Baseline.text_or_refusal reply;
                           audioBase64 := match a2 with
                                          | inl _ => None
                                          | inr speech =>
                                              first_inline_data speech
                                          end |}
         end)).
  unfold swp, Baseline.chat. cbn.
  intros [error | reply]; cbn.
  - intros []. exists (inl error). split; reflexivity.
  - intros [error2 | speech]; cbn.
    + intros []. exists (inr reply). exists (inl error2). split; reflexivity.
    + exists (inr reply). exists (inr speech). split; reflexivity.
Qed.

(** * The audio player of the page *)

Lemma tree_wp_bind {E : Type -> Type} {A B : Type} (p : tree E A)
    (k : A -> tree E B) (Q : B -> list (asked E) -> Prop) :
  tree_wp p (fun a t1 => tree_wp (k a) (fun b t2 => Q b (t1 ++ t2))) ->
  tree_wp (tree_bind p k) Q.
Proof.
  revert Q. induction p as [a | X e f IH]; simpl; intros Q Hp.
  - exact Hp.
  - intros x. apply IH. eapply tree_wp_mono; [| apply (Hp x)].
    intros a t1 Ha. exact Ha.
Qed.

Lemma swp_mono {E : Type -> Type} {S R : Type} (m : SM E S R) (s : S)
    (Q Q' : outcome R -> S -> list (asked E) -> Prop) :
  (forall o s' tr, Q o s' tr -> Q' o s' tr) -> swp m s Q -> swp m s Q'.
Proof. intros HQ. apply tree_wp_mono. intros [o s'] tr. apply HQ. Qed.

Lemma swp_bind {E : Type -> Type} {S A B : Type} (m : SM E S A)
    (k : A -> SM E S B) (s : S)
    (Q : outcome B -> S -> list (asked E) -> Prop) :
  swp m s (fun o s1 t1 =>
    match o with
    | Returned a => swp (k a) s1 (fun o2 s2 t2 => Q o2 s2 (t1 ++ t2))
    | Thrown error => Q (Thrown error) s1 t1
    end) ->
  swp (sbind m k) s Q.
Proof.
  intros Hm. unfold swp, sbind. apply tree_wp_bind.
  eapply tree_wp_mono; [| apply Hm].
  intros [[a | error] s1] t1; simpl; intros H.
  - exact H.
  - now rewrite app_nil_r.
Qed.

Lemma swp_catch {E : Type -> Type} {S A : Type} (body : SM E S A)
    (handle : JsError -> SM E S A) (s : S)
    (Q : outcome A -> S -> list (asked E) -> Prop) :
  swp body s (fun o s1 t1 =>
    match o with
    | Returned a => Q (Returned a) s1 t1
    | Thrown error => swp (handle error) s1 (fun o2 s2 t2 => Q o2 s2 (t1 ++ t2))
    end) ->
  swp (scatch body handle) s Q.
Proof.
  intros Hm. unfold swp, scatch. apply tree_wp_bind.
  eapply tree_wp_mono; [| apply Hm].
  intros [[a | error] s1] t1; simpl; intros H.
  - now rewrite app_nil_r.
  - exact H.
Qed.

Module AppFacts.

Import App.

Lemma any_rejection_app (t1 t2 : list (asked request)) :
  any_rejection (t1 ++ t2) = any_rejection t1 || any_rejection t2.
Proof. apply existsb_app. Qed.

Lemma status_sets_app (t1 t2 : list (asked request)) :
  status_sets (t1 ++ t2) = status_sets t1 ++ status_sets t2.
Proof. apply collect_app. Qed.

Lemma playback_app (t1 t2 : list (asked request)) :
  playback (t1 ++ t2) = playback t1 ++ playback t2.
Proof. apply collect_app. Qed.

Lemma buffers_asked_app (t1 t2 : list (asked request)) :
  buffers_asked (t1 ++ t2) = buffers_asked t1 ++ buffers_asked t2.
Proof. apply collect_app. Qed.

Lemma data_sets_app (t1 t2 : list (asked request)) :
  data_sets (t1 ++ t2) = data_sets t1 ++ data_sets t2.
Proof. apply collect_app. Qed.

(** Walk through a straight-line block, one request at a time. *)
Ltac walk :=
  unfold swp; cbn;
  repeat (first [ intros [? | []] | intros [? | ?] | intros [] ]; cbn).

Ltac leaf H := apply H; unfold quiet; cbn; repeat split; reflexivity.

(** *** The blocks of [playAudio] *)

Lemma acquire_context_spec (refs : Refs)
    (Q : outcome nat -> Refs -> list (asked request) -> Prop) :
  (forall c refs1 tr,
     quiet tr -> any_rejection tr = false ->
     sourceNodeRef refs1 = sourceNodeRef refs ->
     Q (Returned c) refs1 tr) ->
  (forall error refs1 tr,
     quiet tr -> any_rejection tr = true ->
     sourceNodeRef refs1 = sourceNodeRef refs ->
     Q (Thrown error) refs1 tr) ->
  swp acquire_context refs Q.
Proof.
  intros HR HT. destruct refs as [[c |] p]; unfold acquire_context; walk;
    first [leaf HR | leaf HT].
Qed.

Lemma stop_previous_spec (refs : Refs)
    (Q : outcome unit -> Refs -> list (asked request) -> Prop) :
  (forall tr,
     status_sets tr = [] -> playback tr = stop_of_previous refs ->
     buffers_asked tr = [] -> data_sets tr = [] ->
     any_rejection tr = false -> Q (Returned tt) refs tr) ->
  (forall error tr,
     status_sets tr = [] -> playback tr = stop_of_previous refs ->
     buffers_asked tr = [] -> data_sets tr = [] ->
     any_rejection tr = true -> Q (Thrown error) refs tr) ->
  swp stop_previous refs Q.
Proof.
  intros HR HT. destruct refs as [c [p |]]; unfold stop_previous; walk;
    first [apply HR | apply HT]; reflexivity.
Qed.

Lemma make_source_spec (context : nat) (float32Data : list Q) (refs : Refs)
    (Q : outcome nat -> Refs -> list (asked request) -> Prop) :
  (forall source tr,
     status_sets tr = [] -> playback tr = [] ->
     buffers_asked tr = [(1, Z.of_nat (List.length float32Data), 24000)] ->
     data_sets tr = [float32Data] ->
     any_rejection tr = false -> Q (Returned source) refs tr) ->
  (forall error tr,
     status_sets tr = [] -> playback tr = [] ->
     buffers_asked tr = [(1, Z.of_nat (List.length float32Data), 24000)] ->
     data_sets tr = [] \/ data_sets tr = [float32Data] ->
     any_rejection tr = true -> Q (Thrown error) refs tr) ->
  swp (make_source context float32Data) refs Q.
Proof.
  intros HR HT. unfold make_source; walk;
    first [apply HR; reflexivity
          | apply HT; first [reflexivity | left; reflexivity
                            | right; reflexivity]].
Qed.

Lemma filter_bank_spec (context source : nat) (refs : Refs)
    (Q : outcome unit -> Refs -> list (asked request) -> Prop) :
  (forall tr, quiet tr -> any_rejection tr = false ->
              Q (Returned tt) refs tr) ->
  (forall error tr, quiet tr -> any_rejection tr = true ->
                    Q (Thrown error) refs tr) ->
  swp (filter_bank context source) refs Q.
Proof.
  intros HR HT. unfold filter_bank, peaking_filter; walk;
    first [leaf HR | leaf HT].
Qed.

Lemma start_source_spec (source : nat) (refs : Refs)
    (Q : outcome unit -> Refs -> list (asked request) -> Prop) :
  (forall tr,
     status_sets tr = [SPEAKING] -> playback tr = [Started source] ->
     buffers_asked tr = [] -> data_sets tr = [] ->
     any_rejection tr = false ->
     Q (Returned tt) (set_sourceNodeRef (Some source) refs) tr) ->
  (forall error tr,
     status_sets tr = [SPEAKING] ->
     playback tr = [] \/ playback tr = [Started source] ->
     buffers_asked tr = [] -> data_sets tr = [] ->
     any_rejection tr = true ->
     Q (Thrown error) (set_sourceNodeRef (Some source) refs) tr) ->
  swp (start_source source) refs Q.
Proof.
  intros HR HT. unfold start_source; walk;
    first [apply HR; reflexivity
          | apply HT; first [reflexivity | left; reflexivity
                            | right; reflexivity]].
Qed.

Ltac observe :=
  rewrite ?status_sets_app, ?playback_app, ?buffers_asked_app,
    ?data_sets_app, ?any_rejection_app;
  repeat match goal with
         | H : status_sets ?t = _ |- context [status_sets ?t] => rewrite H
         | H : playback ?t = _ |- context [playback ?t] => rewrite H
         | H : buffers_asked ?t = _ |- context [buffers_asked ?t] => rewrite H
         | H : data_sets ?t = _ |- context [data_sets ?t] => rewrite H
         | H : any_rejection ?t = _ |- context [any_rejection ?t] => rewrite H
         end;
  cbn [app orb status_sets playback buffers_asked data_sets any_rejection
       collect existsb status_set playback_of buffer_asked data_copied
       rejection].

(** The [catch] block, after a trace [tr] of the [try] block. *)
Lemma caught_spec (refs : Refs)
    (Q : outcome unit -> Refs -> list (asked request) -> Prop) :
  Q (Returned tt) refs
    [Asked (ConsoleError "Audio playback failed:") tt;
     Asked (SetStatus IDLE) tt] ->
  swp (sbind (sask (ConsoleError "Audio playback failed:"))
         (fun _ => sask (SetStatus IDLE))) refs Q.
Proof. intros H. unfold swp. cbn. intros [] []. exact H. Qed.

Ltac settle :=
  observe; rewrite ?app_nil_r; unfold buffer_of;
  repeat split; intros; try discriminate; try congruence; auto.

Ltac caught := apply caught_spec; cbv beta; split; [reflexivity |].

Lemma playAudio_shape (base64 : string) (refs : Refs) :
  swp (playAudio false base64) refs
    (fun o refs' tr => o = Returned tt /\ shape base64 refs refs' tr).
Proof.
  unfold playAudio. apply swp_catch. apply swp_bind.
  apply acquire_context_spec.
  2:{ intros error refs1 t0 (S0 & P0 & B0 & D0) R0 Hs0. caught.
      right; left. unfold failed_early. settle; try (left; settle). }
  intros c refs1 t0 (S0 & P0 & B0 & D0) R0 Hs0. cbv beta iota.
  assert (Hprev : stop_of_previous refs1 = stop_of_previous refs)
    by (unfold stop_of_previous; now rewrite Hs0).
  apply swp_bind. apply stop_previous_spec.
  2:{ intros error t1 S1 P1 B1 D1 R1. rewrite Hprev in P1. caught.
      right; left. unfold failed_early. settle; try (left; settle). }
  intros t1 S1 P1 B1 D1 R1. rewrite Hprev in P1. cbv beta iota.
  apply swp_bind. unfold decode_payload.
  destruct (Playback.decode base64) as [float32Data |] eqn:Hdec.
  2:{ unfold swp at 1. cbn [sthrow tree_wp fst snd]. caught.
      right; left. unfold failed_early. settle; try (right; left; settle). }
  unfold swp at 1. cbn [sret tree_wp fst snd]. cbv beta iota.
  apply swp_bind. apply make_source_spec.
  2:{ intros error t2 S2 P2 B2 D2 R2. caught.
      right; left. unfold failed_early.
      destruct D2 as [D2 | D2]; settle;
        try (right; right; exists float32Data; settle). }
  intros source t2 S2 P2 B2 D2 R2. cbv beta iota.
  apply swp_bind. apply filter_bank_spec.
  2:{ intros error t3 (S3 & P3 & B3 & D3) R3. caught.
      right; left. unfold failed_early.
      settle; try (right; right; exists float32Data; settle). }
  intros t3 (S3 & P3 & B3 & D3) R3. cbv beta iota.
  apply start_source_spec.
  - intros t4 S4 P4 B4 D4 R4. split; [reflexivity |].
    left. exists source, float32Data. settle.
  - intros error t4 S4 P4 B4 D4 R4. caught.
    right; right. exists source, float32Data.
    destruct P4 as [P4 | P4]; settle.
Qed.

(** *** The audio context *)

Lemma contexts_made_app (t1 t2 : list (asked request)) :
  contexts_made (t1 ++ t2) = contexts_made t1 ++ contexts_made t2.
Proof. apply collect_app. Qed.

Lemma keeps_context_bind {A B : Type} (m : SM request Refs A)
    (k : A -> SM request Refs B) :
  keeps_context m -> (forall a, keeps_context (k a)) ->
  keeps_context (sbind m k).
Proof.
  intros Hm Hk refs. apply swp_bind.
  eapply swp_mono; [| apply Hm]. intros [a | error] refs1 t1 [Hr Ht].
  - eapply swp_mono; [| apply Hk]. cbv beta. intros o refs2 t2 [Hr2 Ht2].
    rewrite contexts_made_app, Ht, Ht2. split; [congruence | reflexivity].
  - now split.
Qed.

Lemma keeps_context_catch {A : Type} (body : SM request Refs A)
    (handle : JsError -> SM request Refs A) :
  keeps_context body -> (forall error, keeps_context (handle error)) ->
  keeps_context (scatch body handle).
Proof.
  intros Hm Hk refs. apply swp_catch.
  eapply swp_mono; [| apply Hm]. intros [a | error] refs1 t1 [Hr Ht].
  - now split.
  - eapply swp_mono; [| apply Hk]. cbv beta. intros o refs2 t2 [Hr2 Ht2].
    rewrite contexts_made_app, Ht, Ht2. split; [congruence | reflexivity].
Qed.

Lemma keeps_context_ret {A : Type} (a : A) :
  keeps_context (sret (E := request) (S := Refs) a).
Proof. intros refs. unfold swp. cbn. now split. Qed.

Lemma keeps_context_throw {A : Type} (error : JsError) :
  keeps_context (sthrow (E := request) (S := Refs) (R := A) error).
Proof. intros refs. unfold swp. cbn. now split. Qed.

Lemma keeps_context_gets {A : Type} (f : Refs -> A) :
  keeps_context (sgets (E := request) f).
Proof. intros refs. unfold swp. cbn. now split. Qed.

Lemma keeps_context_source (v : option nat) :
  keeps_context (smodify (E := request) (set_sourceNodeRef v)).
Proof. intros refs. unfold swp. cbn. now split. Qed.

Lemma keeps_context_ask {X : Type} (e : request X) :
  (forall x, context_made (Asked e x) = None) ->
  keeps_context (sask e).
Proof.
  intros He refs. unfold swp, sask. cbn [tree_wp fst snd]. intros x.
  split; [reflexivity |].
  unfold contexts_made. cbn [collect]. now rewrite He.
Qed.

Lemma keeps_context_try {X : Type} (e : request (JsError + X)) :
  (forall x, context_made (Asked e x) = None) ->
  keeps_context (stry e).
Proof.
  intros He. unfold stry. apply keeps_context_bind.
  - now apply keeps_context_ask.
  - intros [error | x]; [apply keeps_context_throw | apply keeps_context_ret].
Qed.

(** Apply the rules above along the syntax of a block. *)
Ltac keeps :=
  repeat first
    [ apply keeps_context_try; intros ?; reflexivity
    | apply keeps_context_ask; intros ?; reflexivity
    | apply keeps_context_ret
    | apply keeps_context_throw
    | apply keeps_context_gets
    | apply keeps_context_source
    | apply keeps_context_catch; [| intros ?]
    | apply keeps_context_bind; [| intros ?] ].

Lemma stop_previous_keeps_context : keeps_context stop_previous.
Proof.
  unfold stop_previous. apply keeps_context_bind; [keeps |].
  intros [p |]; keeps.
Qed.

Lemma decode_payload_keeps_context (base64 : string) :
  keeps_context (decode_payload base64).
Proof. unfold decode_payload. destruct (Playback.decode base64); keeps. Qed.

Lemma make_source_keeps_context (context : nat) (float32Data : list Q) :
  keeps_context (make_source context float32Data).
Proof. unfold make_source. keeps. Qed.

Lemma filter_bank_keeps_context (context source : nat) :
  keeps_context (filter_bank context source).
Proof. unfold filter_bank, peaking_filter. keeps. Qed.

Lemma start_source_keeps_context (source : nat) :
  keeps_context (start_source source).
Proof. unfold start_source. keeps. Qed.

Lemma acquire_context_made (refs : Refs)
    (Q : outcome nat -> Refs -> list (asked request) -> Prop) :
  (forall o refs1 tr, lazily_made refs refs1 tr -> Q o refs1 tr) ->
  swp acquire_context refs Q.
Proof.
  intros H. destruct refs as [[c |] p]; unfold acquire_context; walk;
    apply H; unfold lazily_made; cbn;
    first [ split; reflexivity
          | eexists; split; reflexivity ].
Qed.

Lemma lazily_made_more (refs refs1 refs2 : Refs)
    (t0 t : list (asked request)) :
  lazily_made refs refs1 t0 ->
  audioContextRef refs2 = audioContextRef refs1 -> contexts_made t = [] ->
  lazily_made refs refs2 (t0 ++ t).
Proof.
  unfold lazily_made. intros H0 Hr Ht.
  rewrite contexts_made_app, Ht, app_nil_r.
  destruct (audioContextRef refs) as [c |].
  - destruct H0 as [H0 H1]. split; congruence.
  - destruct H0 as (made & H0 & H1). exists made. split; congruence.
Qed.

Lemma playAudio_context (base64 : string) (refs : Refs) :
  swp (playAudio false base64) refs
    (fun _ refs' tr => lazily_made refs refs' tr).
Proof.
  assert (Hcatch : keeps_context
            (sbind (sask (ConsoleError "Audio playback failed:"))
               (fun _ => sask (S := Refs) (SetStatus IDLE)))) by keeps.
  unfold playAudio. apply swp_catch. apply swp_bind.
  apply acquire_context_made. intros [c | error] refs1 t0 H0.
  - eapply swp_mono.
    2:{ apply (keeps_context_bind stop_previous); [| intros _].
        apply stop_previous_keeps_context.
        apply keeps_context_bind; [| intros float32Data].
        apply decode_payload_keeps_context.
        apply keeps_context_bind; [| intros source].
        apply make_source_keeps_context.
        apply keeps_context_bind; [| intros _].
        apply filter_bank_keeps_context.
        apply start_source_keeps_context. }
    cbv beta. intros [[] | error] refs2 t [Hr Ht].
    + now apply lazily_made_more with refs1.
    + eapply swp_mono; [| apply Hcatch].
      cbv beta. intros o refs3 t3 [Hr3 Ht3].
      apply lazily_made_more with refs2; auto.
      now apply lazily_made_more with refs1.
  - eapply swp_mono; [| apply Hcatch].
    cbv beta. intros o refs3 t3 [Hr3 Ht3].
    now apply lazily_made_more with refs1.
Qed.

(** *** What a caller of [playAudio] can rely on *)

(** X13: [playAudio] never throws. Muted, it asks for nothing and leaves
    both refs alone. Unmuted, the statuses it sets are SPEAKING alone
    exactly when no Web Audio call was rejected and the payload decoded;
    after any rejection, or with an undecodable payload, the last status
    it sets is IDLE. *)
Theorem playAudio_never_throws (W : Type) (h : answerer request W) (w : W)
    (isMuted : bool) (base64 : string) (refs : Refs) :
  let r := scall h (playAudio isMuted base64) refs w in
  s_outcome r = Returned tt
  /\ if isMuted then s_trace r = [] /\ s_state r = refs
     else (status_sets (s_trace r) = [SPEAKING]
           /\ any_rejection (s_trace r) = false
           /\ Playback.decode base64 <> None)
          \/ ((status_sets (s_trace r) = [IDLE]
               \/ status_sets (s_trace r) = [SPEAKING; IDLE])
              /\ (any_rejection (s_trace r) = true
                  \/ Playback.decode base64 = None)).
Proof.
  destruct isMuted.
  - cbn. auto.
  - cbv zeta.
    destruct (swp_sound _ _ _ (playAudio_shape base64 refs) W h w)
      as [Ho [H | [H | H]]].
    + destruct H as (new & d & R & Hd & S & _).
      split; [exact Ho |]. left. repeat split; auto. congruence.
    + destruct H as (S & _ & [H | [H | H]]).
      * destruct H as (R & _). split; [exact Ho |]. right. auto.
      * destruct H as (_ & Hd & _). split; [exact Ho |]. right. auto.
      * destruct H as (d & R & _). split; [exact Ho |]. right. auto.
    + destruct H as (new & d & R & _ & S & _).
      split; [exact Ho |]. right. auto.
Qed.

(** X14: when the payload decodes and no Web Audio call is rejected,
    [playAudio] asks for exactly one buffer, of one channel, one frame per
    decoded sample, at 24000 Hz, copies exactly the decoded samples into
    it, asks the source the ref held (if any) to stop before it starts the
    new source, leaves the new source in [sourceNodeRef], and sets the
    status to SPEAKING only. *)
Theorem playAudio_plays_the_decoded_samples (W : Type)
    (h : answerer request W) (w : W) (base64 : string) (refs : Refs)
    (float32Data : list Q) :
  Playback.decode base64 = Some float32Data ->
  any_rejection (s_trace (scall h (playAudio false base64) refs w)) = false ->
  exists new,
    playback (s_trace (scall h (playAudio false base64) refs w))
    = stop_of_previous refs ++ [Started new]
    /\ sourceNodeRef (s_state (scall h (playAudio false base64) refs w))
       = Some new
    /\ buffers_asked (s_trace (scall h (playAudio false base64) refs w))
       = [(1, Z.of_nat (List.length float32Data), 24000)]
    /\ data_sets (s_trace (scall h (playAudio false base64) refs w))
       = [float32Data]
    /\ status_sets (s_trace (scall h (playAudio false base64) refs w))
       = [SPEAKING].
Proof.
  intros Hd R.
  destruct (swp_sound _ _ _ (playAudio_shape base64 refs) W h w)
    as [_ [H | [H | H]]].
  - destruct H as (new & d & _ & Hd' & S & P & Hr & B & D).
    assert (d = float32Data) by congruence. subst d.
    exists new. repeat split; assumption.
  - destruct H as (_ & _ & [H | [H | H]]).
    + destruct H as (R' & _). congruence.
    + destruct H as (_ & Hd' & _). congruence.
    + destruct H as (d & R' & _). congruence.
  - destruct H as (new & d & R' & _). congruence.
Qed.

Lemma playAudio_plays_the_decoded_samples_witness :
  exists new,
    playback (s_trace (scall audio (playAudio false "AQIDBAU=") playing
                         healthy))
    = stop_of_previous playing ++ [Started new]
    /\ sourceNodeRef (s_state (scall audio (playAudio false "AQIDBAU=")
                                 playing healthy))
       = Some new
    /\ buffers_asked (s_trace (scall audio (playAudio false "AQIDBAU=")
                                 playing healthy))
       = [(1, Z.of_nat (List.length [513 # 32768; 1027 # 32768]), 24000)]
    /\ data_sets (s_trace (scall audio (playAudio false "AQIDBAU=") playing
                             healthy))
       = [[513 # 32768; 1027 # 32768]]
    /\ status_sets (s_trace (scall audio (playAudio false "AQIDBAU=")
                               playing healthy))
       = [SPEAKING].
Proof.
  apply (playAudio_plays_the_decoded_samples Audio audio healthy "AQIDBAU="
           playing [513 # 32768; 1027 # 32768]);
    vm_compute; reflexivity.
Defined.

(** X15: with a source in [sourceNodeRef], every unmuted run of
    [playAudio] asks that source to stop before anything is started, and
    starts at most one source. Either the run fails before the new source
    is installed: it sets IDLE only and the ref still holds the previous
    source; or the ref holds a new source, the only one that may have been
    started, and SPEAKING was set. *)
Theorem playAudio_stops_before_it_starts (W : Type)
    (h : answerer request W) (w : W) (base64 : string) (refs : Refs)
    (prev : nat) :
  sourceNodeRef refs = Some prev ->
  (status_sets (s_trace (scall h (playAudio false base64) refs w)) = [IDLE]
   /\ sourceNodeRef (s_state (scall h (playAudio false base64) refs w))
      = Some prev
   /\ (playback (s_trace (scall h (playAudio false base64) refs w)) = []
       \/ playback (s_trace (scall h (playAudio false base64) refs w))
          = [Stopped prev]))
  \/ (exists new,
        sourceNodeRef (s_state (scall h (playAudio false base64) refs w))
        = Some new
        /\ (status_sets (s_trace (scall h (playAudio false base64) refs w))
            = [SPEAKING]
            \/ status_sets
                 (s_trace (scall h (playAudio false base64) refs w))
               = [SPEAKING; IDLE])
        /\ (playback (s_trace (scall h (playAudio false base64) refs w))
            = [Stopped prev]
            \/ playback (s_trace (scall h (playAudio false base64) refs w))
               = [Stopped prev; Started new])).
Proof.
  intros Hp.
  assert (Hs : stop_of_previous refs = [Stopped prev])
    by (unfold stop_of_previous; now rewrite Hp).
  destruct (swp_sound _ _ _ (playAudio_shape base64 refs) W h w)
    as [_ [H | [H | H]]].
  - destruct H as (new & d & _ & _ & S & P & Hr & _).
    right. exists new. rewrite S, P, Hs. auto.
  - destruct H as (S & Hr & H). left. rewrite Hr, Hp, <- Hs.
    repeat split; auto.
    destruct H as [(_ & P & _) | [(_ & _ & P & _) | (d & _ & _ & P & _)]];
      auto.
  - destruct H as (new & d & _ & _ & S & P & Hr & _).
    right. exists new. rewrite S, Hs in *. auto.
Qed.

Lemma playAudio_stops_before_it_starts_witness :
  (status_sets (s_trace (scall audio (playAudio false "AQIDBAU=") playing
                           healthy)) = [IDLE]
   /\ sourceNodeRef (s_state (scall audio (playAudio false "AQIDBAU=")
                                playing healthy))
      = Some 7%nat
   /\ (playback (s_trace (scall audio (playAudio false "AQIDBAU=") playing
                            healthy)) = []
       \/ playback (s_trace (scall audio (playAudio false "AQIDBAU=")
                               playing healthy))
          = [Stopped 7]))
  \/ (exists new,
        sourceNodeRef (s_state (scall audio (playAudio false "AQIDBAU=")
                                  playing healthy))
        = Some new
        /\ (status_sets (s_trace (scall audio (playAudio false "AQIDBAU=")
                                     playing healthy))
            = [SPEAKING]
            \/ status_sets
                 (s_trace (scall audio (playAudio false "AQIDBAU=") playing
                             healthy))
               = [SPEAKING; IDLE])
        /\ (playback (s_trace (scall audio (playAudio false "AQIDBAU=")
                                 playing healthy))
            = [Stopped 7]
            \/ playback (s_trace (scall audio (playAudio false "AQIDBAU=")
                                    playing healthy))
               = [Stopped 7; Started new])).
Proof.
  apply (playAudio_stops_before_it_starts Audio audio healthy "AQIDBAU="
           playing 7%nat).
  reflexivity.
Defined.

(** X16: a payload [atob] rejects is found out only after the previous
    source was asked to stop. With no Web Audio call rejected, such a run
    stops the source the ref held, asks for no buffer and starts nothing,
    sets the status to IDLE only, and leaves [sourceNodeRef] as it was. *)
Theorem undecodable_payload_still_stops_playback (W : Type)
    (h : answerer request W) (w : W) (base64 : string) (refs : Refs) :
  Playback.decode base64 = None ->
  any_rejection (s_trace (scall h (playAudio false base64) refs w)) = false ->
  playback (s_trace (scall h (playAudio false base64) refs w))
  = stop_of_previous refs
  /\ buffers_asked (s_trace (scall h (playAudio false base64) refs w)) = []
  /\ status_sets (s_trace (scall h (playAudio false base64) refs w)) = [IDLE]
  /\ sourceNodeRef (s_state (scall h (playAudio false base64) refs w))
     = sourceNodeRef refs.
Proof.
  intros Hd R.
  destruct (swp_sound _ _ _ (playAudio_shape base64 refs) W h w)
    as [_ [H | [H | H]]].
  - destruct H as (new & d & _ & Hd' & _). congruence.
  - destruct H as (S & Hr & [H | [H | H]]).
    + destruct H as (R' & _). congruence.
    + destruct H as (_ & _ & P & B & _). auto.
    + destruct H as (d & R' & _). congruence.
  - destruct H as (new & d & R' & _). congruence.
Qed.

Lemma undecodable_payload_still_stops_playback_witness :
  playback (s_trace (scall audio (playAudio false "A") playing healthy))
  = stop_of_previous playing
  /\ buffers_asked (s_trace (scall audio (playAudio false "A") playing
                               healthy)) = []
  /\ status_sets (s_trace (scall audio (playAudio false "A") playing
                             healthy)) = [IDLE]
  /\ sourceNodeRef (s_state (scall audio (playAudio false "A") playing
                               healthy))
     = sourceNodeRef playing.
Proof.
  apply (undecodable_payload_still_stops_playback Audio audio healthy "A"
           playing);
    vm_compute; reflexivity.
Defined.

(** X17: after a run of [playAudio] that set SPEAKING only, the [onended]
    handler of the source it started sets the status to IDLE, and the
    handler of any other source, such as the one it replaced, sets
    nothing; neither throws or changes a ref. *)
Theorem only_the_current_source_ends_speaking (W W' : Type)
    (h : answerer request W) (w : W) (h' : answerer request W') (w' : W')
    (base64 : string) (refs : Refs) (source : nat) :
  status_sets (s_trace (scall h (playAudio false base64) refs w))
  = [SPEAKING] ->
  exists new,
    last (playback (s_trace (scall h (playAudio false base64) refs w)))
      (Stopped source)
    = Started new
    /\ s_outcome
         (scall h' (onended source)
            (s_state (scall h (playAudio false base64) refs w)) w')
       = Returned tt
    /\ s_state
         (scall h' (onended source)
            (s_state (scall h (playAudio false base64) refs w)) w')
       = s_state (scall h (playAudio false base64) refs w)
    /\ status_sets
         (s_trace
            (scall h' (onended source)
               (s_state (scall h (playAudio false base64) refs w)) w'))
       = if Nat.eqb source new then [IDLE] else [].
Proof.
  intros S.
  destruct (swp_sound _ _ _ (playAudio_shape base64 refs) W h w)
    as [_ [H | [H | H]]].
  - destruct H as (new & d & _ & _ & _ & P & Hr & _).
    exists new. split.
    { rewrite P. apply last_last. }
    generalize dependent (s_state (scall h (playAudio false base64) refs w)).
    intros refs' Hr. unfold scall, onended, sbind, sgets. cbn.
    rewrite Hr. rewrite Nat.eqb_sym.
    destruct (Nat.eqb source new); cbn.
    + destruct (h' _ _ w') as [[] w2]. cbn. auto.
    + auto.
  - destruct H as (S' & _). congruence.
  - destruct H as (new & d & _ & _ & S' & _). congruence.
Qed.

Lemma only_the_current_source_ends_speaking_witness :
  exists new,
    last (playback (s_trace (scall audio (playAudio false "AQIDBAU=")
                               playing healthy)))
      (Stopped 7)
    = Started new
    /\ s_outcome
         (scall audio (onended 7)
            (s_state (scall audio (playAudio false "AQIDBAU=") playing
                        healthy)) healthy)
       = Returned tt
    /\ s_state
         (scall audio (onended 7)
            (s_state (scall audio (playAudio false "AQIDBAU=") playing
                        healthy)) healthy)
       = s_state (scall audio (playAudio false "AQIDBAU=") playing healthy)
    /\ status_sets
         (s_trace
            (scall audio (onended 7)
               (s_state (scall audio (playAudio false "AQIDBAU=") playing
                           healthy)) healthy))
       = if Nat.eqb 7 new then [IDLE] else [].
Proof.
  apply (only_the_current_source_ends_speaking Audio Audio audio healthy
           audio healthy "AQIDBAU=" playing 7%nat).
  vm_compute. reflexivity.
Defined.

(** X18: the audio context is made lazily and at most once. A run of
    [playAudio] on a page whose [audioContextRef] holds a context asks for
    no new one and leaves the ref alone, however the run ends; on a page
    without one it asks for a context exactly once, and the ref holds that
    context afterwards if it was made, even when playback then fails. *)
Theorem audio_context_is_made_at_most_once (W : Type)
    (h : answerer request W) (w : W) (base64 : string) (refs : Refs) :
  match audioContextRef refs with
  | Some c =>
      contexts_made (s_trace (scall h (playAudio false base64) refs w)) = []
      /\ audioContextRef (s_state (scall h (playAudio false base64) refs w))
         = Some c
  | None =>
      exists made,
        contexts_made (s_trace (scall h (playAudio false base64) refs w))
        = [made]
        /\ audioContextRef
             (s_state (scall h (playAudio false base64) refs w))
           = match made with inl _ => None | inr c => Some c end
  end.
Proof.
  pose proof (swp_sound _ _ _ (playAudio_context base64 refs) W h w) as H.
  unfold lazily_made in H.
  destruct (audioContextRef refs) as [c |].
  - destruct H as [H1 H2]. now split.
  - exact H.
Qed.

(** *** [handleSubmit] *)

Lemma tree_wp_conj {E : Type -> Type} {R : Type} (p : tree E R)
    (Q1 Q2 : R -> list (asked E) -> Prop) :
  tree_wp p Q1 -> tree_wp p Q2 -> tree_wp p (fun r tr => Q1 r tr /\ Q2 r tr).
Proof.
  revert Q1 Q2. induction p as [r | X e k IH]; simpl; intros Q1 Q2 H1 H2.
  - now split.
  - intros x. apply (IH x _ _ (H1 x) (H2 x)).
Qed.

Lemma swp_conj {E : Type -> Type} {S R : Type} (m : SM E S R) (s : S)
    (Q1 Q2 : outcome R -> S -> list (asked E) -> Prop) :
  swp m s Q1 -> swp m s Q2 ->
  swp m s (fun o s' tr => Q1 o s' tr /\ Q2 o s' tr).
Proof. intros H1 H2. exact (tree_wp_conj _ _ _ H1 H2). Qed.

Lemma page_quiet_app (t1 t2 : list (asked request)) :
  page_quiet t1 -> page_quiet t2 -> page_quiet (t1 ++ t2).
Proof.
  unfold page_quiet, messages_added, loading_sets, chats_asked.
  intros (M1 & L1 & C1) (M2 & L2 & C2).
  rewrite !collect_app, M1, L1, C1, M2, L2, C2. auto.
Qed.

Lemma audio_only_bind {A B : Type} (m : SM request Refs A)
    (k : A -> SM request Refs B) :
  audio_only m -> (forall a, audio_only (k a)) -> audio_only (sbind m k).
Proof.
  intros Hm Hk refs. apply swp_bind.
  eapply swp_mono; [| apply Hm]. intros [a | error] refs1 t1 H1.
  - eapply swp_mono; [| apply Hk]. cbv beta. intros o refs2 t2 H2.
    now apply page_quiet_app.
  - exact H1.
Qed.

Lemma audio_only_catch {A : Type} (body : SM request Refs A)
    (handle : JsError -> SM request Refs A) :
  audio_only body -> (forall error, audio_only (handle error)) ->
  audio_only (scatch body handle).
Proof.
  intros Hm Hk refs. apply swp_catch.
  eapply swp_mono; [| apply Hm]. intros [a | error] refs1 t1 H1.
  - exact H1.
  - eapply swp_mono; [| apply Hk]. cbv beta. intros o refs2 t2 H2.
    now apply page_quiet_app.
Qed.

Lemma audio_only_ret {A : Type} (a : A) :
  audio_only (sret (E := request) (S := Refs) a).
Proof. intros refs. unfold swp, page_quiet. cbn. auto. Qed.

Lemma audio_only_throw {A : Type} (error : JsError) :
  audio_only (sthrow (E := request) (S := Refs) (R := A) error).
Proof. intros refs. unfold swp, page_quiet. cbn. auto. Qed.

Lemma audio_only_gets {A : Type} (f : Refs -> A) :
  audio_only (sgets (E := request) f).
Proof. intros refs. unfold swp, page_quiet. cbn. auto. Qed.

Lemma audio_only_modify (f : Refs -> Refs) :
  audio_only (smodify (E := request) f).
Proof. intros refs. unfold swp, page_quiet. cbn. auto. Qed.

Lemma audio_only_ask {X : Type} (e : request X) :
  (forall x, message_added (Asked e x) = None
             /\ loading_set (Asked e x) = None
             /\ chat_asked (Asked e x) = None) ->
  audio_only (sask e).
Proof.
  intros He refs. unfold swp, sask. cbn [tree_wp fst snd]. intros x.
  destruct (He x) as (M & L & C).
  unfold page_quiet, messages_added, loading_sets, chats_asked.
  cbn [collect]. now rewrite M, L, C.
Qed.

Lemma audio_only_try {X : Type} (e : request (JsError + X)) :
  (forall x, message_added (Asked e x) = None
             /\ loading_set (Asked e x) = None
             /\ chat_asked (Asked e x) = None) ->
  audio_only (stry e).
Proof.
  intros He. unfold stry. apply audio_only_bind.
  - now apply audio_only_ask.
  - intros [error | x]; [apply audio_only_throw | apply audio_only_ret].
Qed.

Ltac audio_only_rules :=
  repeat first
    [ apply audio_only_try; intros ?; repeat split; reflexivity
    | apply audio_only_ask; intros ?; repeat split; reflexivity
    | apply audio_only_ret
    | apply audio_only_throw
    | apply audio_only_gets
    | apply audio_only_modify
    | apply audio_only_catch; [| intros ?]
    | apply audio_only_bind; [| intros ?]
    | match goal with
      | |- audio_only (match ?x with _ => _ end) => destruct x
      end ].

Lemma playAudio_audio_only (isMuted : bool) (base64 : string) :
  audio_only (playAudio isMuted base64).
Proof.
  unfold playAudio. destruct isMuted; [apply audio_only_ret |].
  apply audio_only_catch; [| intros error; audio_only_rules].
  apply audio_only_bind.
  { unfold acquire_context. apply audio_only_bind; [audio_only_rules |].
    intros [c |]; audio_only_rules. }
  intros context. apply audio_only_bind.
  { unfold stop_previous. apply audio_only_bind; [audio_only_rules |].
    intros [p |]; audio_only_rules. }
  intros _. apply audio_only_bind.
  { unfold decode_payload. destruct (Playback.decode base64);
      audio_only_rules. }
  intros float32Data. apply audio_only_bind.
  { unfold make_source. audio_only_rules. }
  intros source. apply audio_only_bind.
  { unfold filter_bank, peaking_filter. audio_only_rules. }
  intros _. unfold start_source. audio_only_rules.
Qed.

(** One request of a straight-line stretch, answered by [x]. *)
Tactic Notation "asks" ident(x) :=
  apply swp_bind; unfold swp at 1, sask at 1; cbn [tree_wp fst snd];
  intros x; cbv beta iota zeta.

Lemma handleSubmit_shape (input : string) (isMuted : bool) (refs : Refs) :
  Js.truthy (Some (Js.trim input)) = true ->
  swp (handleSubmit input false isMuted) refs
    (fun o _ tr => o = Returned tt /\ submitted input isMuted tr).
Proof.
  intros Hinput. unfold handleSubmit. rewrite Hinput. cbn [negb orb].
  asks u0. asks userId. asks userTimestamp. asks u1. asks u2. asks u3.
  asks u4. asks result. asks gladosId. asks gladosTimestamp. asks u5.
  asks u6. cbn [app].
  assert (Hend : forall t2,
    page_quiet t2 ->
    (if Js.truthy (audioBase64 result) then
       if isMuted then status_sets t2 = []
       else status_sets t2 = [SPEAKING] \/ status_sets t2 = [IDLE]
            \/ status_sets t2 = [SPEAKING; IDLE]
     else status_sets t2 = [IDLE]) ->
    submitted input isMuted
      (Asked PreventDefault u0 :: Asked Now userId
       :: Asked Now userTimestamp
       :: Asked (AddMessage {| id := userId; role := User; content := input;
                               timestamp := userTimestamp |}) u1
       :: Asked (SetInput EmptyString) u2 :: Asked (SetIsLoading true) u3
       :: Asked (SetStatus PROCESSING) u4 :: Asked (Chat input) result
       :: Asked Now gladosId :: Asked Now gladosTimestamp
       :: Asked (AddMessage {| id := gladosId + 1; role := Glados;
                               content := text result;
                               timestamp := gladosTimestamp |}) u5
       :: Asked (SetIsLoading false) u6 :: t2)).
  { intros t2 (M & L & C) Hst. exists result.
    unfold chats_asked, messages_added, loading_sets, status_sets in *.
    cbn [collect chat_asked message_added loading_set status_set].
    rewrite M, L, C. cbn [map role content].
    split; [reflexivity |]. split; [reflexivity |]. split; [reflexivity |].
    destruct (Js.truthy (audioBase64 result)).
    - destruct isMuted.
      + now rewrite Hst.
      + destruct Hst as [-> | [-> | ->]]; auto.
    - now rewrite Hst. }
  assert (Hidle : swp (sask (SetStatus IDLE)) refs
            (fun o _ t2 => o = Returned tt /\ page_quiet t2
                           /\ status_sets t2 = [IDLE])).
  { unfold swp, sask, page_quiet. cbn. intros []. auto. }
  destruct (audioBase64 result) as [audio |] eqn:Haudio.
  - destruct (Js.truthy (Some audio)) eqn:Htruthy.
    + destruct isMuted.
      * unfold playAudio, swp, sret. cbn [tree_wp fst snd].
        split; [reflexivity |]. apply Hend; [| reflexivity].
        unfold page_quiet. auto.
      * eapply swp_mono;
          [| apply swp_conj;
             [apply playAudio_shape | apply playAudio_audio_only]].
        cbv beta. intros o refs' t2 [[Ho Hshape] Hq].
        split; [exact Ho |]. apply Hend; [exact Hq |].
        destruct Hshape as [H | [H | H]].
        -- destruct H as (new & d & _ & _ & S & _). auto.
        -- destruct H as (S & _). auto.
        -- destruct H as (new & d & _ & _ & S & _). auto.
    + eapply swp_mono; [| apply Hidle]. cbv beta.
      intros o _ t2 (Ho & Hq & S). split; [exact Ho |]. now apply Hend.
  - eapply swp_mono; [| apply Hidle]. cbv beta.
    intros o _ t2 (Ho & Hq & S). split; [exact Ho |]. now apply Hend.
Qed.

(** X22: [handleSubmit] never throws. With an input that is blank after
    trimming, or while a reply is being awaited, it does nothing beyond
    [preventDefault]. Otherwise it asks the service exactly once, with the
    input as typed, adds the question and then the answer to the
    conversation, and sets the loading flag and clears it again. *)
Theorem handleSubmit_adds_question_then_answer (W : Type)
    (h : answerer request W) (w : W) (input : string)
    (isLoading isMuted : bool) (refs : Refs) :
  s_outcome (scall h (handleSubmit input isLoading isMuted) refs w)
  = Returned tt
  /\ if negb (Js.truthy (Some (Js.trim input))) || isLoading
     then s_trace (scall h (handleSubmit input isLoading isMuted) refs w)
          = [Asked PreventDefault tt]
          /\ s_state (scall h (handleSubmit input isLoading isMuted) refs w)
             = refs
     else exists result,
            chats_asked
              (s_trace (scall h (handleSubmit input isLoading isMuted) refs w))
            = [(input, result)]
            /\ map (fun m => (role m, content m))
                 (messages_added
                    (s_trace
                       (scall h (handleSubmit input isLoading isMuted) refs w)))
               = [(User, input); (Glados, text result)]
            /\ loading_sets
                 (s_trace
                    (scall h (handleSubmit input isLoading isMuted) refs w))
               = [true; false].
Proof.
  destruct (negb (Js.truthy (Some (Js.trim input))) || isLoading) eqn:Hguard.
  - unfold scall, handleSubmit, sbind, sask. rewrite Hguard. cbn.
    destruct (h unit PreventDefault w) as [[] w1]. cbn. auto.
  - apply orb_false_iff in Hguard. destruct Hguard as [Hinput ->].
    apply negb_false_iff in Hinput.
    destruct (swp_sound _ _ _ (handleSubmit_shape input isMuted refs Hinput)
                W h w) as [Ho (result & C & M & L & _)].
    split; [exact Ho |]. exists result. auto.
Qed.

(** X23: after an accepted [handleSubmit] the status comes to rest on IDLE
    or SPEAKING, except on a muted page that receives a reply with
    speech: there [playAudio] returns at once, nothing follows
    [setStatus('PROCESSING')], and the status stays PROCESSING. A reply
    without speech sets IDLE; an unmuted page sets what [playAudio]
    sets. *)
Theorem muted_reply_leaves_status_processing (W : Type)
    (h : answerer request W) (w : W) (input : string) (isMuted : bool)
    (refs : Refs) :
  Js.truthy (Some (Js.trim input)) = true ->
  exists result,
    chats_asked (s_trace (scall h (handleSubmit input false isMuted) refs w))
    = [(input, result)]
    /\ if Js.truthy (audioBase64 result) then
         if isMuted then
           status_sets
             (s_trace (scall h (handleSubmit input false isMuted) refs w))
           = [PROCESSING]
         else
           status_sets
             (s_trace (scall h (handleSubmit input false isMuted) refs w))
           = [PROCESSING; SPEAKING]
           \/ status_sets
                (s_trace (scall h (handleSubmit input false isMuted) refs w))
              = [PROCESSING; IDLE]
           \/ status_sets
                (s_trace (scall h (handleSubmit input false isMuted) refs w))
              = [PROCESSING; SPEAKING; IDLE]
       else
         status_sets
           (s_trace (scall h (handleSubmit input false isMuted) refs w))
         = [PROCESSING; IDLE].
Proof.
  intros Hinput.
  destruct (swp_sound _ _ _ (handleSubmit_shape input isMuted refs Hinput)
              W h w) as [_ (result & C & _ & _ & S)].
  exists result. split; [exact C | exact S].
Qed.

Lemma muted_reply_leaves_status_processing_witness :
  chats_asked (s_trace (scall (page spoken_reply)
                          (handleSubmit "hello" false true) playing healthy))
  = [("hello", spoken_reply)]
  /\ status_sets (s_trace (scall (page spoken_reply)
                             (handleSubmit "hello" false true) playing
                             healthy))
     = [PROCESSING].
Proof.
  destruct (muted_reply_leaves_status_processing Audio (page spoken_reply)
              healthy "hello" true playing eq_refl)
    as (result & C & S).
  split; [reflexivity |].
  assert (Hr : result = spoken_reply).
  { change (chats_asked (s_trace (scall (page spoken_reply)
                                    (handleSubmit "hello" false true) playing
                                    healthy)))
      with [("hello"%string, spoken_reply)] in C.
    congruence. }
  rewrite Hr in S. exact S.
Defined.

End AppFacts.

(** * What is said and what is spoken *)

Lemma speech_prompts_app (t1 t2 : list entry) :
  speech_prompts (t1 ++ t2) = speech_prompts t1 ++ speech_prompts t2.
Proof. apply collect_app. Qed.

(** [generateAudio] asks for speech once or twice, for its argument. *)
Lemma audio_trace_prompts (t : string)
    (a1 a2 : JsError + GenerateContentResponse) :
  speech_prompts (audio_trace t a1 a2) = [tts_prompt t]
  \/ speech_prompts (audio_trace t a1 a2) = [tts_prompt t; tts_prompt t].
Proof.
  unfold audio_trace.
  destruct a1 as [e1 | r1]; [| now left].
  destruct (isQuotaError e1); [| now left].
  destruct a2; now right.
Qed.

Section Text.

Variable message : string.

(** The loop asks for no speech, and what it returns is not empty. *)
Lemma for_models_text (n : nat) :
  forall (i : Z) (s : GladosService),
    mwp (for_models n i message) s
      (fun o _ tr =>
         speech_prompts tr = []
         /\ forall t, o = Returned t -> t <> EmptyString).
Proof.
  induction n as [| n IH]; intros i s.
  - unfold mwp. cbn. split; [reflexivity |]. intros t [= <-]. discriminate.
  - cbn [for_models]. apply mwp_bind. apply attempt_spec.
    intros [error | response].
    + destruct (i <? length_of s - 1).
      * cbv beta iota. eapply mwp_mono; [| apply IH].
        intros o s' tr [Hs Ht]. cbn. auto.
      * cbn. split; [reflexivity | discriminate].
    + cbn zeta.
      destruct (Js.truthy (option_map Js.trim (resp_text response))) eqn:Htr.
      * intros now.
        destruct (option_map Js.trim (resp_text response)) as [t |];
          [| discriminate Htr].
        unfold mwp. cbn. split; [reflexivity |].
        intros t' [= <-] ->. discriminate Htr.
      * cbv beta iota. eapply mwp_mono; [| apply IH].
        intros o s' tr [Hs Ht]. cbn. auto.
Qed.

Lemma generateTextWithFallback_text (s : GladosService) :
  mwp (generateTextWithFallback message) s
    (fun o _ tr =>
       speech_prompts tr = []
       /\ forall t, o = Returned t -> t <> EmptyString).
Proof.
  apply generateTextWithFallback_spec. intros s1 t0 Hp.
  eapply mwp_mono; [| apply for_models_text].
  cbv beta. intros o s2 tr [Hs Ht]. split; [| exact Ht].
  rewrite speech_prompts_app, Hs.
  destruct Hp as [(_ & _ & ->) | (now & _ & -> & _)]; reflexivity.
Qed.

End Text.

Lemma error_text_nonempty (error : JsError) : error_text error <> EmptyString.
Proof. unfold error_text. destruct (isQuotaError error); discriminate. Qed.

(** X19: whatever the environment answers and whatever state the object
    is in, [chat] resolves, and the text it resolves with is not the
    empty string. *)
Theorem chat_text_is_never_empty (W : Type) (h : handler W)
    (s : GladosService) (w : W) (message : string) :
  exists result,
    outcome_of (call h (chat message) s w) = Returned result
    /\ text result <> EmptyString.
Proof.
  pose proof (chat_run W h message s w) as Hc.
  pose proof (mwp_sound _ _ _ (generateTextWithFallback_text message s) W h w)
    as [_ Ht].
  destruct (call h (generateTextWithFallback message) s w)
    as [[[[t | error] s1] w1] t1]; cbn [outcome_of trace_of fst snd] in Ht.
  - destruct Hc as (a1 & a2 & w2 & _ & ->). cbn.
    eexists. split; [reflexivity |]. cbn. now apply Ht.
  - destruct Hc as (w2 & ->). cbn.
    eexists. split; [reflexivity |]. cbn. apply error_text_nonempty.
Qed.

(** X20: [chat] asks for speech only for the text it resolves with. When
    text generation returns, speech is asked for once or twice, each time
    with the prompt built from the returned text (the refusal string
    included); when text generation throws, no speech is asked for: the
    error texts are never spoken. *)
Theorem chat_speaks_only_what_it_returns (W : Type) (h : handler W)
    (s : GladosService) (w : W) (message : string) :
  exists result,
    outcome_of (call h (chat message) s w) = Returned result
    /\ match outcome_of (call h (generateTextWithFallback message) s w) with
       | Returned t =>
           text result = t
           /\ (speech_prompts (trace_of (call h (chat message) s w))
               = [tts_prompt t]
               \/ speech_prompts (trace_of (call h (chat message) s w))
                  = [tts_prompt t; tts_prompt t])
       | Thrown _ =>
           speech_prompts (trace_of (call h (chat message) s w)) = []
       end.
Proof.
  pose proof (chat_run W h message s w) as Hc.
  pose proof (mwp_sound _ _ _ (generateTextWithFallback_text message s) W h w)
    as [Hs _].
  destruct (call h (generateTextWithFallback message) s w)
    as [[[[t | error] s1] w1] t1]; cbn [outcome_of trace_of fst snd] in Hs.
  - destruct Hc as (a1 & a2 & w2 & _ & ->). cbn [outcome_of trace_of fst snd].
    eexists. split; [reflexivity |]. split; [reflexivity |].
    rewrite speech_prompts_app, Hs. apply audio_trace_prompts.
  - destruct Hc as (w2 & ->). cbn [outcome_of trace_of fst snd].
    eexists. split; [reflexivity |].
    rewrite speech_prompts_app, Hs. reflexivity.
Qed.

Lemma chunk_texts_of_silent (cs : list Chunk) :
  forallb silent cs = true -> chunk_texts cs = [].
Proof.
  induction cs as [| c rest IH]; intros H; [reflexivity |].
  cbn [forallb] in H. apply andb_true_iff in H. destruct H as [Hc Hrest].
  unfold silent in Hc. apply negb_true_iff in Hc.
  cbn [chunk_texts]. destruct (chunk_text c) as [t |]; [| now apply IH].
  cbn in Hc. apply negb_false_iff in Hc. rewrite Hc. now apply IH.
Qed.

(** X21: when the stream completes, [chatStream] asks for speech once or
    twice, each time for the full accumulated text, whatever that text
    is. The streaming path has no refusal string: if no chunk carried
    text, the only event is the terminal one, its text is the empty
    string, and speech was still asked for that empty text. *)
Theorem chatStream_speaks_the_full_text (W : Type) (h : handler W)
    (s : GladosService) (w : W) (message : string) (cs : list Chunk) :
  fst (h _ (stream_request s message) w)
  = inr {| chunks := cs; failure := None |} ->
  (speech_prompts (trace_of (call h (chatStream message) s w))
   = [tts_prompt (full_text cs)]
   \/ speech_prompts (trace_of (call h (chatStream message) s w))
      = [tts_prompt (full_text cs); tts_prompt (full_text cs)])
  /\ (forallb silent cs = true ->
      full_text cs = EmptyString
      /\ exists audio,
           emitted (trace_of (call h (chatStream message) s w))
           = [terminal_event EmptyString audio]).
Proof.
  intros Hreply.
  pose proof (stream_body_run W h message s w) as Hbody.
  rewrite Hreply in Hbody. destruct Hbody as (w1 & a1 & a2 & Hbody).
  cbn [chunks] in Hbody.
  assert (Hcall : call h (chatStream message) s w
                  = call h (stream_body message) s w)
    by (unfold chatStream; rewrite call_try_catch, Hbody; reflexivity).
  rewrite Hcall, Hbody. cbn [outcome_of trace_of fst snd].
  assert (Hy : forall evs, speech_prompts (map yield_entry evs) = [])
    by (induction evs; auto).
  split.
  - change (speech_prompts (Entry (stream_request s message)
                              (inr {| chunks := cs; failure := None |})
                              :: ?l))
      with (speech_prompts l).
    rewrite !speech_prompts_app. unfold partial_entries. rewrite Hy.
    cbn [app]. change (speech_prompts [yield_entry ?e]) with (@nil string).
    rewrite app_nil_r. apply audio_trace_prompts.
  - intros Hsilent. pose proof (chunk_texts_of_silent cs Hsilent) as Hct.
    assert (Hfull : full_text cs = EmptyString)
      by (unfold full_text; now rewrite Hct).
    split; [exact Hfull |].
    exists (audio_result a1 a2). rewrite emitted_of_stream, Hct, Hfull.
    cbn [running_totals map app].
    unfold emitted. rewrite collect_app.
    destruct (audio_trace_quiet EmptyString a1 a2) as (_ & He & _).
    unfold emitted in He. now rewrite He.
Qed.

Lemma chatStream_speaks_the_full_text_witness :
  speech_prompts (trace_of (call scripted (chatStream "hi") new_GladosService
                              wordless_stream))
  = [tts_prompt EmptyString]
  /\ exists audio,
       emitted (trace_of (call scripted (chatStream "hi") new_GladosService
                            wordless_stream))
       = [terminal_event EmptyString audio].
Proof.
  pose proof (chatStream_speaks_the_full_text Script scripted
                new_GladosService wordless_stream "hi"
                [mkChunk None; mkChunk (Some EmptyString)] eq_refl)
    as [_ H].
  split; [reflexivity |]. exact (proj2 (H eq_refl)).
Defined.
